(* ===== verification/_CoqProject ===== *)
-Q . S2P
Prelude.v
JsValue.v
Firestore.v
Messaging.v
Program.v
Spec.v
Trigger.v
Handler.v
Sdk.v
World.v
Limits.v
System.v
Schema.v
Schedule.v
Deployment.v
Retry.v
