(* ===== verification/Prelude.v ===== *)
(** * Emergency-Ambulance: verification of the driver notification function

    The repository is one Cloud Function, [src/functions/index.js]
    (35 lines).  When a document is created under [requests/{requestId}]
    the function [sendDriverNotification] reads the created snapshot,
    queries the [drivers] collection for the documents whose
    [isAvailable] field is [true], collects the truthy [fcmToken] fields
    in query order, and, when there is at least one, submits a single
    multicast push message with a fixed title and body and logs the
    number of successful deliveries.

    ** Files, in dependency order

    - [Prelude] (this file): the [result] type of fallible platform
      calls, the shared tactics and the hint database [notifier], and
      the facts on lists, strings and decimal numerals the components
      share.
    - [JsValue]: the JavaScript values the function handles: [value]
      (undefined, null, booleans, IEEE doubles as [spec_float], strings,
      arrays, objects), the coercion [ToBoolean] applied by [!x] and
      [if (x)], property access [getProp] (absent property: undefined),
      [Array.prototype.push], and [ToString] of a count in a template
      literal.
    - [Firestore]: documents, collections, snapshots with [data()], the
      query builder ([collection], [where_]) and the meaning of a
      [where(field, "==", v)] filter over a collection ([runQuery]);
      [forEach] over a query snapshot; well-formed databases.
    - [Messaging]: the multicast message of lines 25-31, the batch
      response whose [successCount] line 34 prints, and delivery to the
      registered devices ([deliver]).
    - [Program]: the async function as a program.  [prog] has a
      constructor per effect of the body: [Return], [Await] of a [call]
      (the Firestore [get] or [sendMulticast]) and [Log] for
      [console.log], which is synchronous and cannot fail.  A
      [Platform] is a class with one operation per effect.  [exec] runs
      a program to its end on a platform and returns the outcome of the
      promise ([Resolved] or [Rejected]), the final state and the trace
      of calls with their answers.  [advance] and [resume] run it from
      suspension to suspension: a [task] is [Suspended] at an awaited
      call or [Settled].  [always] and [within] state what a program
      does on every platform.  A [Layer] is a platform on top of
      another that passes calls on when they pass its test; a run whose
      calls pass is the run beneath ([exec_layer]), and layers stack
      ([stacked]).
    - [Spec]: what the function promises, stated without the program:
      the relation [notifies] between a snapshot, a trace and an outcome
      (section 4.1 of the specification), built on the reference
      definition [tokensOf] of the token list.
    - [Trigger]: the registration record of
      [functions.firestore.document(pattern).onCreate(handler)] and the
      platform's side of it: path patterns with wildcards
      ([match_path]) and the invocations a change of the database causes
      ([dispatch], [invocations]).
    - [Handler]: the function itself.  [sendDriverNotification] is the
      body of lines 7-35, one bind per [await], one [if] per early
      return; [driversQuery], [collect], [driverTokens], [message] and
      [logLine] are its parts; [exports] is the registration of lines
      5-7.
    - [Sdk]: the process.  Lines 1-3 run when the runtime loads the
      module: [index_js] is the body of the module, with
      [admin.initializeApp()] registering the default app in [admin];
      [firestore] and [messaging] are the lookups of lines 11 and 33;
      [require_index] is the module cache of the runtime.  A [process]
      (registry of apps, module cache, services) is a [Platform] on top
      of the platform of its services, and a [Layer] on it; [handle] is
      what it does with a change of the database.
    - [World]: a concrete platform: a Firestore database, the registry
      of reachable devices, the outbox of the push service, the console,
      and two switches that make the services fail.
    - [Limits]: the check a push service makes of the tokens of a
      multicast ([admits]: not empty, at most a bound) in front of the
      push service of any platform ([limited], a [Layer]); the bound
      is a parameter.
    - [System]: the deployed function.  A [system] is the platform and
      the invocations in flight; an [action] commits a change of the
      database (which starts the invocations it triggers), changes the
      devices or the availability of the services, or resumes a
      suspended invocation; [reachable] is every interleaving of them.
    - [Schema]: the data model of section 3 of the specification, which
      the source only knows as dynamic field reads: the typed record
      [Driver] with the decoder of a document and the document of a
      driver ([decode], [encode], over the class [Field] of field
      types), the notification on typed records ([recipient],
      [notification]) and the changes that follow the schema
      ([typed_change]).
    - [Schedule]: schedules of the system: the equivalence of systems
      up to the order of the outbox and the console ([equivalent]) and
      the schedule [drain] that answers the pending calls.
    - [Deployment]: the parts on top of each other.  The [stack] is a
      process over the checked push service over the database and the
      push service; [serve] is a process that handles the changes of
      the database one at a time and [in_turn] the schedule of the
      system that does the same.
    - [Retry]: the system under a retry policy: a rejected invocation
      may be invoked again for the same event, once ([sstep], [Retry]).

    ** Correspondence with the source

    Every definition that models a line of [index.js] keeps the name the
    source uses ([requestData], [driverSnapshot], [tokens], [message],
    [response] appear as binders).  An [await] of a promise that rejects
    throws; the source has no [try], so the async function's promise
    rejects with the same error: [exec] and [resume] stop at the first
    [Err] answer and settle as [Rejected].  The lookups
    [admin.firestore()] and [admin.messaging()] of lines 11 and 33 are
    synchronous and belong to the awaited expression: in [Sdk] a lookup
    that throws is recorded as the failed call it belongs to ([EvGet] or
    [EvSend] with the error of the lookup), although the service was
    never reached.  Definitions written from the
    specification rather than from the source (the meaning of a query,
    delivery, the trigger's dispatch, the platform and the system) are
    those of [Firestore.runQuery], [Messaging.deliver], [Trigger],
    [World], [Limits], [System], [Schema], [Deployment] and [Retry],
    and the behaviour of the SDK's registry of apps in [Sdk].  The bound of
    [Limits] is stated neither by the source nor by the specification:
    it is a parameter, and the theorems hold for every value of it.

    ** What the theorems show

    - [Handler], one invocation on any platform: the run satisfies the
      contract [notifies] (refinement); the imperative token loop
      ([forEach] with [push]) equals the reference [tokensOf]; the exact
      run on every branch (absent data, no tokens, failed query, failed
      send, accepted send); errors propagate unchanged; at most one
      query, one send and one log line; the fixed texts; the logged
      line mentions the reported count and nothing else; two resumptions
      make the whole run; which changes of the database invoke the
      function; the testable properties of the specification.
    - [Sdk], the process: once the module is loaded the handler runs
      in the process as it does on the services (refinement); without
      the default app it rejects at its first lookup; in every state of
      a process a change is handled without an SDK error, by at most one
      invocation, which satisfies the contract; the body of the module
      runs once, and a process that has just started handles a change
      as one in use does.
    - [World], one invocation on the database and push service: exactly
      the available drivers with a truthy token are addressed and no
      other; nothing is written; the logged count is bounded by the
      tokens and the drivers; a second invocation for the same request
      sends again; a truthy token that is not a string is sent and
      delivered to nobody.
    - [Limits], one invocation in front of a push service that checks
      its argument: below the bound the check is invisible
      (refinement), and the half of it that refuses an empty list never
      fires, which is what the early return of line 23 is for; above
      the bound the send is refused before it reaches the push service,
      the invocation rejects and nobody is notified.
    - [System] and [Schedule], any number of invocations interleaved
      with external changes: every settled invocation satisfies the
      contract; every invocation is resumed at most twice and then has settled, and
      the schedule [drain] settles all of them with at most two answers
      each; the outbox and the console hold exactly what the
      invocations sent and logged; a message addresses the drivers
      available in the state of the run in which the query of its own
      invocation was answered ([query_answered], a state that a run
      determines), each driver record at most once; and a message may
      therefore address a driver who is no longer available when it is
      sent, whatever is committed between the query and the send.  Of
      the platform itself, independently of the function: the database
      only changes by commits and stays well formed, and resumptions of
      different invocations commute up to the order of the outbox and
      the console ([equivalent], with [step] proper for it).
    - [Schema], the function against typed records: on a database that
      follows the schema the function does exactly what the typed
      statement of section 4.1 says (refinement); and as long as the
      changes committed follow the schema, under every interleaving,
      every token sent is a non-empty string, the token of a driver
      available when the query of the invocation was answered.  A token
      that is not a string can only come from a record that breaks the
      schema.
    - [Deployment], the composition: the creation of a request
      followed through the trigger, the module cache, the SDK handle,
      the check and the services, to the message in the outbox and the
      line on the console; and the process that serves one change at a
      time as one schedule of the system (refinement), so that what
      holds of every reachable state of the system holds of it.
    - [Retry], the same with retries of rejected invocations: the
      contract still holds of every invocation; the push service accepts
      at most one message per created request, because an invocation
      that rejects has had none accepted; a retry after the services
      answer again notifies the drivers available then.

    ** Bounds

    Every definition is structurally recursive and total.  The only
    fuel is that of [Schedule.drain], the number of answers the schedule
    may give; the backlog of the state (at most two answers per
    invocation) plus one is enough, which is what
    [every_invocation_can_settle] runs it with.  [Deployment.in_turn]
    drains with fuel 3: one invocation is pending, it awaits at most
    two calls ([Handler.sendDriverNotification_within]), and
    [Schedule.drain_last] shows that one more than that bound settles
    it.  Strings are sequences of bytes (the UTF-8 encoding of the
    source's literals); a JavaScript string is empty exactly when its
    encoding is, which is the only property of string contents the
    function observes.  [successCount] is a natural number; its decimal
    rendering agrees with JavaScript's [Number::toString] below 10^21.

    ** Not modelled

    The Firebase SDKs themselves (options and credentials of an app,
    transport, authentication, indexes, the checks of the push service
    other than the one on the number of tokens) and the runtime's
    deadlines, cancellation, backoff, alerting and the number of
    processes it starts are not code of this repository: they appear as
    the [Platform] interface and through the definitions written from
    the specification.  The interleaved system of [System] runs on the
    database and the push service directly, without the process and
    the check of [Limits]; [Deployment] relates the two for the
    process.  Nothing in the function or in the database enforces the
    schema of [Schema]: its theorems assume that the records follow it,
    and [World.malformed_tokens_are_forwarded] says what happens when
    one does not.

    ** Left open

    - Delivery of a trigger event more than once as an action of the
      system: [World.second_invocation_notifies_again] shows what the
      function does with it (it notifies again), [Retry] only invokes
      again what has rejected.
    - The per-token responses of the push service, which the function
      does not read.
    - The value of the bound on the tokens of one multicast, and
      batching: the function sends one multicast whatever the number of
      tokens.
    - Equality of numbers in a [where] filter: [Firestore.satisfies]
      compares values structurally, which differs from the database on
      NaN and signed zeros; the function only filters on [true]. *)

From Stdlib Require Import Ascii DecimalString DecimalNat DecimalFacts.
From stdpp Require Export base tactics option list strings.

(** * The result of a platform call *)

(** A call to the platform either answers or fails with an error: the
    promise it returns fulfils with a value or rejects with a reason. *)
Inductive result (E A : Type) : Type :=
| Ok (a : A)
| Err (e : E).
Arguments Ok {E A} a.
Arguments Err {E A} e.

#[export] Instance result_eq_dec `{EqDecision E, EqDecision A} :
  EqDecision (result E A).
Proof. solve_decision. Defined.

Definition is_ok {E A} (r : result E A) : bool :=
  match r with Ok _ => true | Err _ => false end.

(** Sequencing of fallible steps: the first error ends the sequence, as a
    thrown exception ends the statements that follow. *)
#[export] Instance result_ret {E} : MRet (result E) := λ A, Ok.
#[export] Instance result_bind {E} : MBind (result E) := λ A B f r,
  match r with Ok a => f a | Err e => Err e end.
#[export] Instance result_fmap {E} : FMap (result E) := λ A B f r,
  match r with Ok a => Ok (f a) | Err e => Err e end.

Lemma result_bind_Ok {E A B} (f : A → result E B) (r : result E A) (b : B) :
  r ≫= f = Ok b ↔ ∃ a, r = Ok a ∧ f a = Ok b.
Proof. destruct r as [a|e]; simpl; [|by split; [|intros (? & ? & ?)]].
  split; [eauto|]. by intros (? & [= <-] & ?). Qed.

(** * Shared automation *)

Create HintDb notifier discriminated.
Create Rewrite HintDb notifier.

(** [naive_solver] clears hypotheses it has already consumed. *)
#[export] Set Warnings "-clear-no-such-hyp".

(** Case analysis on the scrutinee of the first [match] or [if] of the goal,
    remembering the equation. *)
Ltac break_if :=
  match goal with
  | |- context [if ?b then _ else _] => destruct b eqn:?
  end.

(** * Lists: sublists *)

Lemma Forall_sublist {A} (P : A → Prop) (l1 l2 : list A) :
  sublist l1 l2 → Forall P l2 → Forall P l1.
Proof.
  induction 1 as [|x l1 l2 _ IH|x l1 l2 _ IH]; intros H; [done|..];
    apply Forall_cons in H as [Hx H]; auto.
Qed.

Lemma filter_sublist {A} (f : A → bool) (l : list A) :
  sublist (List.filter f l) l.
Proof.
  induction l as [|x l IH]; simpl; [constructor|].
  destruct (f x); by constructor.
Qed.

(** A filter that drops an element shortens the list. *)
Lemma filter_length_lt {A} (f : A → bool) (l : list A) (x : A) :
  x ∈ l → f x = false → length (List.filter f l) < length l.
Proof.
  intros Hin Hx. induction l as [|a l IH]; [by apply elem_of_nil in Hin|].
  pose proof (filter_length_le f l) as Hle. simpl.
  apply elem_of_cons in Hin as [<-|Hin].
  - rewrite Hx. lia.
  - specialize (IH Hin). destruct (f a); simpl; lia.
Qed.

Lemma filter_fmap {A B} (f : B → bool) (g : A → B) (l : list A) :
  List.filter f (g <$> l) = g <$> List.filter (λ x, f (g x)) l.
Proof.
  induction l as [|a l IH]; [done|]. rewrite fmap_cons. simpl.
  destruct (f (g a)); by rewrite IH.
Qed.

(** * Lists: the accumulating loop *)

Section push_loop.
Context {A B : Type} (f : A → option B).

(** One iteration of a loop that appends [f x] to an accumulator when it is
    defined: the shape of a [forEach] whose callback pushes conditionally. *)
Definition push_step (acc : list B) (x : A) : list B :=
  match f x with
  | Some y => acc ++ [y]
  | None => acc
  end.

Lemma foldl_push_step (l : list A) (acc : list B) :
  foldl push_step acc l = acc ++ omap f l.
Proof.
  revert acc; induction l as [|x l IH]; intros acc; simpl.
  - by rewrite app_nil_r.
  - rewrite IH. unfold push_step. destruct (f x); by rewrite <-?app_assoc.
Qed.

Lemma omap_nil_iff (l : list A) :
  omap f l = [] ↔ Forall (λ x, f x = None) l.
Proof.
  induction l as [|x l IH]; csimpl; [by split|].
  rewrite Forall_cons. destruct (f x) eqn:E; csimpl; [|by rewrite IH; tauto].
  split; [done|by intros [? _]].
Qed.

Lemma length_omap_le (l : list A) : length (omap f l) ≤ length l.
Proof. induction l as [|x l IH]; csimpl; [done|]. destruct (f x); csimpl; lia. Qed.

Lemma elem_of_omap_iff (l : list A) (y : B) :
  y ∈ omap f l ↔ ∃ x, x ∈ l ∧ f x = Some y.
Proof. apply list_elem_of_omap. Qed.

End push_loop.

#[export] Hint Rewrite @foldl_push_step : notifier.

Lemma bind_all_nil {A B} (f : A → list B) (l : list A) :
  Forall (λ x, f x = []) l → l ≫= f = [].
Proof. induction 1 as [|x l Hx _ IH]; csimpl; [done|]. by rewrite Hx, IH. Qed.

Lemma length_bind_le {A B} (f : A → list B) (l : list A) (n : nat) :
  Forall (λ x, length (f x) ≤ n) l → length (l ≫= f) ≤ n * length l.
Proof.
  induction 1 as [|x l Hx _ IH]; csimpl; [lia|]. rewrite length_app. lia.
Qed.

(** Counting the [false] flags of a list. *)
Lemma filter_negb_replicate (n : nat) :
  List.filter negb (replicate n false) = replicate n false.
Proof. induction n as [|n IH]; simpl; [done|]. by rewrite IH. Qed.

Lemma filter_negb_insert_true (flags : list bool) (i : nat) :
  flags !! i = Some false →
  S (length (List.filter negb (<[i := true]> flags)))
  = length (List.filter negb flags).
Proof.
  revert i. induction flags as [|b flags IH]; intros [|i] Hi; simplify_eq/=;
    [done|].
  specialize (IH i Hi). destruct b; simpl; lia.
Qed.

(** Sums of a measure over a list. *)
Lemma sum_list_fmap_insert_lt {A} (f : A → nat) (l : list A) (i : nat)
    (x y : A) :
  l !! i = Some x → f y < f x →
  sum_list (f <$> <[i := y]> l) < sum_list (f <$> l).
Proof.
  intros Hi Hlt. revert i Hi.
  induction l as [|a l IH]; intros [|i] Hi; simplify_eq/=; [lia|].
  specialize (IH i Hi). lia.
Qed.

Lemma sum_list_fmap_le {A} (f : A → nat) (l : list A) (n : nat) :
  (∀ x, f x ≤ n) → sum_list (f <$> l) ≤ n * length l.
Proof.
  intros Hf. induction l as [|a l IH]; [simpl; lia|].
  specialize (Hf a). rewrite fmap_cons, length_cons, Nat.mul_succ_r.
  simpl. lia.
Qed.

(** Replacing an element of a list by one that contributes more adds just
    that to what the list contributes, up to order. *)
Lemma bind_insert_app {A B} (f : A → list B) (l : list A) (i : nat)
    (x y : A) (extra : list B) :
  l !! i = Some x → f y = f x ++ extra →
  <[i := y]> l ≫= f ≡ₚ (l ≫= f) ++ extra.
Proof.
  intros Hi Hy. revert i Hi.
  induction l as [|a l IH]; intros [|i] Hi; simplify_eq/=.
  - rewrite Hy, <-!(assoc_L (++)). f_equiv. apply (comm (++)).
  - by rewrite IH, (assoc_L (++)).
Qed.

(** * Strings: prefixes and digit runs *)

(** [strip_prefix p s] removes the prefix [p] from [s], when [s] starts
    with it. *)
Fixpoint strip_prefix (p s : string) : option string :=
  match p, s with
  | EmptyString, _ => Some s
  | String a p', String b s' =>
      if decide (a = b) then strip_prefix p' s' else None
  | String _ _, EmptyString => None
  end.

Definition is_digit (a : ascii) : bool :=
  let n := nat_of_ascii a in (48 <=? n) && (n <=? 57).

(** [span_digits s] splits [s] after its longest prefix of decimal digits. *)
Fixpoint span_digits (s : string) : string * string :=
  match s with
  | String a s' =>
      if is_digit a then
        let '(d, r) := span_digits s' in (String a d, r)
      else (EmptyString, s)
  | EmptyString => (EmptyString, EmptyString)
  end.

Fixpoint all_digits (s : string) : bool :=
  match s with
  | String a s' => is_digit a && all_digits s'
  | EmptyString => true
  end.

Fixpoint no_digits (s : string) : bool :=
  match s with
  | String a s' => negb (is_digit a) && no_digits s'
  | EmptyString => true
  end.

(** [skip_to_digit s] drops the characters of [s] before its first digit. *)
Fixpoint skip_to_digit (s : string) : string :=
  match s with
  | String a s' => if is_digit a then s else skip_to_digit s'
  | EmptyString => EmptyString
  end.

(** [String.app] is never unfolded by [simpl]: these two equations are its
    computation rules. *)
Lemma string_app_nil_l (s : string) : EmptyString +:+ s = s.
Proof. done. Qed.

Lemma string_app_cons (a : ascii) (p s : string) :
  String a p +:+ s = String a (p +:+ s).
Proof. done. Qed.

Lemma strip_prefix_app (p s : string) : strip_prefix p (p +:+ s) = Some s.
Proof.
  induction p as [|a p IH]; [by destruct s|].
  rewrite string_app_cons. cbn. by rewrite decide_True.
Qed.

Lemma strip_prefix_Some (p s r : string) :
  strip_prefix p s = Some r → s = p +:+ r.
Proof.
  revert s; induction p as [|a p IH]; intros [|b s] H; simplify_eq/=; try done.
  case_decide; [|done]. subst. rewrite string_app_cons. f_equal. by apply IH.
Qed.

Lemma span_digits_app (d r : string) :
  all_digits d = true →
  (match r with String a _ => is_digit a = false | EmptyString => True end) →
  span_digits (d +:+ r) = (d, r).
Proof.
  intros Hd Hr. induction d as [|a d IH].
  - rewrite string_app_nil_l. destruct r as [|b r]; [done|]. cbn. by rewrite Hr.
  - cbn in Hd. apply andb_prop in Hd as [Ha Hd].
    rewrite string_app_cons. cbn. by rewrite Ha, (IH Hd).
Qed.

Lemma skip_to_digit_app (p s : string) :
  no_digits p = true → skip_to_digit (p +:+ s) = skip_to_digit s.
Proof.
  induction p as [|a p IH]; [done|]. cbn.
  intros [Ha Hp]%andb_prop. apply negb_true_iff in Ha.
  rewrite string_app_cons. cbn. rewrite Ha. auto.
Qed.

Lemma skip_to_digit_all_digits (d s : string) :
  all_digits d = true → d ≠ EmptyString → skip_to_digit (d +:+ s) = d +:+ s.
Proof.
  destruct d as [|a d]; [done|]. cbn. intros [Ha _]%andb_prop _.
  rewrite string_app_cons. cbn. by rewrite Ha.
Qed.

Lemma no_digits_head (s : string) :
  no_digits s = true →
  match s with String a _ => is_digit a = false | EmptyString => True end.
Proof.
  destruct s as [|a s]; [done|]. cbn.
  by intros [Ha%negb_true_iff _]%andb_prop.
Qed.

(** * Decimal numerals *)

(** The decimal numeral of a natural number, without leading zeros, and its
    inverse. *)
Definition decimal (n : nat) : string :=
  NilZero.string_of_uint (Nat.to_uint n).

Definition parse_decimal (s : string) : option nat :=
  Nat.of_uint <$> NilZero.uint_of_string s.

Lemma to_uint_nonnil (n : nat) : Nat.to_uint n ≠ Decimal.Nil.
Proof.
  rewrite Unsigned.to_uint_alt. intros H%rev_nil_inv. destruct n as [|n].
  - discriminate H.
  - rewrite Unsigned.to_lu_succ in H. by destruct (Unsigned.to_lu n).
Qed.

Lemma parse_decimal_decimal (n : nat) : parse_decimal (decimal n) = Some n.
Proof.
  unfold parse_decimal, decimal.
  rewrite NilZero.usu by apply to_uint_nonnil. cbn. by rewrite Unsigned.of_to.
Qed.

Lemma decimal_inj : Inj (=) (=) decimal.
Proof.
  intros n m H. apply (f_equal parse_decimal) in H.
  rewrite !parse_decimal_decimal in H. by simplify_eq.
Qed.

Lemma string_of_uint_all_digits (d : Decimal.uint) :
  all_digits (NilEmpty.string_of_uint d) = true.
Proof. induction d; cbn; auto. Qed.

Lemma decimal_all_digits (n : nat) : all_digits (decimal n) = true.
Proof.
  unfold decimal, NilZero.string_of_uint.
  destruct (Nat.to_uint n) eqn:E; try (rewrite <-E; apply string_of_uint_all_digits);
    try done; rewrite ?E; apply (string_of_uint_all_digits (_ _)).
Qed.

Lemma decimal_nonempty (n : nat) : decimal n ≠ EmptyString.
Proof.
  intros H. pose proof (parse_decimal_decimal n) as P. by rewrite H in P.
Qed.

(** The number a line of text mentions: the value of its only run of
    digits. *)
Definition the_number (line : string) : option nat :=
  let '(d, r) := span_digits (skip_to_digit line) in
  if no_digits r then parse_decimal d else None.

Lemma the_number_framed (p q : string) (n : nat) :
  no_digits p = true → no_digits q = true →
  the_number (p +:+ decimal n +:+ q) = Some n.
Proof.
  intros Hp Hq. unfold the_number.
  rewrite skip_to_digit_app by done.
  rewrite skip_to_digit_all_digits
    by (apply decimal_all_digits || apply decimal_nonempty).
  rewrite span_digits_app
    by (apply decimal_all_digits || by apply no_digits_head).
  by rewrite Hq, parse_decimal_decimal.
Qed.

#[export] Hint Rewrite strip_prefix_app parse_decimal_decimal : notifier.
#[export] Hint Resolve decimal_all_digits decimal_nonempty : notifier.
