(* ===== verification/JsValue.v ===== *)
(** * JavaScript values, as the function reads them

    The values that [snap.data()] and [doc.data()] deliver and the
    operations [index.js] applies to them: the coercion to a boolean that
    [!requestData] (line 9) and [if (data.fcmToken)] (line 20) perform,
    the property read [data.fcmToken], [tokens.push(...)] and
    [tokens.length] on the array of line 16, and the conversion of
    [response.successCount] to a string inside the template literal of
    line 34. *)

From Stdlib Require Import SpecFloat.
From S2P Require Import Prelude.

(** * Values *)

(** A number is an IEEE 754 double: [spec_float] has a constructor for the
    two zeros, the two infinities, NaN and the finite non-zero numbers. *)
#[export] Instance spec_float_eq_dec : EqDecision spec_float.
Proof. solve_decision. Defined.

Unset Elimination Schemes.
Inductive value : Type :=
| VUndefined
| VNull
| VBoolean (b : bool)
| VNumber (x : spec_float)
| VString (s : string)
| VArray (elems : list value)
| VObject (props : list (string * value)).
Set Elimination Schemes.

(** The property list of an object, in insertion order. *)
Definition object : Type := list (string * value).

(** Induction over values, with the induction hypothesis on every element
    of an array and every property value of an object. *)
Section value_ind.
Variable P : value → Prop.
Hypothesis Hundef : P VUndefined.
Hypothesis Hnull : P VNull.
Hypothesis Hbool : ∀ b, P (VBoolean b).
Hypothesis Hnum : ∀ x, P (VNumber x).
Hypothesis Hstr : ∀ s, P (VString s).
Hypothesis Harr : ∀ l, Forall P l → P (VArray l).
Hypothesis Hobj : ∀ o, Forall (λ kv, P kv.2) o → P (VObject o).

Fixpoint value_ind (v : value) : P v :=
  match v with
  | VUndefined => Hundef
  | VNull => Hnull
  | VBoolean b => Hbool b
  | VNumber x => Hnum x
  | VString s => Hstr s
  | VArray l =>
      Harr l ((fix go l : Forall P l :=
                 match l with
                 | [] => Forall_nil_2 P
                 | v :: l => Forall_cons_2 P v l (value_ind v) (go l)
                 end) l)
  | VObject o =>
      Hobj o ((fix go o : Forall (λ kv, P kv.2) o :=
                 match o with
                 | [] => Forall_nil_2 _
                 | kv :: o => Forall_cons_2 _ kv o (value_ind kv.2) (go o)
                 end) o)
  end.
End value_ind.

(** Structural equality of values, as a boolean function. *)
Fixpoint value_eqb (v w : value) {struct v} : bool :=
  match v, w with
  | VUndefined, VUndefined => true
  | VNull, VNull => true
  | VBoolean a, VBoolean b => bool_decide (a = b)
  | VNumber x, VNumber y => bool_decide (x = y)
  | VString s, VString t => bool_decide (s = t)
  | VArray l, VArray m =>
      (fix go (l m : list value) : bool :=
         match l, m with
         | [], [] => true
         | v :: l, w :: m => value_eqb v w && go l m
         | _, _ => false
         end) l m
  | VObject l, VObject m =>
      (fix go (l m : list (string * value)) : bool :=
         match l, m with
         | [], [] => true
         | kv :: l, kw :: m =>
             bool_decide (kv.1 = kw.1) && value_eqb kv.2 kw.2 && go l m
         | _, _ => false
         end) l m
  | _, _ => false
  end.

(** * ToBoolean *)

(** ECMAScript's ToBoolean, the coercion behind [!x] and [if (x)]:
    [undefined], [null], [false], the zeros, NaN and the empty string are
    falsy, everything else (every object and array included) is truthy. *)
Definition ToBoolean (v : value) : bool :=
  match v with
  | VUndefined | VNull => false
  | VBoolean b => b
  | VNumber (S754_zero _) | VNumber S754_nan => false
  | VNumber _ => true
  | VString s => negb (bool_decide (s = EmptyString))
  | VArray _ | VObject _ => true
  end.

(** The values ToBoolean sends to [false], as a predicate. *)
Inductive falsy : value → Prop :=
| falsy_undefined : falsy VUndefined
| falsy_null : falsy VNull
| falsy_false : falsy (VBoolean false)
| falsy_zero sign : falsy (VNumber (S754_zero sign))
| falsy_nan : falsy (VNumber S754_nan)
| falsy_empty : falsy (VString EmptyString).

(** * Property access *)

(** [o.k]: the value of the first property named [k], [undefined] when the
    object has none. *)
Fixpoint getProp (o : object) (k : string) : value :=
  match o with
  | [] => VUndefined
  | (k', v) :: o' => if decide (k' = k) then v else getProp o' k
  end.

Definition hasProp (o : object) (k : string) : bool :=
  bool_decide (k ∈ o.*1).

(** * Arrays *)

(** [arr.push(x)] appends [x] at the end of the array. *)
Definition push (arr : list value) (x : value) : list value := arr ++ [x].

(** * ToString of a count *)

(** [`${n}`] for a number [n] that is a non-negative integer below 10^21:
    its decimal numeral. *)
Definition ToString (n : nat) : string := decimal n.

(** * Stored values *)

(** The values a document can hold: no [undefined] at any depth, and no
    object with two properties of the same name. *)
Fixpoint stored (v : value) : bool :=
  match v with
  | VUndefined => false
  | VNull | VBoolean _ | VNumber _ | VString _ => true
  | VArray l => forallb stored l
  | VObject o =>
      bool_decide (NoDup o.*1) && forallb (λ kv, stored kv.2) o
  end.

Definition stored_object (o : object) : bool := stored (VObject o).

(** * Facts *)

Lemma value_eqb_refl (v : value) : value_eqb v v = true.
Proof.
  induction v as [| |b|x|s|l IH|o IH] using value_ind; simpl; try done;
    try (by apply bool_decide_eq_true).
  - induction IH as [|v l Hv _ IHl]; [done|]. by rewrite Hv, IHl.
  - induction IH as [|kv o Hv _ IHo]; [done|].
    by rewrite Hv, IHo, bool_decide_eq_true_2.
Qed.

Lemma value_eqb_eq (v w : value) : value_eqb v w = true → v = w.
Proof.
  revert w. induction v as [| |b|x|s|l IH|o IH] using value_ind; intros [| |b'|x'|s'|l'|o'] H;
    simplify_eq/=; try done;
    try (apply bool_decide_eq_true in H; by subst).
  - f_equal. revert l' H. induction IH as [|v l Hv _ IHl]; intros [|w m] H;
      try done.
    apply andb_prop in H as [H1 H2]. f_equal; auto.
  - f_equal. revert o' H. induction IH as [|[k v] o Hv _ IHo];
      intros [|[k' w] m] H; try done. simpl in *.
    apply andb_prop in H as [[Hk H1]%andb_prop H2].
    apply bool_decide_eq_true in Hk. f_equal; [f_equal|]; auto.
Qed.

#[export] Instance value_eq_dec : EqDecision value.
Proof.
  refine (λ v w, cast_if (decide (value_eqb v w = true))).
  - by apply value_eqb_eq.
  - intros ->. by rewrite value_eqb_refl in *.
Defined.

Lemma value_eqb_spec (v w : value) : value_eqb v w = bool_decide (v = w).
Proof.
  case_bool_decide as H; [subst; apply value_eqb_refl|].
  destruct (value_eqb v w) eqn:E; [|done]. by apply value_eqb_eq in E.
Qed.

Lemma ToBoolean_false_iff (v : value) : ToBoolean v = false ↔ falsy v.
Proof.
  split.
  - destruct v as [| |[]|[]|s| |]; simpl; try done; try constructor.
    intros H%negb_false_iff%bool_decide_eq_true. subst. constructor.
  - by destruct 1.
Qed.

Lemma ToBoolean_VString (s : string) :
  ToBoolean (VString s) = true ↔ s ≠ EmptyString.
Proof. simpl. by rewrite negb_true_iff, bool_decide_eq_false. Qed.

Lemma ToBoolean_true_not_undefined (v : value) :
  ToBoolean v = true → v ≠ VUndefined.
Proof. by intros H ->. Qed.

Lemma getProp_hasProp (o : object) (k : string) :
  hasProp o k = false → getProp o k = VUndefined.
Proof.
  unfold hasProp. rewrite bool_decide_eq_false.
  induction o as [|[k' v] o IH]; simpl; [done|].
  rewrite not_elem_of_cons. intros [Hk Ho]. by rewrite decide_False; auto.
Qed.

Lemma getProp_elem_of (o : object) (k : string) :
  hasProp o k = true → (k, getProp o k) ∈ o.
Proof.
  unfold hasProp. rewrite bool_decide_eq_true.
  induction o as [|[k' v] o IH]; simpl; [by intros ?%elem_of_nil|].
  rewrite elem_of_cons. intros Hk. case_decide as E.
  - subst. left.
  - right. apply IH. naive_solver.
Qed.

Lemma stored_getProp (o : object) (k : string) :
  stored_object o = true → hasProp o k = true → stored (getProp o k) = true.
Proof.
  unfold stored_object. simpl. intros [_ Ho]%andb_prop Hk.
  apply getProp_elem_of in Hk. rewrite forallb_forall in Ho.
  apply (Ho (k, getProp o k)). by apply list_elem_of_In.
Qed.

(** On a stored object, a property reads as [undefined] exactly when the
    object does not have it. *)
Lemma getProp_undefined_iff (o : object) (k : string) :
  stored_object o = true →
  getProp o k = VUndefined ↔ hasProp o k = false.
Proof.
  intros Ho. split; [|apply getProp_hasProp].
  destruct (hasProp o k) eqn:Hk; [|done].
  intros E. pose proof (stored_getProp o k Ho Hk) as S. by rewrite E in S.
Qed.

Lemma push_length (arr : list value) (x : value) :
  length (push arr x) = S (length arr).
Proof. unfold push. rewrite length_app. simpl. lia. Qed.

Lemma ToString_inj : Inj (=) (=) ToString.
Proof. apply decimal_inj. Qed.

#[export] Hint Rewrite push_length : notifier.
#[export] Hint Resolve ToBoolean_true_not_undefined : notifier.
