(* ===== verification/Firestore.v ===== *)
(** * The document database, as the function uses it

    Documents and collections, the snapshot handed to the trigger with its
    [data()] accessor (line 8), the query builder
    [collection(name).where(field, "==", v)] of lines 11-13, the answer of
    [get()] (line 14) and [forEach] over it (line 18).  The builder and the
    accessors are what the source calls; the meaning of a query over a
    database ([runQuery]) is the database's, written from the
    specification. *)

From stdpp Require Import gmap.
From S2P Require Import Prelude JsValue.

(** * Documents and snapshots *)

(** A document of a collection: its identifier and its fields. *)
Record document : Type := Document {
  doc_id : string;
  doc_fields : object
}.

#[export] Instance document_eq_dec : EqDecision document.
Proof. solve_decision. Defined.

(** A database maps a collection name to its documents, in the order the
    database enumerates them. *)
Abbreviation database := (gmap string (list document)).

(** The snapshot a trigger receives: the path of the document and its
    fields, absent when the document cannot be read. *)
Record DocumentSnapshot : Type := Snapshot {
  snap_path : string;
  snap_fields : option object
}.

(** [snap.data()]: the fields as an object, or [undefined]. *)
Definition data (snap : DocumentSnapshot) : value :=
  match snap_fields snap with
  | Some o => VObject o
  | None => VUndefined
  end.

(** A document of a query result always has fields: [doc.data()] is an
    object. *)
Definition QueryDocumentSnapshot : Type := document.

Definition doc_data (doc : QueryDocumentSnapshot) : object := doc_fields doc.

(** The answer of [get()]: the matching documents, in result order. *)
Definition QuerySnapshot : Type := list QueryDocumentSnapshot.

(** * Queries *)

(** The comparison of a [where] clause.  The source only uses ["=="]. *)
Variant whereOp : Type := OpEq.

Record whereClause : Type := Where {
  w_field : string;
  w_op : whereOp;
  w_value : value
}.

Record Query : Type := MkQuery {
  q_collection : string;
  q_where : list whereClause
}.

#[export] Instance whereOp_eq_dec : EqDecision whereOp.
Proof. solve_decision. Defined.
#[export] Instance whereClause_eq_dec : EqDecision whereClause.
Proof. solve_decision. Defined.
#[export] Instance Query_eq_dec : EqDecision Query.
Proof. solve_decision. Defined.

(** [firestore().collection(name)]: the query that selects a whole
    collection. *)
Definition collection (name : string) : Query :=
  {| q_collection := name; q_where := [] |}.

(** [q.where(field, op, v)]: [q] with one more clause. *)
Definition where_ (q : Query) (field : string) (op : whereOp) (v : value)
  : Query :=
  {| q_collection := q_collection q;
     q_where := q_where q ++ [Where field op v] |}.

(** A document satisfies [field == v] when it has the field and its value
    is [v].  Equality is structural; on booleans, strings and null it is
    the database's own. *)
Definition satisfies (doc : document) (w : whereClause) : bool :=
  match w_op w with
  | OpEq => value_eqb (getProp (doc_fields doc) (w_field w)) (w_value w)
  end.

Definition selects (q : Query) (doc : document) : bool :=
  forallb (satisfies doc) (q_where q).

(** The documents a query returns: those of its collection that satisfy
    every clause, in the collection's order. *)
Definition runQuery (db : database) (q : Query) : QuerySnapshot :=
  List.filter (selects q) (db !!! q_collection q).

(** [snapshot.forEach(callback)]: the callback runs on every document in
    result order; [s] is what the callback's closure mutates. *)
Definition forEach {S : Type} (snapshot : QuerySnapshot)
    (callback : QueryDocumentSnapshot → S → S) (s : S) : S :=
  foldl (λ s doc, callback doc s) s snapshot.

(** A database is well formed when every document holds stored values only
    and identifiers are unique within a collection. *)
Definition wf_collection (docs : list document) : Prop :=
  NoDup (doc_id <$> docs) ∧
  Forall (λ d, stored_object (doc_fields d) = true) docs.

Definition wf_database (db : database) : Prop :=
  map_Forall (λ _ docs, wf_collection docs) db.

(** * Facts *)

Lemma data_truthy_iff (snap : DocumentSnapshot) :
  ToBoolean (data snap) = true ↔ is_Some (snap_fields snap).
Proof.
  unfold data. by destruct (snap_fields snap).
Qed.

Lemma forEach_nil {S} (cb : QueryDocumentSnapshot → S → S) (s : S) :
  forEach [] cb s = s.
Proof. done. Qed.

Lemma forEach_cons {S} (cb : QueryDocumentSnapshot → S → S) d l (s : S) :
  forEach (d :: l) cb s = forEach l cb (cb d s).
Proof. done. Qed.

Lemma forEach_app {S} (cb : QueryDocumentSnapshot → S → S) l1 l2 (s : S) :
  forEach (l1 ++ l2) cb s = forEach l2 cb (forEach l1 cb s).
Proof. unfold forEach. by rewrite foldl_app. Qed.

Lemma elem_of_runQuery (db : database) (q : Query) (d : document) :
  d ∈ runQuery db q ↔ d ∈ db !!! q_collection q ∧ selects q d = true.
Proof.
  unfold runQuery. rewrite !list_elem_of_In, filter_In. done.
Qed.

Lemma runQuery_sublist (db : database) (q : Query) :
  sublist (runQuery db q) (db !!! q_collection q).
Proof. apply filter_sublist. Qed.

Lemma runQuery_Some (db : database) (q : Query) (docs : list document) :
  db !! q_collection q = Some docs →
  runQuery db q = List.filter (selects q) docs.
Proof. intros H. unfold runQuery. by rewrite lookup_total_alt, H. Qed.

Lemma selects_where (q : Query) f op v (d : document) :
  selects (where_ q f op v) d = selects q d && satisfies d (Where f op v).
Proof.
  unfold selects, where_. simpl. rewrite forallb_app. simpl.
  by rewrite andb_true_r.
Qed.

Lemma selects_collection (name : string) (d : document) :
  selects (collection name) d = true.
Proof. done. Qed.

Lemma satisfies_eq (d : document) f v :
  satisfies d (Where f OpEq v) = true ↔ getProp (doc_fields d) f = v.
Proof.
  unfold satisfies. simpl. rewrite value_eqb_spec. apply bool_decide_eq_true.
Qed.

Lemma runQuery_unknown_collection (db : database) (q : Query) :
  db !! q_collection q = None → runQuery db q = [].
Proof.
  intros H. unfold runQuery. by rewrite lookup_total_alt, H.
Qed.

Lemma runQuery_wf (db : database) (q : Query) :
  wf_database db → wf_collection (runQuery db q).
Proof.
  intros Hdb. destruct (db !! q_collection q) as [docs|] eqn:E.
  - rewrite (runQuery_Some _ _ _ E). destruct (Hdb _ _ E) as [Hnd Hst].
    pose proof (filter_sublist (selects q) docs) as Hsub. split.
    + apply (sublist_NoDup _ (doc_id <$> docs)); [done|by apply fmap_sublist].
    + by eapply Forall_sublist.
  - rewrite runQuery_unknown_collection by done. by split; constructor.
Qed.

#[export] Hint Rewrite selects_where selects_collection : notifier.
