(* ===== verification/Messaging.v ===== *)
(** * Push messages

    The message object built at lines 25-31 of [index.js] and the answer of
    [sendMulticast] (line 33), of which line 34 reads [successCount].
    [deliver] is the push service's side, written from the specification:
    a multicast delivers the same notification to every token that names a
    registered device and reports how many deliveries succeeded. *)

From S2P Require Import Prelude JsValue.

(** * The message and the response *)

(** [{ title: ..., body: ... }] *)
Record Notification : Type := MkNotification {
  title : string;
  body : string
}.

(** [{ notification: {...}, tokens: [...] }].  The source puts whatever
    values it collected into [tokens]: they are values, not strings. *)
Record MulticastMessage : Type := MkMessage {
  notification : Notification;
  tokens : list value
}.

(** The batch response, as far as the function reads it. *)
Record BatchResponse : Type := MkResponse {
  successCount : nat
}.

#[export] Instance Notification_eq_dec : EqDecision Notification.
Proof. solve_decision. Defined.
#[export] Instance MulticastMessage_eq_dec : EqDecision MulticastMessage.
Proof. solve_decision. Defined.
#[export] Instance BatchResponse_eq_dec : EqDecision BatchResponse.
Proof. solve_decision. Defined.

(** * The push service *)

(** The devices that can currently be reached, by registration token. *)
Definition registry : Type := list string.

(** A token is delivered to when it is a string that names a registered
    device. *)
Definition reaches (devices : registry) (token : value) : bool :=
  match token with
  | VString s => bool_decide (s ∈ devices)
  | _ => false
  end.

(** One delivery attempt per token, duplicates included; the response
    counts the successful ones. *)
Definition deliver (devices : registry) (message : MulticastMessage)
  : BatchResponse :=
  {| successCount := length (List.filter (reaches devices) (tokens message)) |}.

(** * Facts *)

Lemma deliver_le (devices : registry) (message : MulticastMessage) :
  successCount (deliver devices message) ≤ length (tokens message).
Proof. apply filter_length_le. Qed.

Lemma deliver_all (devices : registry) (message : MulticastMessage) :
  forallb (reaches devices) (tokens message) = true →
  successCount (deliver devices message) = length (tokens message).
Proof. intros H. unfold deliver. simpl. by rewrite forallb_filter_id. Qed.

Lemma deliver_none (message : MulticastMessage) :
  successCount (deliver [] message) = 0.
Proof.
  unfold deliver. simpl. induction (tokens message) as [|t l IH]; [done|].
  simpl. destruct t; simpl; try done.
Qed.

Lemma reaches_string (devices : registry) (token : value) :
  reaches devices token = true → ∃ s, token = VString s ∧ s ∈ devices.
Proof.
  destruct token; simpl; try done.
  intros H%bool_decide_eq_true. eauto.
Qed.

#[export] Hint Resolve deliver_le : notifier.
