(* ===== verification/Program.v ===== *)
(** * Programs over the platform

    The async function of [index.js] talks to three services: it awaits a
    Firestore [get()] (line 14), awaits [sendMulticast] (line 33) and calls
    [console.log] (line 34).  [call] names the two awaited calls with the
    arguments they take and the type of their answers; a [prog] is a
    computation that awaits calls and continues with their answers, or
    writes a line to the console and goes on; [exec] runs a [prog] against
    any [Platform] and returns the outcome of the function's promise, the
    final state of the platform and the trace of what was done.  An awaited
    call that fails rejects the function's promise with the same error,
    since nothing in the source catches it.  The file ends with the
    interface of a platform built on top of another ([Layer]), which the
    process of [Sdk] and the check of [Limits] implement. *)

From S2P Require Import Prelude JsValue Firestore Messaging.

(** * Calls, events and outcomes *)

(** The reason of a rejected promise: the code of the error. *)
Definition error : Type := string.

(** The calls the function awaits, indexed by the type of their answer. *)
Variant call : Type → Type :=
| FirestoreGet (q : Query) : call QuerySnapshot
| SendMulticast (message : MulticastMessage) : call BatchResponse.

(** What a run did: a call with the answer it got, or a line logged. *)
Variant event : Type :=
| EvGet (q : Query) (r : result error QuerySnapshot)
| EvSend (message : MulticastMessage) (r : result error BatchResponse)
| EvLog (line : string).

#[export] Instance event_eq_dec : EqDecision event.
Proof. solve_decision. Defined.

(** How the promise of an async function settles. *)
Variant outcome (A : Type) : Type :=
| Resolved (a : A)
| Rejected (e : error).
Arguments Resolved {A} a.
Arguments Rejected {A} e.

#[export] Instance outcome_eq_dec `{EqDecision A} : EqDecision (outcome A).
Proof. solve_decision. Defined.

(** * Programs *)

(** [Await c k] suspends until the platform answers [c] and continues
    with [k]; [Log line k] writes to the console at once. *)
Inductive prog (A : Type) : Type :=
| Return (a : A)
| Await {X : Type} (c : call X) (k : X → prog A)
| Log (line : string) (k : prog A).
Arguments Return {A} a.
Arguments Await {A X} c k.
Arguments Log {A} line k.

Fixpoint bind {A B : Type} (p : prog A) (f : A → prog B) : prog B :=
  match p with
  | Return a => f a
  | Await c k => Await c (λ x, bind (k x) f)
  | Log line k => Log line (bind k f)
  end.

(** [await c]: suspend on [c] and return its answer. *)
Definition await {X : Type} (c : call X) : prog X := Await c Return.

(** [console.log(line)] *)
Definition console_log (line : string) : prog unit := Log line (Return tt).

(** [const x ← await c; k], as the source writes [const x = await c;]. *)
Declare Scope prog_scope.
Delimit Scope prog_scope with prog.
Bind Scope prog_scope with prog.
Notation "'const' x '←' 'await' c ; k" := (bind (await c) (λ x, k))
  (at level 10, x name, c at level 100, k at level 200) : prog_scope.

(** An invocation in progress: suspended at an awaited call, or settled. *)
Inductive task (A : Type) : Type :=
| Suspended {X : Type} (c : call X) (k : X → prog A)
| Settled (o : outcome A).
Arguments Suspended {A X} c k.
Arguments Settled {A} o.

(** * Platforms *)

(** A platform answers the calls.  [W] is its state: the database, the
    push service, the console. *)
Class Platform (W : Type) : Type := {
  firestoreGet : Query → W → result error QuerySnapshot * W;
  sendMulticast : MulticastMessage → W → result error BatchResponse * W;
  consoleLog : string → W → W
}.

Section exec.
Context `{Platform W}.

Definition perform {X : Type} (c : call X) (w : W) : result error X * W :=
  match c in call X return result error X * W with
  | FirestoreGet q => firestoreGet q w
  | SendMulticast message => sendMulticast message w
  end.

Definition observed {X : Type} (c : call X) : result error X → event :=
  match c in call X return result error X → event with
  | FirestoreGet q => EvGet q
  | SendMulticast message => EvSend message
  end.

(** Run a program to the end.  The first failing call rejects. *)
Fixpoint exec {A : Type} (p : prog A) (w : W) : outcome A * W * list event :=
  match p with
  | Return a => (Resolved a, w, [])
  | Await c k =>
      let '(r, w') := perform c w in
      match r with
      | Ok x => let '(o, w'', t) := exec (k x) w' in (o, w'', observed c r :: t)
      | Err e => (Rejected e, w', [observed c r])
      end
  | Log line k =>
      let '(o, w', t) := exec k (consoleLog line w) in (o, w', EvLog line :: t)
  end.

(** ** Suspension and resumption *)

(** Run a program up to its next suspension: the synchronous part. *)
Fixpoint advance {A : Type} (p : prog A) (w : W) : task A * W * list event :=
  match p with
  | Return a => (Settled (Resolved a), w, [])
  | Await c k => (Suspended c k, w, [])
  | Log line k =>
      let '(t, w', ev) := advance k (consoleLog line w) in
      (t, w', EvLog line :: ev)
  end.

(** The platform answers the call a task is suspended on; the task runs on
    to its next suspension, or settles. *)
Definition resume {A : Type} (t : task A) (w : W) : task A * W * list event :=
  match t with
  | Suspended c k =>
      let '(r, w') := perform c w in
      match r with
      | Ok x =>
          let '(t', w'', ev) := advance (k x) w' in (t', w'', observed c r :: ev)
      | Err e => (Settled (Rejected e), w', [observed c r])
      end
  | Settled o => (t, w, [])
  end.

(** [n] resumptions in a row, nothing happening in between. *)
Fixpoint resumes {A : Type} (n : nat) (t : task A) (w : W)
  : task A * W * list event :=
  match n with
  | 0 => (t, w, [])
  | S n' =>
      let '(t', w', ev) := resume t w in
      let '(t'', w'', ev') := resumes n' t' w' in
      (t'', w'', ev ++ ev')
  end.

Definition run {A : Type} (n : nat) (p : prog A) (w : W)
  : task A * W * list event :=
  let '(t, w', ev) := advance p w in
  let '(t', w'', ev') := resumes n t w' in
  (t', w'', ev ++ ev').

(** Continue with [f] after a run, when it resolved. *)
Definition and_then {A B : Type} (r : outcome A * W * list event)
    (f : A → W → outcome B * W * list event) : outcome B * W * list event :=
  match r with
  | (Resolved a, w', t) => let '(o, w'', t') := f a w' in (o, w'', t ++ t')
  | (Rejected e, w', t) => (Rejected e, w', t)
  end.

End exec.

(** * What a program does on every platform *)

(** [always p Q]: whatever the platform answers, the trace and the outcome
    of [p] satisfy [Q]. *)
Fixpoint always {A : Type} (p : prog A)
    (Q : list event → outcome A → Prop) : Prop :=
  match p with
  | Return a => Q [] (Resolved a)
  | Await c k =>
      (∀ e, Q [observed c (Err e)] (Rejected e)) ∧
      (∀ x, always (k x) (λ t o, Q (observed c (Ok x) :: t) o))
  | Log line k => always k (λ t o, Q (EvLog line :: t) o)
  end.

(** The same for a task, given the trace [t0] it has made so far. *)
Definition always_task {A : Type} (t0 : list event) (t : task A)
    (Q : list event → outcome A → Prop) : Prop :=
  match t with
  | Suspended c k => always (Await c k) (λ t o, Q (t0 ++ t) o)
  | Settled o => Q t0 o
  end.

(** [within n p]: on every path, [p] awaits at most [n] calls. *)
Fixpoint within {A : Type} (n : nat) (p : prog A) : Prop :=
  match p with
  | Return _ => True
  | Await c k =>
      match n with
      | 0 => False
      | S n' => ∀ x, within n' (k x)
      end
  | Log _ k => within n k
  end.

Definition within_task {A : Type} (n : nat) (t : task A) : Prop :=
  match t with
  | Suspended c k => within n (Await c k)
  | Settled _ => True
  end.

(** * A scripted platform *)

(** The platform of a test: fixed answers to the two awaited calls, and a
    console that keeps the lines logged. *)
Record script : Type := Script {
  answer_get : Query → result error QuerySnapshot;
  answer_send : MulticastMessage → result error BatchResponse;
  console : list string
}.

#[export] Instance script_platform : Platform script := {|
  firestoreGet q w := (answer_get w q, w);
  sendMulticast message w := (answer_send w message, w);
  consoleLog line w :=
    {| answer_get := answer_get w; answer_send := answer_send w;
       console := console w ++ [line] |}
|}.

(** The error of a call that failed. *)
Definition failure_of (e : event) : option error :=
  match e with
  | EvGet _ (Err x) | EvSend _ (Err x) => Some x
  | _ => None
  end.

(** The calls of a trace, by kind. *)
Definition is_get (e : event) : bool :=
  match e with EvGet _ _ => true | _ => false end.
Definition is_send (e : event) : bool :=
  match e with EvSend _ _ => true | _ => false end.
Definition is_log (e : event) : bool :=
  match e with EvLog _ => true | _ => false end.

Definition sent (t : list event) : list MulticastMessage :=
  omap (λ e, match e with EvSend m _ => Some m | _ => None end) t.
Definition queried (t : list event) : list Query :=
  omap (λ e, match e with EvGet q _ => Some q | _ => None end) t.
Definition logged (t : list event) : list string :=
  omap (λ e, match e with EvLog line => Some line | _ => None end) t.

(** The messages the push service accepted. *)
Definition accepted (t : list event) : list MulticastMessage :=
  omap (λ e, match e with EvSend m (Ok _) => Some m | _ => None end) t.

(** * Facts *)

Lemma bind_Return_l {A B} (a : A) (f : A → prog B) : bind (Return a) f = f a.
Proof. done. Qed.

(** The two laws below compare continuations, which are functions: they
    are stated up to the runs of the programs rather than as equalities of
    programs. *)
Lemma exec_bind `{Platform W} {A B} (p : prog A) (f : A → prog B) (w : W) :
  exec (bind p f) w = and_then (exec p w) (λ a w', exec (f a) w').
Proof.
  revert w. induction p as [a|X c k IH|line k IH]; intros w; simpl.
  - by destruct (exec (f a) w) as [[] ?].
  - destruct (perform c w) as [[x|e] w']; [|done].
    rewrite IH. unfold and_then.
    destruct (exec (k x) w') as [[[a|e] w''] t]; [|done].
    by destruct (exec (f a) w'') as [[] ?].
  - rewrite IH. unfold and_then.
    destruct (exec k (consoleLog line w)) as [[[a|e] w''] t]; [|done].
    by destruct (exec (f a) w'') as [[] ?].
Qed.

Lemma exec_bind_Return_r `{Platform W} {A} (p : prog A) (w : W) :
  exec (bind p Return) w = exec p w.
Proof.
  rewrite exec_bind. unfold and_then.
  destruct (exec p w) as [[[a|e] w'] t]; simpl; [|done].
  by rewrite app_nil_r.
Qed.

Lemma exec_bind_assoc `{Platform W} {A B C}
    (p : prog A) (f : A → prog B) (g : B → prog C) (w : W) :
  exec (bind (bind p f) g) w = exec (bind p (λ a, bind (f a) g)) w.
Proof.
  rewrite !exec_bind. unfold and_then.
  destruct (exec p w) as [[[a|e] w'] t]; [|done].
  rewrite exec_bind. unfold and_then.
  destruct (exec (f a) w') as [[[b|e] w''] t']; [|done].
  destruct (exec (g b) w'') as [[o w3] t3]. by rewrite app_assoc.
Qed.

Section exec_facts.
Context `{Platform W}.

Lemma exec_await {X} (c : call X) (w : W) :
  exec (await c) w =
    match perform c w with
    | (Ok x, w') => (Resolved x, w', [observed c (Ok x)])
    | (Err e, w') => (Rejected e, w', [observed c (Err e)])
    end.
Proof. simpl. by destruct (perform c w) as [[] ?]. Qed.

(** A rejected run ends with the failed call: the error is the answer of
    the last event of the trace. *)
Lemma exec_console_log (line : string) (w : W) :
  exec (console_log line) w = (Resolved tt, consoleLog line w, [EvLog line]).
Proof. done. Qed.

Lemma exec_rejected_last {A} (p : prog A) (w w' : W) e t :
  exec p w = (Rejected e, w', t) → failure_of <$> last t = Some (Some e).
Proof.
  revert w t. induction p as [a|X c k IH|line k IH]; intros w t; simpl; [done|..].
  - destruct (perform c w) as [[x|e'] w1] eqn:E.
    + destruct (exec (k x) w1) as [[o w2] t'] eqn:E'. intros [= -> -> <-].
      apply IH in E'. destruct t' as [|ev t']; [done|].
      by rewrite last_cons_cons.
    + intros [= -> -> <-]. by destruct c.
  - destruct (exec k (consoleLog line w)) as [[o w2] t'] eqn:E'.
    intros [= -> -> <-]. apply IH in E'. destruct t' as [|ev t']; [done|].
    by rewrite last_cons_cons.
Qed.

(** Every event of a run but the last is a call that succeeded. *)
Lemma exec_prefix_ok {A} (p : prog A) (w w' : W) o t ev t' :
  exec p w = (o, w', t ++ ev :: t') → t' ≠ [] → failure_of ev = None.
Proof.
  revert w t. induction p as [a|X c k IH|line k IH]; intros w t; simpl.
  - intros [= _ _ Ht]. by destruct t.
  - destruct (perform c w) as [[x|e'] w1] eqn:E.
    + destruct (exec (k x) w1) as [[o' w2] t1] eqn:E'. intros [= -> -> Ht] Hne.
      destruct t as [|ev0 t]; simplify_eq/=; [by destruct c|]. eauto.
    + intros [= _ _ Ht] Hne. destruct t as [|? [|? ?]]; by simplify_eq/=.
  - destruct (exec k (consoleLog line w)) as [[o' w2] t1] eqn:E'.
    intros [= -> -> Ht] Hne. destruct t as [|ev0 t]; simplify_eq/=; eauto.
Qed.

End exec_facts.

(** ** Small steps and the whole run *)

Section small_steps.
Context `{Platform W}.

Lemma resume_Settled {A} (o : outcome A) (w : W) :
  resume (Settled o) w = (Settled o, w, []).
Proof. done. Qed.

Lemma resumes_Settled {A} (n : nat) (o : outcome A) (w : W) :
  resumes n (Settled o) w = (Settled o, w, []).
Proof. induction n as [|n IH]; simpl; [done|]. by rewrite IH. Qed.

(** The awaited calls of a trace. *)
Definition awaited (t : list event) : nat :=
  length (List.filter (λ e, negb (is_log e)) t).

(** Resuming a program as often as its run awaits calls, with nothing
    happening in between, is the run: same outcome, same final state, same
    trace.  More resumptions change nothing. *)
Lemma run_exec {A} (p : prog A) (w : W) (n : nat) :
  awaited (exec p w).2 ≤ n →
  run n p w = (Settled (exec p w).1.1, (exec p w).1.2, (exec p w).2).
Proof.
  unfold run. revert w n.
  induction p as [a|X c k IH|line k IH]; intros w n Hn; simpl in *.
  - by rewrite resumes_Settled.
  - destruct (perform c w) as [[x|e] w1] eqn:E.
    + destruct (exec (k x) w1) as [[o w2] t] eqn:E'.
      assert (awaited t < n) as Hlt.
      { revert Hn. unfold awaited. by destruct c; simpl; lia. }
      destruct n as [|n]; [lia|]. simpl. rewrite E.
      specialize (IH x w1 n). rewrite E' in IH. simpl in IH.
      destruct (advance (k x) w1) as [[t1 w1'] ev1].
      destruct (resumes n t1 w1') as [[t2 w2'] ev2].
      specialize (IH ltac:(lia)). by simplify_eq.
    + destruct n as [|n]; [unfold awaited in Hn; destruct c; simpl in Hn; lia|].
      simpl. rewrite E. by rewrite resumes_Settled.
  - destruct (exec k (consoleLog line w)) as [[o w2] t] eqn:E'.
    specialize (IH (consoleLog line w) n). rewrite E' in IH. simpl in IH.
    destruct (advance k (consoleLog line w)) as [[t1 w1'] ev1].
    destruct (resumes n t1 w1') as [[t2 w2'] ev2].
    specialize (IH Hn). by simplify_eq.
Qed.

Lemma run_parts {A} (n : nat) (p : prog A) (w : W) :
  let a := advance p w in
  let r := resumes n a.1.1 a.1.2 in
  run n p w = (r.1.1, r.1.2, a.2 ++ r.2).
Proof.
  unfold run. destruct (advance p w) as [[t w'] ev]. simpl.
  by destruct (resumes n t w') as [[t' w''] ev'].
Qed.

(** The trace of a run counts the calls the program awaited. *)
Lemma awaited_app (t1 t2 : list event) :
  awaited (t1 ++ t2) = awaited t1 + awaited t2.
Proof. unfold awaited. by rewrite List.filter_app, length_app. Qed.

Lemma awaited_observed {X} (c : call X) (r : result error X) (t : list event) :
  awaited (observed c r :: t) = S (awaited t).
Proof. by destruct c. Qed.

Lemma within_awaited {A} (n : nat) (p : prog A) (w : W) :
  within n p → awaited (exec p w).2 ≤ n.
Proof.
  revert n w. induction p as [a|X c k IH|line k IH]; intros n w;
    cbn [exec within].
  - intros _. cbn. lia.
  - destruct n as [|n]; [done|]. intros Hk.
    destruct (perform c w) as [[x|e] w1]; cbn [snd];
      [|rewrite awaited_observed; cbn; lia].
    specialize (IH x n w1 (Hk x)). destruct (exec (k x) w1) as [[o w2] t].
    cbn [snd] in *. rewrite awaited_observed. lia.
  - intros Hk. specialize (IH n (consoleLog line w) Hk).
    by destruct (exec k (consoleLog line w)) as [[o w2] t].
Qed.

(** A program that awaits at most [n] calls has settled after [n]
    resumptions, and its suspensions compose to its run. *)
Lemma run_within {A} (n : nat) (p : prog A) (w : W) :
  within n p →
  run n p w = (Settled (exec p w).1.1, (exec p w).1.2, (exec p w).2).
Proof. intros Hp. by apply run_exec, within_awaited. Qed.

Lemma always_mono {A} (p : prog A) (Q Q' : list event → outcome A → Prop) :
  (∀ t o, Q t o → Q' t o) → always p Q → always p Q'.
Proof.
  revert Q Q'. induction p as [a|X c k IH|line k IH]; intros Q Q' HQ; simpl.
  - apply HQ.
  - intros [He Hx]. split; [by auto|]. intros x. eapply IH; [|apply Hx]. auto.
  - apply IH. auto.
Qed.

(** [always] speaks of every platform. *)
Lemma always_exec {A} (p : prog A) Q (w : W) :
  always p Q → Q (exec p w).2 (exec p w).1.1.
Proof.
  revert Q w. induction p as [a|X c k IH|line k IH]; intros Q w; simpl.
  - done.
  - intros [He Hx]. destruct (perform c w) as [[x|e] w1]; [|apply He].
    specialize (IH x _ w1 (Hx x)). by destruct (exec (k x) w1) as [[o w2] t].
  - intros Hk. specialize (IH _ (consoleLog line w) Hk).
    by destruct (exec k (consoleLog line w)) as [[o w2] t].
Qed.

(** [always] is kept by the synchronous part of a program... *)
Lemma always_advance {A} (p : prog A) Q (t0 : list event) (w : W) :
  always p (λ t o, Q (t0 ++ t) o) →
  always_task (t0 ++ (advance p w).2) (advance p w).1.1 Q.
Proof.
  revert Q t0 w. induction p as [a|X c k IH|line k IH]; intros Q t0 w; simpl.
  - by rewrite app_nil_r.
  - intros [He Hx]. rewrite app_nil_r. by split.
  - intros Hk. specialize (IH Q (t0 ++ [EvLog line]) (consoleLog line w)).
    destruct (advance k (consoleLog line w)) as [[t1 w1] ev1]. simpl in *.
    rewrite cons_middle, (assoc_L (++)). apply IH.
    eapply always_mono; [|exact Hk]. intros t o. by rewrite <-(assoc_L (++)).
Qed.

(** ... and by every resumption, whatever the state of the platform at
    that moment. *)
Lemma always_resume {A} (t : task A) Q (t0 : list event) (w : W) :
  always_task t0 t Q →
  always_task (t0 ++ (resume t w).2) (resume t w).1.1 Q.
Proof.
  destruct t as [X c k|o]; simpl; [|by rewrite app_nil_r].
  intros [He Hx]. destruct (perform c w) as [[x|e] w1]; [|apply He].
  pose proof (always_advance (k x) Q (t0 ++ [observed c (Ok x)]) w1) as Hadv.
  destruct (advance (k x) w1) as [[t1 w1'] ev1]. simpl in *.
  rewrite cons_middle, (assoc_L (++)). apply Hadv.
  eapply always_mono; [|apply Hx]. intros t o. by rewrite <-(assoc_L (++)).
Qed.

(** What a task did so far is the beginning of a run with [Q]. *)
Lemma always_task_extends {A} (t0 : list event) (t : task A) Q :
  always_task t0 t Q → ∃ t' o, Q (t0 ++ t') o.
Proof.
  destruct t as [X c k|o]; simpl.
  - intros [He _]. do 2 eexists. apply (He EmptyString).
  - intros HQ. exists [], o. by rewrite app_nil_r.
Qed.

Lemma within_advance {A} (n : nat) (p : prog A) (w : W) :
  within n p → within_task n (advance p w).1.1.
Proof.
  revert w. induction p as [a|X c k IH|line k IH]; intros w; simpl; [done..|].
  intros Hk. specialize (IH (consoleLog line w) Hk).
  by destruct (advance k (consoleLog line w)) as [[t1 w1] ev1].
Qed.

(** A task that awaits at most [S n] calls awaits at most [n] after a
    resumption. *)
Lemma within_resume {A} (n : nat) (t : task A) (w : W) :
  within_task (S n) t → within_task n (resume t w).1.1.
Proof.
  destruct t as [X c k|o]; simpl; [|done].
  intros Hk. destruct (perform c w) as [[x|e] w1]; [|done].
  pose proof (within_advance n (k x) w1 (Hk x)).
  by destruct (advance (k x) w1) as [[t1 w1'] ev1].
Qed.

Lemma within_0_Settled {A} (t : task A) :
  within_task 0 t → ∃ o, t = Settled o.
Proof. destruct t; simpl; [done|eauto]. Qed.

(** The synchronous part of a program asks the platform nothing: where it
    stops and what it logs do not depend on the state of the platform. *)
Lemma advance_indep {A} (p : prog A) (w1 w2 : W) :
  (advance p w1).1.1 = (advance p w2).1.1 ∧ (advance p w1).2 = (advance p w2).2.
Proof.
  revert w1 w2. induction p as [a|X c k IH|line k IH]; intros w1 w2; [done..|].
  simpl. specialize (IH (consoleLog line w1) (consoleLog line w2)).
  destruct (advance k (consoleLog line w1)) as [[t1 w1'] ev1].
  destruct (advance k (consoleLog line w2)) as [[t2 w2'] ev2].
  simpl in *. destruct IH. by subst.
Qed.

Lemma advance_logs {A} (p : prog A) (w : W) :
  Forall (λ e, is_log e = true) (advance p w).2.
Proof.
  revert w. induction p as [a|X c k IH|line k IH]; intros w; simpl;
    [by constructor..|].
  specialize (IH (consoleLog line w)).
  destruct (advance k (consoleLog line w)) as [[t1 w1] ev1]. by constructor.
Qed.

(** The only call a resumption records is the call the task was suspended
    at; what follows it is the synchronous part of the continuation. *)
Lemma resume_get {A} (t : task A) (w : W) q r :
  EvGet q r ∈ (resume t w).2 → ∃ k, t = Suspended (FirestoreGet q) k.
Proof.
  destruct t as [X c k|o]; simpl; [|by intros ?%elem_of_nil].
  destruct (perform c w) as [[x|e] w1]; simpl.
  - pose proof (advance_logs (k x) w1) as Hlogs.
    destruct (advance (k x) w1) as [[t1 w2] ev]. simpl in *.
    intros [Hhd|Htl]%elem_of_cons.
    + destruct c; simplify_eq/=. eauto.
    + by eapply Forall_forall in Hlogs; [|exact Htl].
  - intros Hin%list_elem_of_singleton. destruct c; simplify_eq/=. eauto.
Qed.

(** A resumption answers one call. *)
Lemma awaited_logs (t : list event) :
  Forall (λ e, is_log e = true) t → awaited t = 0.
Proof. induction 1 as [|[| |] t He _ IH]; by simplify_eq/=. Qed.

Lemma awaited_resume {A X} (c : call X) (k : X → prog A) (w : W) :
  awaited (resume (Suspended c k) w).2 = 1.
Proof.
  simpl. destruct (perform c w) as [[x|e] w1]; simpl;
    [|by rewrite awaited_observed].
  pose proof (advance_logs (k x) w1) as Hlogs%awaited_logs.
  destruct (advance (k x) w1) as [[t1 w2] ev]. simpl in *.
  by rewrite awaited_observed, Hlogs.
Qed.

End small_steps.

(** * Layers

    A platform on top of another: its state holds a state of the platform
    beneath, its console is the console beneath, and it passes a call on
    to the platform beneath when the call passes a test of its own.  What
    it does with a call that fails the test is up to the layer. *)
Class Layer (L W : Type) `{Platform L, Platform W} : Type := {
  beneath : L → W;
  rebase : W → L → L;
  passes : L → ∀ X, call X → bool;
  rebase_beneath l : rebase (beneath l) l = l;
  beneath_rebase w l : beneath (rebase w l) = w;
  rebase_rebase w w' l : rebase w (rebase w' l) = rebase w l;
  passes_rebase w l X (c : call X) : passes (rebase w l) X c = passes l X c;
  perform_passes l X (c : call X) :
    passes l X c = true →
    perform c l = ((perform c (beneath l)).1,
                   rebase (perform c (beneath l)).2 l);
  consoleLog_rebase line l :
    consoleLog line l = rebase (consoleLog line (beneath l)) l
}.
Arguments passes {L W _ _ _} l {X} c.

Section layers.
Context `{Layer L W}.

(** The calls of a trace pass the test of the layer. *)
Definition passed (l : L) (t : list event) : Prop :=
  Forall (λ e, match e with
               | EvGet q _ => passes l (FirestoreGet q) = true
               | EvSend m _ => passes l (SendMulticast m) = true
               | EvLog _ => True
               end) t.

Lemma passed_cons {X} (c : call X) r (l : L) (t : list event) :
  passed l (observed c r :: t) ↔ passes l c = true ∧ passed l t.
Proof. unfold passed. rewrite Forall_cons. by destruct c. Qed.

Lemma passed_all (l : L) (t : list event) :
  (∀ X (c : call X), passes l c = true) → passed l t.
Proof. intros Hl. apply Forall_forall. by intros [| |] _. Qed.

Lemma passed_rebase (w : W) (l : L) (t : list event) :
  passed (rebase w l) t ↔ passed l t.
Proof.
  unfold passed. apply Forall_proper; [|done].
  intros [| |]; by rewrite ?passes_rebase.
Qed.

(** A run whose calls pass the test of the layer is the run on the
    platform beneath: the same outcome, the same calls, and the state
    beneath is the state the run beneath ends in. *)
Lemma exec_layer {A} (pr : prog A) (l : L) :
  passed l (exec pr (beneath l)).2 →
  exec pr l = ((exec pr (beneath l)).1.1,
               rebase (exec pr (beneath l)).1.2 l,
               (exec pr (beneath l)).2).
Proof.
  revert l. induction pr as [a|X c k IH|line k IH]; intros l; cbn [exec].
  - intros _. cbn [fst snd]. by rewrite rebase_beneath.
  - destruct (perform c (beneath l)) as [[x|e] w1] eqn:E.
    + specialize (IH x (rebase w1 l)). rewrite beneath_rebase in IH.
      destruct (exec (k x) w1) as [[o w2] t]. cbn [fst snd] in *.
      intros [Hc Ht]%passed_cons. rewrite (perform_passes l X c Hc), E.
      cbn [fst snd]. rewrite IH by (by apply passed_rebase).
      by rewrite rebase_rebase.
    + intros [Hc _]%passed_cons. by rewrite (perform_passes l X c Hc), E.
  - specialize (IH (rebase (consoleLog line (beneath l)) l)).
    rewrite beneath_rebase in IH. rewrite (consoleLog_rebase line l).
    destruct (exec k (consoleLog line (beneath l))) as [[o w2] t].
    cbn [fst snd] in *. intros Ht%Forall_cons_1. destruct Ht as [_ Ht].
    rewrite IH by (by apply passed_rebase). by rewrite rebase_rebase.
Qed.

End layers.

(** Layers stack: a layer on a layer on [W] is a layer on [W], and a call
    passes when it passes both tests. *)
Section stacked_layers.
Context {L M W : Type} `{Platform L, Platform M, Platform W}.
Context (upper : Layer L M) (lower : Layer M W).

Lemma stacked_rebase_rebase (w w' : W) (l : L) :
  rebase (rebase w (beneath (rebase (rebase w' (beneath l)) l)))
         (rebase (rebase w' (beneath l)) l)
  = rebase (rebase w (beneath l)) l.
Proof. by rewrite beneath_rebase, !rebase_rebase. Qed.

Lemma stacked_passes_rebase (w : W) (l : L) X (c : call X) :
  passes (rebase (rebase w (beneath l)) l) c
  && passes (beneath (rebase (rebase w (beneath l)) l)) c
  = passes l c && passes (beneath l) c.
Proof. by rewrite beneath_rebase, !passes_rebase. Qed.

Lemma stacked_perform_passes (l : L) X (c : call X) :
  passes l c && passes (beneath l) c = true →
  perform c l
  = ((perform c (beneath (beneath l))).1,
     rebase (rebase (perform c (beneath (beneath l))).2 (beneath l)) l).
Proof.
  intros [Hu Hl]%andb_true_iff.
  by rewrite (perform_passes l X c Hu), (perform_passes (beneath l) X c Hl).
Qed.

Lemma stacked_consoleLog (line : string) (l : L) :
  consoleLog line l
  = rebase (rebase (consoleLog line (beneath (beneath l))) (beneath l)) l.
Proof.
  by rewrite (consoleLog_rebase line l), (consoleLog_rebase line (beneath l)).
Qed.

Definition stacked : Layer L W := {|
  beneath l := beneath (beneath l);
  rebase w l := rebase (rebase w (beneath l)) l;
  passes l X c := passes l c && passes (beneath l) c;
  rebase_beneath l :=
    eq_trans (f_equal (λ m, rebase m l) (rebase_beneath (beneath l)))
             (rebase_beneath l);
  beneath_rebase w l :=
    eq_trans (f_equal beneath (beneath_rebase (rebase w (beneath l)) l))
             (beneath_rebase w (beneath l));
  rebase_rebase := stacked_rebase_rebase;
  passes_rebase := stacked_passes_rebase;
  perform_passes := stacked_perform_passes;
  consoleLog_rebase := stacked_consoleLog
|}.

End stacked_layers.

Lemma script_exec_answers {A} (p : prog A) (w w' : script) o t :
  exec p w = (o, w', t) →
  answer_get w' = answer_get w ∧ answer_send w' = answer_send w ∧
  console w' = console w ++ logged t.
Proof.
  revert w t. induction p as [a|X c k IH|line k IH]; intros w t; simpl.
  - intros [= _ <- <-]. by rewrite app_nil_r.
  - destruct (perform c w) as [[x|e] w1] eqn:E.
    + destruct (exec (k x) w1) as [[o' w2] t1] eqn:E'. intros [= -> -> <-].
      apply IH in E' as (-> & -> & ->). by destruct c; simplify_eq/=.
    + intros [= _ <- <-]. destruct c; simplify_eq/=; by rewrite ?app_nil_r.
  - destruct (exec k _) as [[o' w2] t1] eqn:E'.
    intros [= -> -> <-]. apply IH in E' as (-> & -> & ->).
    simpl. by rewrite <-app_assoc.
Qed.

#[export] Hint Rewrite @exec_bind @exec_await : notifier.

Lemma accepted_app (t1 t2 : list event) :
  accepted (t1 ++ t2) = accepted t1 ++ accepted t2.
Proof. apply omap_app. Qed.

Lemma logged_app (t1 t2 : list event) :
  logged (t1 ++ t2) = logged t1 ++ logged t2.
Proof. apply omap_app. Qed.

Lemma accepted_logs (t : list event) :
  Forall (λ e, is_log e = true) t → accepted t = [].
Proof.
  induction 1 as [|e t He _ IH]; [done|]. by destruct e; simplify_eq/=.
Qed.

Lemma accepted_sent (t : list event) : accepted t ⊆ sent t.
Proof.
  intros m (e & He & Hm)%list_elem_of_omap. apply list_elem_of_omap.
  exists e. split; [done|]. by destruct e as [| ? []|]; simplify_eq/=.
Qed.

Lemma length_accepted_le (t : list event) :
  length (accepted t) ≤ length (sent t).
Proof.
  induction t as [|[| ? []|] t IH]; csimpl; lia.
Qed.
