(* ===== verification/Spec.v ===== *)
(** * What the notifier promises

    The contract of the repository's one component, stated over the calls
    a run makes and the way its promise settles, without reference to the
    program: section 4.1 of the specification ("Trigger contract" and
    "Failure semantics") as the relation [notifies].  [Handler] proves that
    [sendDriverNotification] implements it on every platform. *)

From S2P Require Import Prelude JsValue Firestore Messaging Program.

(** * The vocabulary of the contract *)

(** The fixed texts of the notification. *)
Definition spec_title : string := "🆘 New Ambulance Request".
Definition spec_body : string := "Tap to accept a nearby emergency request".

(** "[query] the Driver collection for all records where
    [isAvailable == true]". *)
Definition drivers_query : Query :=
  {| q_collection := "drivers";
     q_where := [Where "isAvailable" OpEq (VBoolean true)] |}.

(** The token of a driver record, [undefined] when it has none. *)
Definition fcmToken (doc : QueryDocumentSnapshot) : value :=
  getProp (doc_data doc) "fcmToken".

(** "For each record that has a non-empty [fcmToken] field, [append] that
    token": the tokens of the records that have one, in result order,
    duplicates kept. *)
Definition tokensOf (drivers : QuerySnapshot) : list value :=
  List.filter ToBoolean (fcmToken <$> drivers).

(** "A single multicast message with a fixed title and fixed body,
    attaching the full token list". *)
Definition spec_message (toks : list value) : MulticastMessage :=
  {| notification := {| title := spec_title; body := spec_body |};
     tokens := toks |}.

(** "It logs the count of successfully delivered notifications": the line
    mentions that number and no other. *)
Definition reports (line : string) (response : BatchResponse) : Prop :=
  the_number line = Some (successCount response).

(** * The reference token list *)

Lemma tokensOf_cons (d : QueryDocumentSnapshot) (drivers : QuerySnapshot) :
  tokensOf (d :: drivers) =
    if ToBoolean (fcmToken d) then fcmToken d :: tokensOf drivers
    else tokensOf drivers.
Proof. done. Qed.

Lemma tokensOf_app (l1 l2 : QuerySnapshot) :
  tokensOf (l1 ++ l2) = tokensOf l1 ++ tokensOf l2.
Proof. unfold tokensOf. by rewrite fmap_app, List.filter_app. Qed.

Lemma elem_of_tokensOf (drivers : QuerySnapshot) (token : value) :
  token ∈ tokensOf drivers ↔
  ToBoolean token = true ∧ ∃ d, d ∈ drivers ∧ fcmToken d = token.
Proof.
  unfold tokensOf. rewrite list_elem_of_In, filter_In, <-list_elem_of_In.
  rewrite list_elem_of_fmap. naive_solver.
Qed.

Lemma tokensOf_truthy (drivers : QuerySnapshot) :
  Forall (λ token, ToBoolean token = true) (tokensOf drivers).
Proof. apply Forall_forall. by intros token [? _]%elem_of_tokensOf. Qed.

Lemma tokensOf_nil_iff (drivers : QuerySnapshot) :
  tokensOf drivers = [] ↔
  Forall (λ d, ToBoolean (fcmToken d) = false) drivers.
Proof.
  induction drivers as [|d l IH]; [by split|].
  rewrite tokensOf_cons, Forall_cons.
  destruct (ToBoolean (fcmToken d)); [by split; [|intros []]|].
  rewrite IH. naive_solver.
Qed.

Lemma length_tokensOf_le (drivers : QuerySnapshot) :
  length (tokensOf drivers) ≤ length drivers.
Proof.
  unfold tokensOf. etrans; [apply filter_length_le|]. by rewrite length_fmap.
Qed.

(** One token per record that has one. *)
Lemma tokensOf_fmap (drivers : QuerySnapshot) :
  tokensOf drivers
  = fcmToken <$> List.filter (λ d, ToBoolean (fcmToken d)) drivers.
Proof. apply filter_fmap. Qed.

(** * The contract *)

(** [notifies snap t o]: on the creation of [snap], a run that makes the
    calls [t] and settles as [o] is one the contract allows. *)
Inductive notifies (snap : DocumentSnapshot)
  : list event → outcome unit → Prop :=
| notifies_absent :
    snap_fields snap = None →
    notifies snap [] (Resolved tt)
| notifies_query_failed e :
    is_Some (snap_fields snap) →
    notifies snap [EvGet drivers_query (Err e)] (Rejected e)
| notifies_nobody drivers :
    is_Some (snap_fields snap) →
    tokensOf drivers = [] →
    notifies snap [EvGet drivers_query (Ok drivers)] (Resolved tt)
| notifies_send_failed drivers e :
    is_Some (snap_fields snap) →
    tokensOf drivers ≠ [] →
    notifies snap
      [EvGet drivers_query (Ok drivers);
       EvSend (spec_message (tokensOf drivers)) (Err e)]
      (Rejected e)
| notifies_sent drivers response line :
    is_Some (snap_fields snap) →
    tokensOf drivers ≠ [] →
    reports line response →
    notifies snap
      [EvGet drivers_query (Ok drivers);
       EvSend (spec_message (tokensOf drivers)) (Ok response);
       EvLog line]
      (Resolved tt).

#[export] Hint Constructors notifies : notifier.

(** * Consequences of the contract *)

Section consequences.
Context (snap : DocumentSnapshot) (t : list event) (o : outcome unit).
Hypothesis Hrun : notifies snap t o.

(** At most one query, one message and one line per invocation. *)
Lemma notifies_at_most_once :
  length (queried t) ≤ 1 ∧ length (sent t) ≤ 1 ∧ length (logged t) ≤ 1.
Proof using Hrun. destruct Hrun; cbn; lia. Qed.

(** Whatever is sent carries the fixed texts and at least one token. *)
Lemma notifies_sent_message (m : MulticastMessage) :
  m ∈ sent t →
  notification m = {| title := spec_title; body := spec_body |} ∧
  tokens m ≠ [].
Proof using Hrun.
  destruct Hrun; cbn; intros Hm; try by apply elem_of_nil in Hm.
  all: by apply list_elem_of_singleton in Hm as ->.
Qed.

(** Nothing is sent before the drivers were queried, and nothing is
    logged before a message was accepted. *)
Lemma notifies_order :
  (sent t ≠ [] → ∃ drivers t', t = EvGet drivers_query (Ok drivers) :: t') ∧
  (logged t ≠ [] → ∃ m r, EvSend m (Ok r) ∈ t).
Proof using Hrun.
  destruct Hrun; cbn; split; try done; intros _; eauto.
  do 2 eexists. apply elem_of_cons. right. apply elem_of_cons. by left.
Qed.

(** The promise rejects exactly when the last call failed, with its
    error. *)
Lemma notifies_rejected (e : error) :
  o = Rejected e ↔ failure_of <$> last t = Some (Some e).
Proof using Hrun.
  destruct Hrun; cbn; split; intros; by simplify_eq.
Qed.

End consequences.

(** The same of the beginning of a run: whatever was sent so far was sent
    after a query answered, to the tokens of the drivers of that answer. *)
Lemma notifies_prefix_sent snap (t0 t' : list event) o m :
  notifies snap (t0 ++ t') o → m ∈ sent t0 →
  ∃ drivers, EvGet drivers_query (Ok drivers) ∈ t0 ∧
             m = spec_message (tokensOf drivers) ∧ tokensOf drivers ≠ [].
Proof.
  intros Hrun Hm. inv Hrun;
    destruct t0 as [|e0 [|e1 [|e2 [|e3 t0]]]]; simplify_eq/=;
    try (by apply elem_of_nil in Hm);
    apply list_elem_of_singleton in Hm as ->;
    eexists; (split; [by left|done]).
Qed.

Lemma notifies_prefix_at_most_once snap (t0 t' : list event) o :
  notifies snap (t0 ++ t') o → length (sent t0) ≤ 1 ∧ length (logged t0) ≤ 1.
Proof.
  intros Hrun. apply notifies_at_most_once in Hrun as (_ & Hs & Hl).
  unfold sent, logged in *. rewrite omap_app, length_app in Hs.
  rewrite omap_app, length_app in Hl. lia.
Qed.

(** At every moment of a run, a line was logged only for a message that
    was accepted. *)
Lemma notifies_logged_accepted snap (t0 t' : list event) o :
  notifies snap (t0 ++ t') o → length (logged t0) ≤ length (accepted t0).
Proof.
  intros Hrun. inv Hrun;
    destruct t0 as [|e0 [|e1 [|e2 [|e3 t0]]]]; simplify_eq/=; lia.
Qed.

(** A run that rejects had no message accepted. *)
Lemma notifies_rejected_accepted snap (t : list event) (e : error) :
  notifies snap t (Rejected e) → accepted t = [] ∧ is_Some (snap_fields snap).
Proof. intros Hrun. by inv Hrun. Qed.

(** Two runs allowed by the contract that got the same answers from the
    platform made the same calls: the contract leaves the notifier no
    choice but the text of the log line. *)
Definition same_answers (t1 t2 : list event) : Prop :=
  Forall2 (λ e1 e2,
    match e1, e2 with
    | EvGet _ r1, EvGet _ r2 => r1 = r2
    | EvSend _ r1, EvSend _ r2 => r1 = r2
    | EvLog _, EvLog _ => True
    | _, _ => False
    end) t1 t2.

Lemma notifies_deterministic snap t1 t2 o1 o2 :
  notifies snap t1 o1 → notifies snap t2 o2 →
  same_answers t1 t2 →
  o1 = o2 ∧ queried t1 = queried t2 ∧ sent t1 = sent t2.
Proof.
  intros H1 H2 Hs. destruct H1; inv H2; inv Hs;
    repeat match goal with
    | H : Forall2 _ (_ :: _) _ |- _ => inv H
    | H : Forall2 _ [] _ |- _ => inv H
    | H : Forall2 _ _ (_ :: _) |- _ => inv H
    end; by simplify_eq.
Qed.
