(* ===== verification/Trigger.v ===== *)
(** * Firestore triggers

    [functions.firestore.document(pattern).onCreate(handler)] (lines 5-7 of
    [index.js]) registers [handler] for the documents created at a path
    that matches [pattern].  This file holds the registration record, the
    event context handed to the handler, and the platform's side of the
    contract, written from the specification: which changes of the
    database invoke a registered function, and with which arguments. *)

From Stdlib Require Import Ascii.
From S2P Require Import Prelude JsValue Firestore Program.

(** * Paths and patterns *)

(** [split_on sep s]: the pieces of [s] between occurrences of [sep]. *)
Fixpoint split_on (sep : ascii) (s : string) : list string :=
  match s with
  | EmptyString => [EmptyString]
  | String a s' =>
      if decide (a = sep) then EmptyString :: split_on sep s'
      else match split_on sep s' with
           | piece :: rest => String a piece :: rest
           | [] => [String a EmptyString]
           end
  end.

(** The segments of a document path: ["requests/r1"] has two. *)
Definition segments (path : string) : list string := split_on "/"%char path.

(** A segment of a pattern: a literal name, or a wildcard [{name}] that
    matches any one segment and binds it to [name]. *)
Variant segment : Type :=
| Literal (name : string)
| Wildcard (name : string).

#[export] Instance segment_eq_dec : EqDecision segment.
Proof. solve_decision. Defined.

(** The name inside braces, when the segment is [{name}]. *)
Fixpoint strip_closing (s : string) : option string :=
  match s with
  | EmptyString => None
  | String a EmptyString => if decide (a = "}"%char) then Some EmptyString else None
  | String a s' => String a <$> strip_closing s'
  end.

Definition parse_segment (s : string) : segment :=
  match s with
  | String a s' =>
      if decide (a = "{"%char) then
        match strip_closing s' with
        | Some name => Wildcard name
        | None => Literal s
        end
      else Literal s
  | EmptyString => Literal s
  end.

Definition parse_pattern (pattern : string) : list segment :=
  parse_segment <$> segments pattern.

(** The parameters a path binds when it matches a pattern, segment by
    segment; [None] when it does not match. *)
Fixpoint match_segments (pat : list segment) (path : list string)
  : option (list (string * string)) :=
  match pat, path with
  | [], [] => Some []
  | Literal name :: pat', s :: path' =>
      if decide (name = s) then match_segments pat' path' else None
  | Wildcard name :: pat', s :: path' =>
      if decide (s = EmptyString) then None
      else cons (name, s) <$> match_segments pat' path'
  | _, _ => None
  end.

Definition match_path (pattern path : string) : option (list (string * string)) :=
  match_segments (parse_pattern pattern) (segments path).

(** * Registrations *)

(** The kind of change a function is registered for. *)
Variant changeKind : Type := Created | Updated | Deleted.

#[export] Instance changeKind_eq_dec : EqDecision changeKind.
Proof. solve_decision. Defined.

(** The second argument of a handler: the parameters bound by the
    wildcards of the pattern. *)
Record EventContext : Type := Context {
  params : list (string * string)
}.

(** [document(pattern).on<Kind>(handler)], exported under [name]. *)
Record CloudFunction : Type := Function {
  fn_name : string;
  fn_pattern : string;
  fn_kind : changeKind;
  fn_handler : DocumentSnapshot → EventContext → prog unit
}.

(** A change of the database: a document appeared, changed or went. *)
Record change : Type := Change {
  ch_kind : changeKind;
  ch_path : string;
  ch_fields : option object
}.

(** The invocation a change causes, if any: the handler applied to the
    snapshot of the document and the context of the event. *)
Definition dispatch (fn : CloudFunction) (c : change) : option (prog unit) :=
  if decide (ch_kind c = fn_kind fn) then
    ps ← match_path (fn_pattern fn) (ch_path c);
    Some (fn_handler fn
            {| snap_path := ch_path c; snap_fields := ch_fields c |}
            {| params := ps |})
  else None.

(** The invocations a change causes among the exported functions. *)
Definition invocations (fns : list CloudFunction) (c : change)
  : list (prog unit) :=
  omap (λ fn, dispatch fn c) fns.

(** * Facts *)

Lemma split_on_nonempty (sep : ascii) (s : string) : split_on sep s ≠ [].
Proof.
  induction s as [|a s IH]; simpl; [done|].
  case_decide; [done|]. by destruct (split_on sep s).
Qed.

(** Joining the pieces with the separator gives the string back. *)
Fixpoint join_with (sep : ascii) (pieces : list string) : string :=
  match pieces with
  | [] => EmptyString
  | [p] => p
  | p :: rest => p +:+ String sep (join_with sep rest)
  end.

Lemma join_split_on (sep : ascii) (s : string) :
  join_with sep (split_on sep s) = s.
Proof.
  induction s as [|a s IH]; simpl; [done|].
  pose proof (split_on_nonempty sep s) as Hne. case_decide as Ha.
  - subst. destruct (split_on sep s) as [|p rest] eqn:E; [done|].
    change (join_with sep (EmptyString :: p :: rest))
      with (EmptyString +:+ String sep (join_with sep (p :: rest))).
    by rewrite string_app_nil_l, IH.
  - destruct (split_on sep s) as [|p [|q rest]] eqn:E; [done|..].
    + simpl in *. by subst.
    + change (join_with sep (String a p :: q :: rest))
        with (String a p +:+ String sep (join_with sep (q :: rest))).
      rewrite string_app_cons. f_equal. exact IH.
Qed.

(** No piece contains the separator. *)
Fixpoint contains (sep : ascii) (s : string) : bool :=
  match s with
  | EmptyString => false
  | String a s' => bool_decide (a = sep) || contains sep s'
  end.

Lemma split_on_pieces (sep : ascii) (s : string) :
  Forall (λ p, contains sep p = false) (split_on sep s).
Proof.
  induction s as [|a s IH]; simpl; [by repeat constructor|].
  case_decide as Ha; [by constructor|].
  destruct IH as [|p rest Hp Hrest]; constructor; try done;
    simpl; by rewrite bool_decide_eq_false_2.
Qed.

Lemma match_segments_length pat path ps :
  match_segments pat path = Some ps → length pat = length path.
Proof.
  revert path ps. induction pat as [|[name|name] pat IH];
    intros [|s path] ps H; simplify_eq/=; try done.
  - case_decide; [|done]. f_equal. eauto.
  - case_decide; [done|].
    destruct (match_segments pat path) eqn:E; simplify_eq/=. f_equal. eauto.
Qed.

(** A function is invoked only for changes of its kind. *)
Lemma dispatch_kind (fn : CloudFunction) (c : change) p :
  dispatch fn c = Some p → ch_kind c = fn_kind fn.
Proof. unfold dispatch. by case_decide. Qed.

Lemma dispatch_Some (fn : CloudFunction) (c : change) p :
  dispatch fn c = Some p ↔
  ch_kind c = fn_kind fn ∧
  ∃ ps, match_path (fn_pattern fn) (ch_path c) = Some ps ∧
        p = fn_handler fn
              {| snap_path := ch_path c; snap_fields := ch_fields c |}
              {| params := ps |}.
Proof.
  unfold dispatch. case_decide as Hk; [|naive_solver].
  destruct (match_path _ _) as [ps|]; simpl; naive_solver.
Qed.

Lemma split_on_no_sep (sep : ascii) (s : string) :
  contains sep s = false → split_on sep s = [s].
Proof.
  induction s as [|a s IH]; simpl; [done|].
  intros [Ha Hs]%orb_false_elim. apply bool_decide_eq_false in Ha.
  by rewrite decide_False, IH.
Qed.

Lemma split_on_app_sep (sep : ascii) (p s : string) :
  contains sep p = false →
  split_on sep (p +:+ String sep s) = p :: split_on sep s.
Proof.
  induction p as [|a p IH]; intros Hp.
  - rewrite string_app_nil_l. simpl. by rewrite decide_True.
  - simpl in Hp. apply orb_false_elim in Hp as [Ha Hp].
    apply bool_decide_eq_false in Ha.
    rewrite string_app_cons. simpl. by rewrite decide_False, IH.
Qed.

(** A path matches a two-segment pattern [name/{x}] exactly when it is
    [name/id] for a non-empty [id] without separator; [x] is bound to
    [id]. *)
Lemma match_literal_wildcard (name x path : string) ps :
  match_segments [Literal name; Wildcard x] (segments path) = Some ps ↔
  ∃ id, path = name +:+ String "/" id ∧ id ≠ EmptyString ∧
        contains "/" id = false ∧ contains "/" name = false ∧ ps = [(x, id)].
Proof.
  unfold segments. split.
  - pose proof (join_split_on "/" path) as Hjoin.
    pose proof (split_on_pieces "/" path) as Hpieces.
    destruct (split_on "/" path) as [|s1 [|s2 [|s3 rest]]]; simpl; try done.
    + by case_decide.
    + case_decide as Hname; [|done]. case_decide as Hid; [done|].
      intros [= <-]. apply Forall_cons in Hpieces as [H1 [H2 _]%Forall_cons].
      exists s2. by subst.
    + case_decide; [|done]. by case_decide.
  - intros (id & -> & Hid & Hsep & Hname & ->).
    rewrite split_on_app_sep, split_on_no_sep by done. simpl.
    by rewrite decide_True, decide_False.
Qed.

(** The path of a document directly inside a collection. *)
Lemma segments_document (coll id : string) :
  contains "/"%char coll = false → contains "/"%char id = false →
  segments (coll +:+ String "/"%char id) = [coll; id].
Proof.
  intros Hcoll Hid. unfold segments.
  by rewrite (split_on_app_sep "/" coll id Hcoll), split_on_no_sep.
Qed.
