(* ===== verification/Handler.v ===== *)
(** * The notification function

    [exports.sendDriverNotification] of [src/functions/index.js], line by
    line: the query of lines 11-13, the token loop of lines 16-21, the
    message of lines 25-31, the log line of line 34, the handler body of
    lines 7-35 and its registration (lines 5-7).  The theorems state what
    a run of the handler does on every platform, branch by branch, and
    that it implements the contract of [Spec]. *)

From Stdlib Require Import Ascii.
From S2P Require Import Prelude JsValue Firestore Messaging Program Spec Trigger.

Local Open Scope prog_scope.

(** * The source *)

(** Lines 11-13:
    [admin.firestore().collection("drivers").where("isAvailable", "==", true)] *)
Definition driversQuery : Query :=
  where_ (collection "drivers") "isAvailable" OpEq (VBoolean true).

(** Lines 18-21, the callback of [forEach]:
    [doc => { const data = doc.data();
              if (data.fcmToken) tokens.push(data.fcmToken); }].
    [tokens] is the array the closure mutates. *)
Definition collect (doc : QueryDocumentSnapshot) (tokens : list value)
  : list value :=
  let data := doc_data doc in
  if ToBoolean (getProp data "fcmToken")
  then push tokens (getProp data "fcmToken")
  else tokens.

(** Lines 16-21: [const tokens = []; driverSnapshot.forEach(...)], the
    array after the loop. *)
Definition driverTokens (driverSnapshot : QuerySnapshot) : list value :=
  forEach driverSnapshot collect [].

(** Lines 25-31: [const message = { notification: {...}, tokens: tokens }]. *)
Definition message (tokens : list value) : MulticastMessage :=
  {| notification :=
       {| title := "🆘 New Ambulance Request";
          body := "Tap to accept a nearby emergency request" |};
     tokens := tokens |}.

(** Line 34: the template literal
    [`✅ Sent to ${response.successCount} drivers.`]. *)
Definition logLine (response : BatchResponse) : string :=
  "✅ Sent to " +:+ ToString (successCount response) +:+ " drivers.".

(** Lines 7-35: the async handler.  [context] is received and not used. *)
Definition sendDriverNotification
    (snap : DocumentSnapshot) (context : EventContext) : prog unit :=
  let requestData := data snap in
  if negb (ToBoolean requestData) then Return tt else
  const driverSnapshot ← await FirestoreGet driversQuery;
  let tokens := driverTokens driverSnapshot in
  if length tokens =? 0 then Return tt else
  let message := message tokens in
  const response ← await SendMulticast message;
  console_log (logLine response).

(** Lines 5-7: [exports.sendDriverNotification =
    functions.firestore.document("requests/{requestId}").onCreate(...)]. *)
Definition exports : list CloudFunction :=
  [ {| fn_name := "sendDriverNotification";
       fn_pattern := "requests/{requestId}";
       fn_kind := Created;
       fn_handler := sendDriverNotification |} ].

(** * The loop and its reference *)

(** The callback is one conditional push. *)
Lemma collect_push_step (doc : QueryDocumentSnapshot) (tokens : list value) :
  collect doc tokens =
    push_step (λ d, if ToBoolean (fcmToken d) then Some (fcmToken d) else None)
      tokens doc.
Proof. unfold collect, push_step, fcmToken, push. by case_match. Qed.

Lemma omap_truthy_tokensOf (drivers : QuerySnapshot) :
  omap (λ d, if ToBoolean (fcmToken d) then Some (fcmToken d) else None) drivers
  = tokensOf drivers.
Proof.
  unfold tokensOf. induction drivers as [|d l IH]; csimpl; [done|].
  destruct (ToBoolean (fcmToken d)); csimpl; by rewrite IH.
Qed.

(** The loop started with any array appends the reference token list. *)
Lemma forEach_collect (drivers : QuerySnapshot) (acc : list value) :
  forEach drivers collect acc = acc ++ tokensOf drivers.
Proof.
  unfold forEach. rewrite <-omap_truthy_tokensOf, <-foldl_push_step.
  revert acc. induction drivers as [|d l IH]; intros acc; simpl; [done|].
  by rewrite collect_push_step, IH.
Qed.

(** C2: the token loop of lines 16-21 ([forEach] with a conditional [push]
    onto an initially empty array) computes the reference token list: the
    truthy [fcmToken] fields of the result, in result order, duplicates
    kept. *)
Theorem driverTokens_tokensOf (drivers : QuerySnapshot) :
  driverTokens drivers = tokensOf drivers.
Proof. unfold driverTokens. by rewrite forEach_collect. Qed.

Lemma driversQuery_eq : driversQuery = drivers_query.
Proof. done. Qed.

Lemma message_eq (tokens : list value) : message tokens = spec_message tokens.
Proof. done. Qed.

Lemma logLine_reports (response : BatchResponse) :
  reports (logLine response) response.
Proof. unfold reports, logLine, ToString. by apply the_number_framed. Qed.

Lemma length_zero_nil {A} (l : list A) : (length l =? 0) = bool_decide (l = []).
Proof. by destruct l. Qed.

(** * The handler on every platform *)

(** Whatever the platform answers, the handler makes the calls and settles
    the way the contract allows. *)
Lemma sendDriverNotification_always snap context :
  always (sendDriverNotification snap context) (notifies snap).
Proof.
  unfold sendDriverNotification.
  destruct (ToBoolean (data snap)) eqn:Hdata; simpl.
  - apply data_truthy_iff in Hdata. rewrite driversQuery_eq.
    split; [by constructor|]. intros drivers.
    unfold driverTokens. rewrite forEach_collect, app_nil_l, length_zero_nil.
    case_bool_decide; simpl; [by constructor|]. rewrite message_eq.
    split; [by constructor|]. intros response.
    constructor; auto using logLine_reports.
  - constructor. unfold data in Hdata. by destruct (snap_fields snap).
Qed.

(** The handler awaits at most two calls. *)
Lemma sendDriverNotification_within snap context :
  within 2 (sendDriverNotification snap context).
Proof.
  unfold sendDriverNotification. destruct (negb _); simpl; [done|].
  intros drivers. by destruct (length _ =? 0).
Qed.

(** * Runs of the handler *)

Section runs.
Context `{Platform W}.
Implicit Types (w : W) (snap : DocumentSnapshot) (context : EventContext).

(** The run of the handler, call by call. *)
Lemma exec_sendDriverNotification snap context w :
  exec (sendDriverNotification snap context) w =
    if negb (ToBoolean (data snap)) then (Resolved tt, w, []) else
    match firestoreGet driversQuery w with
    | (Err e, w1) => (Rejected e, w1, [EvGet driversQuery (Err e)])
    | (Ok drivers, w1) =>
        let get := EvGet driversQuery (Ok drivers) in
        if bool_decide (tokensOf drivers = []) then (Resolved tt, w1, [get])
        else
          let m := message (tokensOf drivers) in
          match sendMulticast m w1 with
          | (Err e, w2) => (Rejected e, w2, [get; EvSend m (Err e)])
          | (Ok response, w2) =>
              (Resolved tt, consoleLog (logLine response) w2,
               [get; EvSend m (Ok response); EvLog (logLine response)])
          end
    end.
Proof.
  unfold sendDriverNotification. destruct (negb _); [done|]. simpl.
  destruct (firestoreGet driversQuery w) as [[drivers|e] w1]; [|done].
  unfold driverTokens. rewrite forEach_collect, app_nil_l, length_zero_nil.
  case_bool_decide; [done|]. simpl.
  by destruct (sendMulticast _ w1) as [[response|e] w2].
Qed.

(** Case analysis on a run of the handler, given the equation of its run:
    one goal per path through the body (no data; query failed; no token;
    send failed; sent). *)
Ltac handler_cases equation :=
  rewrite equation;
  destruct (ToBoolean (data _)) eqn:?; simpl;
  [ destruct (firestoreGet driversQuery _) as [[?drivers|?e] ?w1] eqn:?; simpl;
    [ case_bool_decide; simpl;
      [| destruct (sendMulticast _ _) as [[?response|?e] ?w2] eqn:?; simpl ]
    | ]
  | ].

(** What a run returns, by component. *)
Definition settled (r : outcome unit * W * list event) : outcome unit := r.1.1.
Definition final (r : outcome unit * W * list event) : W := r.1.2.
Definition trace (r : outcome unit * W * list event) : list event := r.2.

(** C1: on every platform and from every state, a run of the handler
    makes the calls and settles the way the contract [notifies] allows for
    the snapshot it was invoked with. *)
Theorem sendDriverNotification_implements_contract snap context w :
  let r := exec (sendDriverNotification snap context) w in
  notifies snap (trace r) (settled r).
Proof.
  apply (always_exec (sendDriverNotification snap context) (notifies snap) w),
    sendDriverNotification_always.
Qed.

(** C5: a snapshot without data ends the run at once: no query, no
    message, no log line, the platform untouched, the promise resolved. *)
Theorem absent_data_no_calls snap context w :
  snap_fields snap = None →
  exec (sendDriverNotification snap context) w = (Resolved tt, w, []).
Proof.
  intros Hnone. rewrite exec_sendDriverNotification.
  unfold data. by rewrite Hnone.
Qed.

(** C3: when the query answers with drivers none of which has a truthy
    token (no driver at all included), the run stops after the query:
    nothing is sent and nothing is logged. *)
Theorem no_tokens_no_send snap context w drivers w1 :
  is_Some (snap_fields snap) →
  firestoreGet driversQuery w = (Ok drivers, w1) →
  tokensOf drivers = [] →
  exec (sendDriverNotification snap context) w
  = (Resolved tt, w1, [EvGet driversQuery (Ok drivers)]).
Proof.
  intros Hdata%data_truthy_iff Hget Hnone.
  rewrite exec_sendDriverNotification, Hdata, Hget. simpl.
  by rewrite bool_decide_eq_true_2.
Qed.

(** C7: a failing query rejects the promise with the query's error; no
    message is sent and nothing is logged. *)
Theorem query_error_propagates snap context w e w1 :
  is_Some (snap_fields snap) →
  firestoreGet driversQuery w = (Err e, w1) →
  exec (sendDriverNotification snap context) w
  = (Rejected e, w1, [EvGet driversQuery (Err e)]).
Proof.
  intros Hdata%data_truthy_iff Hget.
  by rewrite exec_sendDriverNotification, Hdata, Hget.
Qed.

(** C8: a failing send rejects the promise with the send's error, after
    exactly one query and one send; nothing is logged. *)
Theorem send_error_propagates snap context w drivers w1 e w2 :
  is_Some (snap_fields snap) →
  firestoreGet driversQuery w = (Ok drivers, w1) →
  tokensOf drivers ≠ [] →
  sendMulticast (message (tokensOf drivers)) w1 = (Err e, w2) →
  exec (sendDriverNotification snap context) w
  = (Rejected e, w2,
     [EvGet driversQuery (Ok drivers);
      EvSend (message (tokensOf drivers)) (Err e)]).
Proof.
  intros Hdata%data_truthy_iff Hget Hsome Hsend.
  rewrite exec_sendDriverNotification, Hdata, Hget. simpl.
  by rewrite bool_decide_eq_false_2, Hsend.
Qed.

(** C6: when the query answers with at least one truthy token and the
    send is accepted, the run queries once, sends one message carrying
    every token, logs one line built from the response and resolves. *)
Theorem notification_sent snap context w drivers w1 response w2 :
  is_Some (snap_fields snap) →
  firestoreGet driversQuery w = (Ok drivers, w1) →
  tokensOf drivers ≠ [] →
  sendMulticast (message (tokensOf drivers)) w1 = (Ok response, w2) →
  exec (sendDriverNotification snap context) w
  = (Resolved tt, consoleLog (logLine response) w2,
     [EvGet driversQuery (Ok drivers);
      EvSend (message (tokensOf drivers)) (Ok response);
      EvLog (logLine response)]).
Proof.
  intros Hdata%data_truthy_iff Hget Hsome Hsend.
  rewrite exec_sendDriverNotification, Hdata, Hget. simpl.
  by rewrite bool_decide_eq_false_2, Hsend.
Qed.

(** C31: an invocation makes at most three calls: at most one query, at
    most one send and at most one log line, whatever the platform
    answers. *)
Theorem at_most_one_call_of_each_kind snap context w :
  let t := trace (exec (sendDriverNotification snap context) w) in
  length t ≤ 3 ∧
  length (queried t) ≤ 1 ∧ length (sent t) ≤ 1 ∧ length (logged t) ≤ 1.
Proof. cbv zeta. handler_cases exec_sendDriverNotification; cbn; lia. Qed.

(** C9: every message the handler sends carries the two fixed texts,
    whatever the request holds, and at least one token. *)
Theorem sent_message_texts snap context w :
  Forall (λ m, title (notification m) = "🆘 New Ambulance Request" ∧
               body (notification m) = "Tap to accept a nearby emergency request" ∧
               tokens m ≠ [])
    (sent (trace (exec (sendDriverNotification snap context) w))).
Proof.
  handler_cases exec_sendDriverNotification; cbn; repeat constructor; done.
Qed.

(** Every token of a sent message is truthy: never [undefined],
    [null] or the empty string. *)
Theorem sent_tokens_truthy snap context w :
  Forall (λ m, Forall (λ token, ToBoolean token = true) (tokens m))
    (sent (trace (exec (sendDriverNotification snap context) w))).
Proof.
  handler_cases exec_sendDriverNotification; cbn; repeat constructor;
    apply tokensOf_truthy.
Qed.

(** C37: the run does not depend on the contents of the request nor on the
    event context, only on the presence of the request's data. *)
Theorem payload_irrelevant snap1 context1 snap2 context2 w :
  is_Some (snap_fields snap1) → is_Some (snap_fields snap2) →
  exec (sendDriverNotification snap1 context1) w
  = exec (sendDriverNotification snap2 context2) w.
Proof.
  intros H1%data_truthy_iff H2%data_truthy_iff.
  by rewrite !exec_sendDriverNotification, H1, H2.
Qed.


(** The invocation has two suspension points.  Running the handler to
    its first [await] and resuming it twice, with nothing happening in
    between, is the whole run: same outcome, same final state, same
    calls. *)
Theorem suspensions_compose_to_the_run snap context w :
  let r := exec (sendDriverNotification snap context) w in
  run 2 (sendDriverNotification snap context) w
  = (Settled (settled r), final r, trace r).
Proof.
  cbv zeta. apply run_exec.
  handler_cases exec_sendDriverNotification; cbn; lia.
Qed.

End runs.

(** * The log line *)

(** C10: the line logged for a response mentions the response's
    [successCount] and no other number. *)
Theorem logLine_the_number (response : BatchResponse) :
  the_number (logLine response) = Some (successCount response).
Proof. apply logLine_reports. Qed.

(** Responses with different counts are logged as different lines. *)
Theorem logLine_inj (r1 r2 : BatchResponse) :
  logLine r1 = logLine r2 → r1 = r2.
Proof.
  intros Heq. pose proof (logLine_reports r1) as H1.
  pose proof (logLine_reports r2) as H2. unfold reports in *.
  rewrite Heq, H2 in H1. destruct r1, r2. simplify_eq/=. done.
Qed.

(** * Which tokens are addressed *)

Section addressed.
Context `{Platform W}.

(** C4: the message sent addresses exactly the truthy tokens of the drivers
    the query returned: no driver with a token is left out, and no token
    comes from anywhere else. *)
Theorem sent_tokens_exact snap context (w w1 : W) drivers m r token :
  firestoreGet driversQuery w = (Ok drivers, w1) →
  EvSend m r ∈ trace (exec (sendDriverNotification snap context) w) →
  token ∈ tokens m ↔
  ToBoolean token = true ∧ ∃ d, d ∈ drivers ∧ fcmToken d = token.
Proof.
  intros Hget. rewrite exec_sendDriverNotification, Hget.
  destruct (negb _); cbn; [by intros ?%elem_of_nil|].
  case_bool_decide; cbn.
  - intros [?|?%elem_of_nil]%elem_of_cons; by simplify_eq.
  - destruct (sendMulticast _ w1) as [[response|e] w2]; cbn;
      rewrite !elem_of_cons, ?elem_of_nil; intros Hin;
      destruct_or?; simplify_eq/=; try done; apply elem_of_tokensOf.
Qed.

End addressed.

(** * Worked runs *)

(** A created request, the same request when its data cannot be read, and
    the context of its event. *)
Definition request : DocumentSnapshot :=
  {| snap_path := "requests/r1";
     snap_fields := Some [("patient", VString "unit 4")] |}.
Definition unreadable : DocumentSnapshot :=
  {| snap_path := "requests/r1"; snap_fields := None |}.
Definition ctx : EventContext := {| params := [("requestId", "r1")] |}.

(** Three available drivers; the third has no token. *)
Definition driverA : document :=
  Document "a" [("isAvailable", VBoolean true); ("fcmToken", VString "A")].
Definition driverB : document :=
  Document "b" [("isAvailable", VBoolean true); ("fcmToken", VString "B")].
Definition driverC : document :=
  Document "c" [("isAvailable", VBoolean true)].

(** A platform that gives the same answer to every query and every send. *)
Definition answering (got : result error QuerySnapshot)
    (accepted : result error BatchResponse) : script :=
  {| answer_get := λ _, got; answer_send := λ _, accepted; console := [] |}.

Lemma absent_data_no_calls_witness :
  exec (sendDriverNotification unreadable ctx)
       (answering (Ok [driverA]) (Ok (MkResponse 1)))
  = (Resolved tt, answering (Ok [driverA]) (Ok (MkResponse 1)), []).
Proof. by apply (absent_data_no_calls (W:=script)). Defined.

Lemma no_tokens_no_send_witness :
  exec (sendDriverNotification request ctx)
       (answering (Ok [driverC]) (Ok (MkResponse 0)))
  = (Resolved tt, answering (Ok [driverC]) (Ok (MkResponse 0)),
     [EvGet driversQuery (Ok [driverC])]).
Proof.
  by apply (no_tokens_no_send (W:=script) request ctx
              (answering (Ok [driverC]) (Ok (MkResponse 0))) [driverC]).
Defined.

Lemma query_error_propagates_witness :
  exec (sendDriverNotification request ctx)
       (answering (Err "unavailable") (Ok (MkResponse 0)))
  = (Rejected "unavailable",
     answering (Err "unavailable") (Ok (MkResponse 0)),
     [EvGet driversQuery (Err "unavailable")]).
Proof.
  by apply (query_error_propagates (W:=script) request ctx
              (answering (Err "unavailable") (Ok (MkResponse 0)))).
Defined.

(** The three drivers are returned; the push service accepts the message
    and reaches both devices, or fails. *)
Definition accepting : script :=
  answering (Ok [driverA; driverB; driverC]) (Ok (MkResponse 2)).
Definition failing : script :=
  answering (Ok [driverA; driverB; driverC]) (Err "messaging/internal-error").

Lemma send_error_propagates_witness :
  exec (sendDriverNotification request ctx) failing
  = (Rejected "messaging/internal-error", failing,
     [EvGet driversQuery (Ok [driverA; driverB; driverC]);
      EvSend (message [VString "A"; VString "B"])
             (Err "messaging/internal-error")]).
Proof.
  by apply (send_error_propagates (W:=script) request ctx failing
              [driverA; driverB; driverC] failing).
Defined.

Lemma notification_sent_witness :
  trace (exec (sendDriverNotification request ctx) accepting)
  = [EvGet driversQuery (Ok [driverA; driverB; driverC]);
     EvSend (message [VString "A"; VString "B"]) (Ok (MkResponse 2));
     EvLog "✅ Sent to 2 drivers."].
Proof.
  by rewrite (notification_sent (W:=script) request ctx accepting
                [driverA; driverB; driverC] accepting (MkResponse 2) accepting
                ltac:(done) eq_refl ltac:(done) eq_refl).
Defined.

Lemma payload_irrelevant_witness :
  exec (sendDriverNotification request ctx)
       (answering (Ok [driverA]) (Ok (MkResponse 1)))
  = exec (sendDriverNotification
            {| snap_path := "requests/r2"; snap_fields := Some [] |}
            {| params := [] |})
         (answering (Ok [driverA]) (Ok (MkResponse 1))).
Proof. by apply (payload_irrelevant (W:=script)). Defined.

Lemma logLine_inj_witness : MkResponse 7 = MkResponse 7.
Proof. by apply (logLine_inj (MkResponse 7) (MkResponse 7)). Defined.

Lemma sent_tokens_exact_witness :
  VString "B" ∈ tokens (message [VString "A"; VString "B"]) ↔
  ToBoolean (VString "B") = true ∧
  ∃ d, d ∈ [driverA; driverB; driverC] ∧ fcmToken d = VString "B".
Proof.
  apply (sent_tokens_exact (W:=script) request ctx accepting accepting
           [driverA; driverB; driverC] _ (Ok (MkResponse 2))); [done|].
  vm_compute. apply elem_of_cons. right. apply elem_of_cons. by left.
Defined.

(** The third testable property of the specification.  With available
    drivers A and B holding tokens and a third holding none, one message
    is sent, to the tokens of A and B in that order. *)
Example three_drivers_two_tokens :
  sent (trace (exec (sendDriverNotification request ctx) accepting))
  = [message [VString "A"; VString "B"]].
Proof. reflexivity. Qed.

(** A driver record whose token is not a string. *)
Definition driverE : document :=
  Document "e" [("isAvailable", VBoolean true); ("fcmToken", VBoolean true)].

(** The loop tests the token for truthiness only.  With a scripted
    answer that holds a token that is not a string and the same record
    twice, the token is forwarded as it is and the record addressed
    twice. *)
Example repeated_record_addressed_twice :
  sent (trace (exec (sendDriverNotification request ctx)
                 (answering (Ok [driverE; driverA; driverA])
                            (Ok (MkResponse 1)))))
  = [message [VBoolean true; VString "A"; VString "A"]].
Proof. reflexivity. Qed.

(** * The registration *)

(** The one function the module exports. *)
Definition registered : CloudFunction :=
  {| fn_name := "sendDriverNotification";
     fn_pattern := "requests/{requestId}";
     fn_kind := Created;
     fn_handler := sendDriverNotification |}.

Lemma exports_registered : exports = [registered].
Proof. done. Qed.

Lemma registered_pattern :
  parse_pattern (fn_pattern registered)
  = [Literal "requests"; Wildcard "requestId"].
Proof. done. Qed.

(** The function is invoked for a change exactly when the change is the
    creation of a document directly inside [requests]. *)
Lemma dispatch_registered (c : change) (p : prog unit) :
  dispatch registered c = Some p ↔
  ch_kind c = Created ∧
  ∃ id, ch_path c = "requests/" +:+ id ∧ id ≠ EmptyString ∧
        contains "/"%char id = false ∧
        p = sendDriverNotification
              {| snap_path := ch_path c; snap_fields := ch_fields c |}
              {| params := [("requestId", id)] |}.
Proof.
  rewrite dispatch_Some. unfold match_path. rewrite registered_pattern.
  setoid_rewrite match_literal_wildcard. simpl. split.
  - intros (Hk & ps & (id & Hpath & Hid & Hsep & _ & ->) & ->).
    split; [done|]. by exists id.
  - intros (Hk & id & Hpath & Hid & Hsep & ->). split; [done|].
    eexists. split; [|done]. by exists id.
Qed.

(** A change invokes the handler at most once, with the snapshot of the
    changed document. *)
Lemma invocations_exports (c : change) :
  invocations exports c = [] ∨
  ∃ id, invocations exports c
        = [sendDriverNotification
             {| snap_path := ch_path c; snap_fields := ch_fields c |}
             {| params := [("requestId", id)] |}].
Proof.
  unfold invocations. rewrite exports_registered. csimpl.
  destruct (dispatch registered c) as [p|] eqn:E; [|by left].
  apply dispatch_registered in E as (_ & id & _ & _ & _ & ->). right. eauto.
Qed.

(** The creation of the request [id]. *)
Definition created (id : string) (fields : object) : change :=
  {| ch_kind := Created; ch_path := "requests/" +:+ id;
     ch_fields := Some fields |}.

Lemma invocations_registered (c : change) :
  invocations exports c
  = match dispatch registered c with Some p => [p] | None => [] end.
Proof. unfold invocations. rewrite exports_registered. by csimpl. Qed.

Lemma invocations_created (id : string) (fields : object) :
  id ≠ EmptyString → contains "/"%char id = false →
  invocations exports (created id fields)
  = [sendDriverNotification
       {| snap_path := "requests/" +:+ id; snap_fields := Some fields |}
       {| params := [("requestId", id)] |}].
Proof.
  intros Hid Hsep. rewrite invocations_registered.
  assert (dispatch registered (created id fields)
          = Some (sendDriverNotification
                    {| snap_path := "requests/" +:+ id;
                       snap_fields := Some fields |}
                    {| params := [("requestId", id)] |})) as ->; [|done].
  apply dispatch_registered. split; [done|]. by exists id.
Qed.

(** C34: the creation of a document directly inside [requests] invokes the
    handler exactly once, with the snapshot of the created document and
    its identifier as parameter [requestId]. *)
Theorem created_request_invokes_once (id : string) (fields : option object) :
  id ≠ EmptyString → contains "/"%char id = false →
  invocations exports
    {| ch_kind := Created; ch_path := "requests/" +:+ id; ch_fields := fields |}
  = [sendDriverNotification
       {| snap_path := "requests/" +:+ id; snap_fields := fields |}
       {| params := [("requestId", id)] |}].
Proof.
  intros Hid Hsep. unfold invocations. rewrite exports_registered. csimpl.
  match goal with |- context [dispatch registered ?c] =>
    destruct (dispatch registered c) as [p|] eqn:E end.
  - apply dispatch_registered in E as (_ & id' & Hpath & _ & _ & ->).
    simpl in Hpath. by apply (inj (String.app _)) in Hpath as <-.
  - assert (is_Some (dispatch registered
      {| ch_kind := Created; ch_path := "requests/" +:+ id;
         ch_fields := fields |})) as [p Hp]; [|congruence].
    eexists. apply dispatch_registered. split; [done|]. by exists id.
Qed.

Lemma created_request_invokes_once_witness :
  invocations exports
    {| ch_kind := Created; ch_path := "requests/r1";
       ch_fields := snap_fields request |}
  = [sendDriverNotification request ctx].
Proof. by apply (created_request_invokes_once "r1"). Defined.

(** C35: updates and deletions of requests, and changes of documents that
    are not directly inside [requests] (documents of other collections,
    documents of a subcollection of a request, the collection path
    itself), never invoke the function. *)
Theorem other_changes_invoke_nothing (c : change) :
  ch_kind c ≠ Created ∨
  (∀ id, ch_path c = "requests/" +:+ id →
         id = EmptyString ∨ contains "/"%char id = true) →
  invocations exports c = [].
Proof.
  intros Hc. unfold invocations. rewrite exports_registered. csimpl.
  destruct (dispatch registered c) as [p|] eqn:E; [|done].
  apply dispatch_registered in E as (Hk & id & Hpath & Hid & Hsep & _).
  destruct Hc as [Hc|Hc]; [done|].
  destruct (Hc id Hpath) as [?|?]; congruence.
Qed.

Lemma other_changes_invoke_nothing_witness :
  invocations exports
    {| ch_kind := Updated; ch_path := "requests/r1";
       ch_fields := snap_fields request |} = [] ∧
  invocations exports
    {| ch_kind := Created; ch_path := "drivers/a";
       ch_fields := Some (doc_fields driverA) |} = [] ∧
  invocations exports
    {| ch_kind := Created; ch_path := "requests/r1/notes/n1";
       ch_fields := Some [] |} = [].
Proof.
  split; [|split]; apply other_changes_invoke_nothing; [by left|right..].
  - by intros id [=].
  - intros id [= <-]%(inj (String.app "requests/")). by right.
Defined.
