(* ===== verification/Sdk.v ===== *)
(** * The process: the SDK handle and the module

    Lines 1-3 of [index.js] run when the runtime loads the module into a
    process: they bind the two libraries and call [admin.initializeApp()],
    which creates the default app, the process-wide handle on the
    services.  [admin.firestore()] (line 11) and [admin.messaging()]
    (line 33) look the default app up each time the handler runs.  Section
    9 of the specification describes the lifecycle: initialised once at
    the start of the process, reused by every invocation.

    A [process] is the registry of apps of the SDK, the module cache of
    the runtime and the services behind the handle.  It is itself a
    [Platform]: a call of the handler succeeds in looking up its service
    or fails before it reaches it. *)

From S2P Require Import Prelude JsValue Firestore Messaging Program Spec Trigger Handler.

(** * The SDK namespace *)

(** The name [initializeApp] gives an app when it is called without
    one. *)
Definition DEFAULT_APP_NAME : string := "[DEFAULT]".

(** The state behind [admin]: the names of the apps initialised so far. *)
Record admin : Type := Admin {
  apps : list string
}.

#[export] Instance admin_eq_dec : EqDecision admin.
Proof. solve_decision. Defined.

(** [admin.initializeApp(options, name)]: registers an app; throws when an
    app of that name exists. *)
Definition initializeApp (name : option string) (a : admin)
  : result error admin :=
  let n := default DEFAULT_APP_NAME name in
  if bool_decide (n ∈ apps a) then Err "app/duplicate-app"
  else Ok {| apps := apps a ++ [n] |}.

(** [admin.app()]: the default app; throws when there is none. *)
Definition app (a : admin) : result error string :=
  if bool_decide (DEFAULT_APP_NAME ∈ apps a) then Ok DEFAULT_APP_NAME
  else Err "app/no-app".

(** [admin.firestore()] and [admin.messaging()]: the services of the
    default app. *)
Definition firestore (a : admin) : result error string := app a.
Definition messaging (a : admin) : result error string := app a.

(** * The module *)

(** Lines 1-7: the body of the module.  It initialises the default app
    (line 3) and assigns the export (lines 5-7); the [require]s of lines 1
    and 2 bind the namespaces [functions] and [admin] and have no other
    effect. *)
Definition index_js (a : admin) : result error (admin * list CloudFunction) :=
  a' ← initializeApp None a;
  Ok (a', exports).

(** * Processes *)

Record process (W : Type) : Type := Process {
  sdk : admin;
  module_cache : option (list CloudFunction);
  services : W
}.
Arguments Process {W} _ _ _.
Arguments sdk {W} _.
Arguments module_cache {W} _.
Arguments services {W} _.

(** A process that has just started: nothing loaded, nothing
    initialised. *)
Definition start {W} (w : W) : process W :=
  {| sdk := {| apps := [] |}; module_cache := None; services := w |}.

Definition with_services {W} (w : W) (p : process W) : process W :=
  {| sdk := sdk p; module_cache := module_cache p; services := w |}.

(** [require("./index")] by the runtime: the body runs the first time; the
    cached exports are returned afterwards. *)
Definition require_index {W} (p : process W)
  : result error (process W * list CloudFunction) :=
  match module_cache p with
  | Some e => Ok (p, e)
  | None =>
      '(a, e) ← index_js (sdk p);
      Ok ({| sdk := a; module_cache := Some e; services := services p |}, e)
  end.

(** The calls of a program in a process: the service is looked up, and
    the call goes through when it is found.  The lookup is part of the
    awaited expression: when it throws, the call it belongs to is
    answered with its error, and the service is not reached. *)
#[export] Instance process_platform `{Platform W} : Platform (process W) := {|
  firestoreGet q p :=
    match firestore (sdk p) with
    | Ok _ =>
        let '(r, w) := firestoreGet q (services p) in (r, with_services w p)
    | Err e => (Err e, p)
    end;
  sendMulticast message p :=
    match messaging (sdk p) with
    | Ok _ =>
        let '(r, w) := sendMulticast message (services p) in
        (r, with_services w p)
    | Err e => (Err e, p)
    end;
  consoleLog line p := with_services (consoleLog line (services p)) p
|}.

(** What the runtime does with a change of the database in a process:
    load the module if it is not loaded yet (a cold start), and run the
    functions the change invokes, to their end, one after the other. *)
Fixpoint run_all {W} `{Platform W} (ps : list (prog unit)) (p : process W)
  : process W * list (outcome unit * list event) :=
  match ps with
  | [] => (p, [])
  | pr :: ps' =>
      let '(o, p', t) := exec pr p in
      let '(p'', rs) := run_all ps' p' in
      (p'', (o, t) :: rs)
  end.

Definition handle {W} `{Platform W} (c : change) (p : process W)
  : result error (process W * list (outcome unit * list event)) :=
  '(p', fns) ← require_index p;
  Ok (run_all (invocations fns c) p').

(** What happens to a process: a change of the database is handled, or
    something else changes the services. *)
Variant happening (W : Type) : Type :=
| Handle (c : change)
| Outside (f : W → W).
Arguments Handle {W} c.
Arguments Outside {W} f.

Definition occur {W} `{Platform W} (h : happening W) (p : process W)
  : result error (process W) :=
  match h with
  | Handle c => fst <$> handle c p
  | Outside f => Ok (with_services (f (services p)) p)
  end.

(** The states of a process, from its start. *)
Inductive alive {W} `{Platform W} (w : W) : process W → Prop :=
| alive_start : alive w (start w)
| alive_occur p h p' : alive w p → occur h p = Ok p' → alive w p'.

(** A process is either fresh or ready: the module is loaded exactly when
    the default app exists, and no other app does. *)
Definition fresh {W} (p : process W) : Prop :=
  module_cache p = None ∧ apps (sdk p) = [].

Definition ready {W} (p : process W) : Prop :=
  module_cache p = Some exports ∧ apps (sdk p) = [DEFAULT_APP_NAME].

(** * Facts *)

Section process_facts.
Context `{Platform W}.
Implicit Types (p : process W) (w : W).

Lemma with_services_services p : with_services (services p) p = p.
Proof. by destruct p. Qed.

Lemma with_services_twice w w' p :
  with_services w (with_services w' p) = with_services w p.
Proof. done. Qed.

Lemma ready_with_services w p : ready p → ready (with_services w p).
Proof. done. Qed.

Lemma ready_app p : ready p → app (sdk p) = Ok DEFAULT_APP_NAME.
Proof. intros [_ Happs]. unfold app. by rewrite Happs. Qed.

Lemma fresh_app p : fresh p → app (sdk p) = Err "app/no-app".
Proof. intros [_ Happs]. unfold app. by rewrite Happs. Qed.

(** ** Calls in a process *)

Lemma perform_app {X} (c : call X) p :
  is_ok (app (sdk p)) = true →
  perform c p = ((perform c (services p)).1,
                 with_services (perform c (services p)).2 p).
Proof.
  destruct (app (sdk p)) as [n|e] eqn:Hp; [intros _|done].
  destruct c as [q|m]; simpl; unfold firestore, messaging; rewrite Hp.
  - by destruct (firestoreGet q (services p)).
  - by destruct (sendMulticast m (services p)).
Qed.

(** A process is a layer on its services: a call passes when the default
    app exists. *)
#[export] Instance process_layer : Layer (process W) W := {|
  beneath := services;
  rebase := with_services;
  passes p X c := is_ok (app (sdk p));
  rebase_beneath := with_services_services;
  beneath_rebase w p := eq_refl;
  rebase_rebase w w' p := eq_refl;
  passes_rebase w p X c := eq_refl;
  perform_passes p X c := perform_app c p;
  consoleLog_rebase line p := eq_refl
|}.

Lemma perform_no_app {X} (c : call X) p e :
  app (sdk p) = Err e → perform c p = (Err e, p).
Proof.
  intros Hp. destruct c; simpl; unfold firestore, messaging; by rewrite Hp.
Qed.

(** In a ready process a program runs as it does on the services. *)
Lemma exec_ready {A} (pr : prog A) p :
  ready p →
  exec pr p = ((exec pr (services p)).1.1,
               with_services (exec pr (services p)).1.2 p,
               (exec pr (services p)).2).
Proof.
  intros Hp%ready_app. refine (exec_layer (W:=W) pr p _). apply passed_all.
  intros X c. simpl. by rewrite Hp.
Qed.

(** Without the default app the first awaited call of a program fails
    before it reaches its service. *)
Lemma exec_no_app {A X} (c : call X) (k : X → prog A) p e :
  app (sdk p) = Err e →
  exec (Await c k) p = (Rejected e, p, [observed c (Err e)]).
Proof. intros Hp. simpl. by rewrite (perform_no_app c p e Hp). Qed.

(** ** Loading the module *)

Lemma index_js_first (a : admin) :
  apps a = [] →
  index_js a = Ok ({| apps := [DEFAULT_APP_NAME] |}, exports).
Proof. intros Ha. unfold index_js, initializeApp. by rewrite Ha. Qed.

Lemma index_js_again (a : admin) :
  DEFAULT_APP_NAME ∈ apps a → index_js a = Err "app/duplicate-app".
Proof.
  intros Ha. unfold index_js, initializeApp. simpl.
  by rewrite bool_decide_eq_true_2.
Qed.

Lemma require_index_fresh p :
  fresh p →
  require_index p
  = Ok ({| sdk := {| apps := [DEFAULT_APP_NAME] |};
           module_cache := Some exports; services := services p |}, exports).
Proof.
  intros [Hcache Happs]. unfold require_index.
  by rewrite Hcache, (index_js_first _ Happs).
Qed.

Lemma require_index_ready p : ready p → require_index p = Ok (p, exports).
Proof. intros [Hcache _]. unfold require_index. by rewrite Hcache. Qed.

(** Loading succeeds in a fresh and in a ready process, leaves the
    services alone, and leaves the process ready. *)
Lemma require_index_ok p :
  fresh p ∨ ready p →
  ∃ p', require_index p = Ok (p', exports) ∧ ready p' ∧
        services p' = services p.
Proof.
  intros [Hp|Hp].
  - rewrite (require_index_fresh p Hp). by eexists.
  - rewrite (require_index_ready p Hp). by eexists.
Qed.

(** ** Handling changes *)

Lemma run_all_ready (ps : list (prog unit)) p :
  ready p → ready (run_all ps p).1.
Proof.
  revert p. induction ps as [|pr ps IH]; intros p Hp; simpl; [done|].
  rewrite (exec_ready pr p Hp).
  specialize (IH _ (ready_with_services (exec pr (services p)).1.2 p Hp)).
  by destruct (run_all ps _).
Qed.

Lemma handle_ok (c : change) p :
  fresh p ∨ ready p →
  ∃ p' rs, handle c p = Ok (p', rs) ∧ ready p'.
Proof.
  intros (p1 & Hreq & Hp1 & _)%require_index_ok. unfold handle.
  rewrite Hreq. simpl. pose proof (run_all_ready (invocations exports c) p1 Hp1).
  destruct (run_all _ p1) as [p' rs] eqn:E. by exists p', rs.
Qed.

Lemma occur_state (h : happening W) p p' :
  fresh p ∨ ready p → occur h p = Ok p' → fresh p' ∨ ready p'.
Proof.
  intros Hp. destruct h as [c|f]; simpl.
  - destruct (handle_ok c p Hp) as (p1 & rs & -> & Hp1). intros [= <-].
    by right.
  - intros [= <-]. destruct Hp as [Hp|Hp]; [by left|by right].
Qed.

Lemma alive_state w p : alive w p → fresh p ∨ ready p.
Proof.
  induction 1 as [|p h p' _ IH Hocc]; [by left|by eapply occur_state].
Qed.

End process_facts.

(** * The process and the handler *)

Section handler_in_process.
Context `{Platform W}.
Implicit Types (p : process W) (w : W).

Lemma run_all_always (ps : list (prog unit)) Q p :
  Forall (λ pr, always pr Q) ps →
  Forall (λ r, Q r.2 r.1) (run_all ps p).2 ∧
  length (run_all ps p).2 = length ps.
Proof.
  intros Hps. revert p. induction Hps as [|pr ps Hpr _ IH]; intros p; simpl.
  { by split. }
  pose proof (always_exec pr Q p Hpr) as Hrun.
  destruct (exec pr p) as [[o p1] t]. destruct (IH p1) as [IHq IHl].
  destruct (run_all ps p1) as [p2 rs]. simpl in *. split; [by constructor|].
  by rewrite IHl.
Qed.

(** Handling a change in a process is running what the change invokes on
    the services, behind a module that is loaded. *)
Lemma handle_none (c : change) p :
  fresh p ∨ ready p → invocations exports c = [] →
  ∃ p1, ready p1 ∧ services p1 = services p ∧ handle c p = Ok (p1, []).
Proof.
  intros (p1 & Hreq & Hp1 & Hw)%require_index_ok Hinv. exists p1.
  split; [done|]. split; [done|]. apply result_bind_Ok. exists (p1, exports).
  split; [done|]. cbv beta iota. by rewrite Hinv.
Qed.

Lemma handle_one (c : change) (h : prog unit) p :
  fresh p ∨ ready p → invocations exports c = [h] →
  ∃ p1, ready p1 ∧ services p1 = services p ∧
        handle c p = Ok ((exec h p1).1.2, [((exec h p1).1.1, (exec h p1).2)]).
Proof.
  intros (p1 & Hreq & Hp1 & Hw)%require_index_ok Hinv. exists p1.
  split; [done|]. split; [done|]. apply result_bind_Ok. exists (p1, exports).
  split; [done|]. cbv beta iota. rewrite Hinv. cbn [run_all].
  by destruct (exec h p1) as [[o p'] t].
Qed.

(** A cold start cannot be observed: whichever process of the runtime
    handles a change, one that has just started or one that is in use,
    the invocation does the same and leaves the same services. *)
Corollary handle_any_process (c : change) p1 p2 :
  fresh p1 ∨ ready p1 → fresh p2 ∨ ready p2 → services p1 = services p2 →
  ∃ q1 q2 rs, handle c p1 = Ok (q1, rs) ∧ handle c p2 = Ok (q2, rs) ∧
              services q1 = services q2.
Proof.
  intros H1 H2 Hw. destruct (invocations_exports c) as [Hinv|[id Hinv]].
  - destruct (handle_none c p1 H1 Hinv) as (q1 & _ & Hq1 & ->).
    destruct (handle_none c p2 H2 Hinv) as (q2 & _ & Hq2 & ->).
    exists q1, q2, []. by rewrite Hq1, Hq2.
  - destruct (handle_one c _ p1 H1 Hinv) as (q1 & Hr1 & Hq1 & ->).
    destruct (handle_one c _ p2 H2 Hinv) as (q2 & Hr2 & Hq2 & ->).
    rewrite (exec_ready _ q1 Hr1), (exec_ready _ q2 Hr2), Hq1, Hq2, Hw.
    by eexists _, _, _.
Qed.

Lemma handle_results (c : change) p p' rs :
  fresh p ∨ ready p → handle c p = Ok (p', rs) →
  length rs ≤ 1 ∧
  Forall (λ r, notifies {| snap_path := ch_path c; snap_fields := ch_fields c |}
                 r.2 r.1) rs.
Proof.
  intros (p1 & Hreq & _)%require_index_ok Hh.
  assert (rs = (run_all (invocations exports c) p1).2) as ->.
  { unfold handle in Hh. rewrite Hreq in Hh.
    apply (f_equal (λ r, match r with Ok x => x.2 | Err _ => rs end)) in Hh.
    exact (eq_sym Hh). }
  destruct (run_all_always (invocations exports c)
    (notifies {| snap_path := ch_path c; snap_fields := ch_fields c |}) p1)
    as [Hq Hl].
  - destruct (invocations_exports c) as [->|[id ->]]; repeat constructor.
    apply sendDriverNotification_always.
  - split; [|done]. rewrite Hl.
    destruct (invocations_exports c) as [->|[id ->]]; simpl; lia.
Qed.

(** C16: after the runtime has loaded the module into a process that has
    just started, the handler runs in the process as it does on the
    services: the same outcome, the same calls, the same effect on the
    services.  Line 3 is what makes lines 11 and 33 find their service. *)
Theorem loaded_process_runs_on_the_services snap context w :
  ∃ p, require_index (start w) = Ok (p, exports) ∧ services p = w ∧
       exec (sendDriverNotification snap context) p
       = ((exec (sendDriverNotification snap context) w).1.1,
          with_services (exec (sendDriverNotification snap context) w).1.2 p,
          (exec (sendDriverNotification snap context) w).2).
Proof.
  destruct (require_index_ok (start w)) as (p & Hreq & Hp & Hw); [by left|].
  exists p. split; [done|]. split; [done|].
  rewrite (exec_ready _ p Hp). by rewrite Hw.
Qed.

(** C28: in a process where the default app was never initialised, an
    invocation for a request with data rejects with the error of the
    lookup at line 11; no call reaches a service and nothing is sent. *)
Theorem unloaded_process_rejects snap context w :
  is_Some (snap_fields snap) →
  exec (sendDriverNotification snap context) (start w)
  = (Rejected "app/no-app", start w,
     [EvGet driversQuery (Err "app/no-app")]).
Proof.
  intros Hdata%data_truthy_iff. unfold sendDriverNotification.
  rewrite Hdata. by apply exec_no_app.
Qed.

(** C27: a process handles every change of the database in every state it
    can be in: loading the module never fails, the process is ready
    afterwards, at most one invocation runs and it satisfies the
    contract for the snapshot of the change. *)
Theorem alive_process_handles_every_change w p (c : change) :
  alive w p →
  ∃ p' rs, handle c p = Ok (p', rs) ∧ alive w p' ∧ ready p' ∧
           length rs ≤ 1 ∧
           Forall (λ r, notifies
                     {| snap_path := ch_path c; snap_fields := ch_fields c |}
                     r.2 r.1) rs.
Proof.
  intros Hp. pose proof (alive_state w p Hp) as Hstate.
  destruct (handle_ok c p Hstate) as (p' & rs & Hh & Hp').
  exists p', rs. split; [done|]. split.
  - apply (alive_occur w p (Handle c) p' Hp). unfold occur. by rewrite Hh.
  - split; [done|]. by eapply handle_results.
Qed.

(** C33: the body of the module runs once per process.  Requiring the
    module again returns the cached exports and changes nothing, whereas
    running the body again would throw: the default app exists already. *)
Theorem module_body_runs_once w p :
  alive w p →
  ∃ p1, require_index p = Ok (p1, exports) ∧
        require_index p1 = Ok (p1, exports) ∧
        index_js (sdk p1) = Err "app/duplicate-app".
Proof.
  intros Hp%alive_state. destruct (require_index_ok p Hp) as (p1 & Hreq & Hp1 & _).
  exists p1. split; [done|]. split; [by apply require_index_ready|].
  apply index_js_again. destruct Hp1 as [_ ->]. by left.
Qed.

End handler_in_process.

(** * Worked runs *)

Lemma unloaded_process_rejects_witness :
  exec (sendDriverNotification request ctx) (start accepting)
  = (Rejected "app/no-app", start accepting,
     [EvGet driversQuery (Err "app/no-app")]).
Proof. by apply (unloaded_process_rejects (W:=script)). Defined.

Lemma alive_process_handles_every_change_witness :
  ∃ p' rs,
    handle {| ch_kind := Created; ch_path := "requests/r1";
              ch_fields := snap_fields request |} (start accepting)
    = Ok (p', rs) ∧
    alive accepting p' ∧ ready p' ∧ length rs ≤ 1 ∧
    Forall (λ r, notifies
              {| snap_path := "requests/r1";
                 snap_fields := snap_fields request |} r.2 r.1) rs.
Proof.
  apply (alive_process_handles_every_change accepting (start accepting)
           {| ch_kind := Created; ch_path := "requests/r1";
              ch_fields := snap_fields request |}).
  constructor.
Defined.

Lemma module_body_runs_once_witness :
  ∃ p1, require_index (start accepting) = Ok (p1, exports) ∧
        require_index p1 = Ok (p1, exports) ∧
        index_js (sdk p1) = Err "app/duplicate-app".
Proof. apply (module_body_runs_once accepting). constructor. Defined.
