(* ===== verification/World.v ===== *)
(** * The handler against a database and a push service

    A concrete platform: a Firestore database, the registry of reachable
    devices, the messages the push service accepted, the console, and two
    switches that make the services fail.  It answers the calls of
    [Program.call] the way the specification describes the services
    (sections 6 and 7), which makes it possible to state what an
    invocation does in terms of the driver records themselves: who is
    notified, what is counted, and that nothing is written. *)

From stdpp Require Import gmap.
From S2P Require Import Prelude JsValue Firestore Messaging Program Spec Trigger Handler.

(** * The state of the platform *)

Record world : Type := World {
  db : database;
  devices : registry;
  outbox : list MulticastMessage;
  console_lines : list string;
  firestore_up : bool;
  messaging_up : bool
}.

Definition accept (message : MulticastMessage) (w : world) : world :=
  {| db := db w; devices := devices w;
     outbox := outbox w ++ [message];
     console_lines := console_lines w;
     firestore_up := firestore_up w; messaging_up := messaging_up w |}.

Definition print (line : string) (w : world) : world :=
  {| db := db w; devices := devices w; outbox := outbox w;
     console_lines := console_lines w ++ [line];
     firestore_up := firestore_up w; messaging_up := messaging_up w |}.

(** The world after the push service accepted [ms] and the console
    printed [ls]. *)
Definition extend (ms : list MulticastMessage) (ls : list string)
    (w : world) : world :=
  {| db := db w; devices := devices w;
     outbox := outbox w ++ ms;
     console_lines := console_lines w ++ ls;
     firestore_up := firestore_up w; messaging_up := messaging_up w |}.

(** The query answers with the matching documents of the database, or
    fails when the database is unreachable; a multicast is accepted and
    delivered to the reachable devices, or fails as a whole. *)
#[export] Instance world_platform : Platform world := {|
  firestoreGet q w :=
    if firestore_up w then (Ok (runQuery (db w) q), w)
    else (Err "unavailable", w);
  sendMulticast message w :=
    if messaging_up w then (Ok (deliver (devices w) message), accept message w)
    else (Err "messaging/server-unavailable", w);
  consoleLog line w := print line w
|}.

(** The drivers a notification is meant for: the documents of [drivers]
    whose [isAvailable] is [true]. *)
Definition isAvailable (d : document) : bool :=
  bool_decide (getProp (doc_fields d) "isAvailable" = VBoolean true).

Definition availableDrivers (w : world) : list document :=
  List.filter isAvailable (db w !!! "drivers").

(** What the platform keeps from one state to a later one: the services'
    own data, untouched by the function. *)
Definition same_data (w w' : world) : Prop :=
  db w' = db w ∧ devices w' = devices w ∧
  firestore_up w' = firestore_up w ∧ messaging_up w' = messaging_up w.

(** Two states of the platform that an observer of the services cannot
    tell apart: the same data, the same messages accepted and the same
    lines printed, in whatever order the invocations produced them. *)
Definition similar (w w' : world) : Prop :=
  same_data w w' ∧ outbox w ≡ₚ outbox w' ∧ console_lines w ≡ₚ console_lines w'.

(** * Facts *)

Lemma selects_driversQuery (d : document) :
  selects driversQuery d = isAvailable d.
Proof.
  unfold driversQuery, isAvailable.
  rewrite selects_where, selects_collection. simpl.
  unfold satisfies. simpl. apply value_eqb_spec.
Qed.

Lemma runQuery_driversQuery (w : world) :
  runQuery (db w) driversQuery = availableDrivers w.
Proof.
  unfold runQuery, availableDrivers. simpl.
  apply filter_ext, selects_driversQuery.
Qed.

#[export] Instance same_data_equiv : Equivalence same_data.
Proof.
  split.
  - by intros w.
  - intros w w' (? & ? & ? & ?). by repeat split.
  - intros w1 w2 w3 (? & ? & ? & ?) (? & ? & ? & ?).
    repeat split; congruence.
Qed.

Lemma perform_same_data {X} (c : call X) (w : world) :
  same_data w (perform c w).2.
Proof.
  destruct c; simpl; [destruct (firestore_up w)|destruct (messaging_up w)];
    done.
Qed.

(** No program writes to the database or the device registry: the calls
    available to a program cannot. *)
Lemma exec_same_data {A} (p : prog A) (w : world) :
  same_data w (exec p w).1.2.
Proof.
  revert w. induction p as [a|X c k IH|line k IH]; intros w; simpl; [done|..].
  - pose proof (perform_same_data c w) as Hc.
    destruct (perform c w) as [[x|e] w1]; simpl in *; [|done].
    specialize (IH x w1). destruct (exec (k x) w1) as [[o w2] t]. simpl in *.
    by etrans.
  - specialize (IH (print line w)).
    destruct (exec k (print line w)) as [[o w2] t]. simpl in *.
    by etrans; [|exact IH].
Qed.

(** ** What the calls add to the world *)

Lemma extend_nil (w : world) : extend [] [] w = w.
Proof. destruct w. unfold extend. simpl. by rewrite !app_nil_r. Qed.

Lemma extend_extend ms1 ls1 ms2 ls2 (w : world) :
  extend ms2 ls2 (extend ms1 ls1 w) = extend (ms1 ++ ms2) (ls1 ++ ls2) w.
Proof. unfold extend. simpl. by rewrite !(assoc_L (++)). Qed.

Lemma print_extend line (w : world) : print line w = extend [] [line] w.
Proof. unfold print, extend. by rewrite app_nil_r. Qed.

Lemma accept_extend m (w : world) : accept m w = extend [m] [] w.
Proof. unfold accept, extend. by rewrite app_nil_r. Qed.

Lemma extend_same_data ms ls (w : world) : same_data w (extend ms ls w).
Proof. done. Qed.

#[export] Instance similar_equiv : Equivalence similar.
Proof.
  split.
  - by intros w.
  - intros w w' (? & ? & ?). split; [|split]; by symmetry.
  - intros w1 w2 w3 (? & ? & ?) (? & ? & ?). split; [|split]; by etrans.
Qed.

#[export] Instance extend_proper :
  Proper ((≡ₚ) ==> (≡ₚ) ==> similar ==> similar) extend.
Proof.
  intros ms ms' Hms ls ls' Hls w w' (Hdata & Hout & Hcon).
  split; [done|]. simpl. by rewrite Hms, Hls, Hout, Hcon.
Qed.

Lemma similar_same_data (w w' : world) : similar w w' → same_data w w'.
Proof. by intros []. Qed.

(** A call leaves the world as it was but for the message it had
    accepted. *)
Lemma perform_extend {X} (c : call X) (w : world) :
  (perform c w).2 = extend (accepted [observed c (perform c w).1]) [] w.
Proof.
  destruct c; simpl; [destruct (firestore_up w)|destruct (messaging_up w)];
    simpl; by rewrite ?extend_nil, ?accept_extend.
Qed.

(** The answer of a call depends on the data of the services only. *)
Lemma perform_answer {X} (c : call X) (w1 w2 : world) :
  same_data w1 w2 → (perform c w1).1 = (perform c w2).1.
Proof.
  intros (Hdb & Hdev & Hfs & Hfcm). destruct c; simpl; rewrite ?Hfs, ?Hfcm.
  - destruct (firestore_up w1); simpl; by rewrite ?Hdb.
  - destruct (messaging_up w1); simpl; by rewrite ?Hdev.
Qed.

Lemma advance_extend {A} (p : prog A) (w : world) :
  (advance p w).1.2 = extend [] (logged (advance p w).2) w.
Proof.
  revert w. induction p as [a|X c k IH|line k IH]; intros w; simpl;
    [by rewrite extend_nil..|].
  specialize (IH (print line w)).
  destruct (advance k (print line w)) as [[t w1] ev]. simpl in *.
  by rewrite IH, print_extend, extend_extend.
Qed.

Lemma resume_extend {A} (t : task A) (w : world) :
  (resume t w).1.2 = extend (accepted (resume t w).2) (logged (resume t w).2) w.
Proof.
  destruct t as [X c k|o]; simpl; [|by rewrite extend_nil].
  pose proof (perform_extend c w) as Hc.
  destruct (perform c w) as [[x|e] w1]; simpl in *; [|by destruct c].
  pose proof (advance_extend (k x) w1) as Hk.
  pose proof (advance_logs (k x) w1) as Hlogs%accepted_logs.
  destruct (advance (k x) w1) as [[t1 w2] ev]. simpl in *.
  rewrite Hk, Hc, extend_extend.
  destruct c; simpl; by rewrite ?Hlogs, ?app_nil_r.
Qed.

(** Where a resumption leads and what it does depend on the data of the
    services only, not on what other invocations sent or logged. *)
Lemma resume_same_data {A} (t : task A) (w1 w2 : world) :
  same_data w1 w2 →
  (resume t w1).1.1 = (resume t w2).1.1 ∧ (resume t w1).2 = (resume t w2).2.
Proof.
  intros Hw. destruct t as [X c k|o]; simpl; [|done].
  pose proof (perform_answer c w1 w2 Hw) as Hr.
  destruct (perform c w1) as [r1 w1'], (perform c w2) as [r2 w2'].
  simpl in Hr. subst r2. destruct r1 as [x|e]; [|done].
  destruct (advance_indep (k x) w1' w2') as [Ht Hev].
  destruct (advance (k x) w1') as [[? ?] ?], (advance (k x) w2') as [[? ?] ?].
  simpl in *. by subst.
Qed.

(** The documents a resumption read are those of the database at that
    moment. *)
Lemma resume_reads {A} (t : task A) (w : world) q drivers :
  EvGet q (Ok drivers) ∈ (resume t w).2 → drivers = runQuery (db w) q.
Proof.
  destruct t as [X c k|o]; simpl; [|by intros ?%elem_of_nil].
  pose proof (perform_extend c w) as Hc.
  destruct (perform c w) as [[x|e] w1] eqn:E; simpl in *.
  - pose proof (advance_logs (k x) w1) as Hlogs.
    destruct (advance (k x) w1) as [[t1 w2] ev]. simpl in *.
    intros [Hhd|Htl]%elem_of_cons.
    + destruct c; simplify_eq/=. by destruct (firestore_up w); simplify_eq.
    + by eapply Forall_forall in Hlogs; [|exact Htl].
  - intros Hin%list_elem_of_singleton. by destruct c.
Qed.

(** The run of the handler on the world, case by case. *)
Lemma exec_world snap context (w : world) :
  exec (sendDriverNotification snap context) w =
    if negb (ToBoolean (data snap)) then (Resolved tt, w, []) else
    if negb (firestore_up w)
    then (Rejected "unavailable", w, [EvGet driversQuery (Err "unavailable")])
    else
      let drivers := availableDrivers w in
      let get := EvGet driversQuery (Ok drivers) in
      if bool_decide (tokensOf drivers = []) then (Resolved tt, w, [get]) else
      let m := message (tokensOf drivers) in
      if negb (messaging_up w)
      then (Rejected "messaging/server-unavailable", w,
            [get; EvSend m (Err "messaging/server-unavailable")])
      else
        let response := deliver (devices w) m in
        (Resolved tt, print (logLine response) (accept m w),
         [get; EvSend m (Ok response); EvLog (logLine response)]).
Proof.
  rewrite exec_sendDriverNotification. destruct (negb _); [done|]. simpl.
  destruct (firestore_up w); simpl; [|done].
  rewrite runQuery_driversQuery. case_bool_decide; [done|].
  by destruct (messaging_up w).
Qed.

(** The run when both services answer and somebody is to be notified. *)
Lemma exec_world_sent snap context (w : world) :
  is_Some (snap_fields snap) →
  firestore_up w = true → messaging_up w = true →
  tokensOf (availableDrivers w) ≠ [] →
  let m := message (tokensOf (availableDrivers w)) in
  let response := deliver (devices w) m in
  exec (sendDriverNotification snap context) w
  = (Resolved tt, extend [m] [logLine response] w,
     [EvGet driversQuery (Ok (availableDrivers w)); EvSend m (Ok response);
      EvLog (logLine response)]).
Proof.
  intros Hdata%data_truthy_iff Hfs Hfcm Htok. cbv zeta.
  rewrite exec_world, Hdata, Hfs, Hfcm. cbn [negb].
  rewrite bool_decide_eq_false_2 by done. cbv zeta.
  by rewrite accept_extend, print_extend, extend_extend.
Qed.

(** The handler on the database and push service, from suspension to
    suspension: it suspends at the query without having done anything;
    answered in a state with a driver to notify, it suspends at the send
    of the message to the drivers of that state; answered by the push
    service, in whatever state the platform is then, it logs and
    resolves. *)
Lemma handler_suspensions snap context (w : world) :
  is_Some (snap_fields snap) →
  ∃ k, advance (sendDriverNotification snap context) w
       = (Suspended (FirestoreGet driversQuery) k, w, []) ∧
    ∀ w1, firestore_up w1 = true → tokensOf (availableDrivers w1) ≠ [] →
      let m := message (tokensOf (availableDrivers w1)) in
      ∃ k', resume (Suspended (FirestoreGet driversQuery) k) w1
            = (Suspended (SendMulticast m) k', w1,
               [EvGet driversQuery (Ok (availableDrivers w1))]) ∧
        ∀ w2, messaging_up w2 = true →
          let response := deliver (devices w2) m in
          resume (Suspended (SendMulticast m) k') w2
          = (Settled (Resolved tt), extend [m] [logLine response] w2,
             [EvSend m (Ok response); EvLog (logLine response)]).
Proof.
  intros Hdata%data_truthy_iff. unfold sendDriverNotification.
  rewrite Hdata. simpl. eexists. split; [reflexivity|].
  intros w1 Hfs Htok. simpl. rewrite Hfs. simpl.
  rewrite runQuery_driversQuery. unfold driverTokens.
  rewrite forEach_collect, app_nil_l, length_zero_nil.
  rewrite bool_decide_eq_false_2 by done. simpl.
  eexists. split; [reflexivity|]. intros w2 Hfcm. simpl. rewrite Hfcm. simpl.
  by rewrite accept_extend, print_extend, extend_extend.
Qed.

(** Case analysis on a run on the world. *)
Ltac world_cases w :=
  rewrite exec_world;
  destruct (ToBoolean (data _)) eqn:?; simpl;
  [ destruct (firestore_up w) eqn:?; simpl;
    [ case_bool_decide; simpl; [| destruct (messaging_up w) eqn:?; simpl ] | ]
  | ].

(** The one message an invocation may send. *)
Lemma sent_exec_world snap context (w : world) (m : MulticastMessage) :
  m ∈ sent (exec (sendDriverNotification snap context) w).2 →
  m = message (tokensOf (availableDrivers w)) ∧
  tokensOf (availableDrivers w) ≠ [].
Proof.
  world_cases w; cbn; intros Hm; try by apply elem_of_nil in Hm.
  all: by apply list_elem_of_singleton in Hm as ->.
Qed.

(** * What an invocation does to the world *)

(** C15: an invocation reads: it never changes a request or driver record,
    nor the registry of devices; all it adds to the world is at most one
    accepted message and one console line. *)
Theorem invocation_writes_nothing snap context (w : world) :
  let w' := final (exec (sendDriverNotification snap context) w) in
  same_data w w' ∧
  (∃ ms, outbox w' = outbox w ++ ms ∧ length ms ≤ 1) ∧
  (∃ ls, console_lines w' = console_lines w ++ ls ∧ length ls ≤ 1).
Proof.
  cbv zeta. world_cases w; unfold final, same_data, print, accept; simpl;
    (split; [done|split]);
    first [ by exists []; rewrite app_nil_r; simpl; split; [|lia]
          | by eexists [_]; simpl; split; [|lia] ].
Qed.

(** C14: when both services answer and the request has data, the message
    accepted by the push service addresses exactly the truthy tokens of the
    drivers that are available in the database at the time of the query. *)
Theorem available_drivers_notified snap context (w : world) token :
  is_Some (snap_fields snap) →
  firestore_up w = true → messaging_up w = true →
  tokensOf (availableDrivers w) ≠ [] →
  let w' := final (exec (sendDriverNotification snap context) w) in
  ∃ m, outbox w' = outbox w ++ [m] ∧
       (token ∈ tokens m ↔
        ToBoolean token = true ∧
        ∃ d, d ∈ db w !!! "drivers" ∧ isAvailable d = true ∧
             fcmToken d = token).
Proof.
  intros Hdata%data_truthy_iff Hfs Hfcm Htok. cbv zeta.
  rewrite exec_world, Hdata, Hfs, Hfcm. simpl.
  rewrite bool_decide_eq_false_2 by done. unfold final, print, accept. simpl.
  eexists. split; [done|]. simpl. rewrite elem_of_tokensOf.
  unfold availableDrivers. setoid_rewrite list_elem_of_In.
  setoid_rewrite filter_In. naive_solver.
Qed.

(** C30: a driver that is not available, or has no token, is never
    addressed, whatever the state of the services: every token of a
    message an invocation sends, accepted or not, is the truthy token of
    a driver record whose [isAvailable] is [true]. *)
Theorem unavailable_driver_not_notified snap context (w : world) m token :
  m ∈ sent (trace (exec (sendDriverNotification snap context) w)) →
  token ∈ tokens m →
  ∃ d, d ∈ db w !!! "drivers" ∧ isAvailable d = true ∧ fcmToken d = token ∧
       ToBoolean token = true.
Proof.
  world_cases w; unfold trace; cbn; intros Hm; try by apply elem_of_nil in Hm.
  all: apply list_elem_of_singleton in Hm as ->; simpl.
  all: intros (Htrue & d & Hd & <-)%elem_of_tokensOf.
  all: apply list_elem_of_In, filter_In in Hd as [Hd Hav].
  all: exists d; by rewrite list_elem_of_In.
Qed.

(** C36: the number logged is the number of addressed tokens that reach a
    registered device; it never exceeds the number of tokens sent nor the
    number of available drivers. *)
Theorem logged_count_bounded snap context (w : world) line :
  line ∈ logged (trace (exec (sendDriverNotification snap context) w)) →
  ∃ n, the_number line = Some n ∧
       n = length (List.filter (reaches (devices w))
                     (tokensOf (availableDrivers w))) ∧
       n ≤ length (tokensOf (availableDrivers w)) ∧
       n ≤ length (availableDrivers w).
Proof.
  world_cases w; unfold trace; cbn; intros Hl; try by apply elem_of_nil in Hl.
  apply list_elem_of_singleton in Hl as ->. eexists.
  split; [apply logLine_reports|]. unfold deliver, message. simpl.
  split; [done|].
  pose proof (filter_length_le (reaches (devices w))
                (tokensOf (availableDrivers w))) as Hreach.
  pose proof (length_tokensOf_le (availableDrivers w)) as Htokens.
  split; [done|]. etrans; [exact Hreach|exact Htokens].
Qed.

(** C38: the function keeps no record of the requests it has handled.
    Invoked a second time for the same request, with the services
    answering and the drivers unchanged, it queries and sends again: the
    push service accepts the same message twice and every driver
    addressed is notified twice. *)
Theorem second_invocation_notifies_again snap context (w : world) :
  is_Some (snap_fields snap) →
  firestore_up w = true → messaging_up w = true →
  tokensOf (availableDrivers w) ≠ [] →
  let m := message (tokensOf (availableDrivers w)) in
  let r1 := exec (sendDriverNotification snap context) w in
  let r2 := exec (sendDriverNotification snap context) (final r1) in
  settled r1 = Resolved tt ∧ settled r2 = Resolved tt ∧
  accepted (trace r1) = [m] ∧ accepted (trace r2) = [m] ∧
  outbox (final r2) = outbox w ++ [m; m].
Proof.
  intros Hdata Hfs Hfcm Htok. cbv zeta. unfold final, settled, trace.
  rewrite (exec_world_sent snap context w) by done. cbn [fst snd].
  rewrite (exec_world_sent snap context (extend _ _ w)) by done.
  cbn. by rewrite <-(assoc_L (++)).
Qed.

(** A token that is not a string names no device. *)
Lemma reaches_not_string (devices : registry) (token : value) :
  (∀ s, token ≠ VString s) → reaches devices token = false.
Proof. intros Hs. destruct token; try done. by destruct (Hs s). Qed.

(** C40: the loop tests a token for truthiness only (line 20).  The
    [fcmToken] of an available driver that is truthy and not a string
    (the boolean [true], a number, an object) is sent to the push service
    among the tokens of the message, which the push service accepts; it
    names no device, so the count logged is smaller than the number of
    tokens sent.  Nothing of this is reported as an error. *)
Theorem malformed_tokens_are_forwarded snap context (w : world)
    (d : document) :
  is_Some (snap_fields snap) →
  firestore_up w = true → messaging_up w = true →
  d ∈ availableDrivers w → ToBoolean (fcmToken d) = true →
  (∀ s, fcmToken d ≠ VString s) →
  let r := exec (sendDriverNotification snap context) w in
  ∃ m response,
    settled r = Resolved tt ∧
    trace r = [EvGet driversQuery (Ok (availableDrivers w));
               EvSend m (Ok response); EvLog (logLine response)] ∧
    outbox (final r) = outbox w ++ [m] ∧
    fcmToken d ∈ tokens m ∧
    successCount response < length (tokens m).
Proof.
  intros Hdata Hfs Hfcm Hd Htrue Hstr. cbv zeta.
  assert (fcmToken d ∈ tokensOf (availableDrivers w)) as Hin
    by (apply elem_of_tokensOf; eauto).
  rewrite exec_world_sent; [|done..|by intros E; rewrite E in Hin; inv Hin].
  eexists _, _. repeat split; [done|].
  apply (filter_length_lt _ _ _ Hin), reaches_not_string, Hstr.
Qed.

(** * Worked runs *)

(** A driver that holds a token but is not available. *)
Definition driverD : document :=
  Document "d" [("isAvailable", VBoolean false); ("fcmToken", VString "D")].

(** A town with four drivers; only the device of A can be reached. *)
Definition town : world :=
  {| db := {[ "drivers" := [driverA; driverB; driverC; driverD] ]};
     devices := ["A"];
     outbox := []; console_lines := [];
     firestore_up := true; messaging_up := true |}.

Lemma town_available : availableDrivers town = [driverA; driverB; driverC].
Proof. by vm_compute. Qed.

Lemma available_drivers_notified_witness :
  ∃ m, outbox (final (exec (sendDriverNotification request ctx) town))
       = outbox town ++ [m] ∧
       (VString "A" ∈ tokens m ↔
        ToBoolean (VString "A") = true ∧
        ∃ d, d ∈ db town !!! "drivers" ∧ isAvailable d = true ∧
             fcmToken d = VString "A").
Proof.
  apply (available_drivers_notified request ctx town (VString "A"));
    [done..|]. by rewrite town_available.
Defined.

Lemma unavailable_driver_not_notified_witness :
  ∃ d, d ∈ db town !!! "drivers" ∧ isAvailable d = true ∧
       fcmToken d = VString "B" ∧ ToBoolean (VString "B") = true.
Proof.
  apply (unavailable_driver_not_notified request ctx town
           (message [VString "A"; VString "B"]) (VString "B")).
  - rewrite exec_world. simpl. rewrite town_available. cbn. left.
  - right. left.
Defined.

Lemma logged_count_bounded_witness :
  ∃ n, the_number "✅ Sent to 1 drivers." = Some n ∧
       n = length (List.filter (reaches (devices town))
                     (tokensOf (availableDrivers town))) ∧
       n ≤ length (tokensOf (availableDrivers town)) ∧
       n ≤ length (availableDrivers town).
Proof.
  apply (logged_count_bounded request ctx town).
  rewrite exec_world. simpl. rewrite town_available. cbn. left.
Defined.

(** In the town above the function notifies A and B, in that order,
    skips C (no token) and D (not available), and logs that one
    notification was delivered: the device of B is not reachable, which
    the function neither detects nor reports beyond the count. *)
Example town_run :
  let r := exec (sendDriverNotification request ctx) town in
  settled r = Resolved tt ∧
  outbox (final r) = [message [VString "A"; VString "B"]] ∧
  console_lines (final r) = ["✅ Sent to 1 drivers."] ∧
  db (final r) = db town.
Proof.
  cbv zeta. rewrite exec_world. simpl. rewrite town_available. by cbn.
Qed.

Lemma second_invocation_notifies_again_witness :
  let m := message (tokensOf (availableDrivers town)) in
  let r1 := exec (sendDriverNotification request ctx) town in
  let r2 := exec (sendDriverNotification request ctx) (final r1) in
  settled r1 = Resolved tt ∧ settled r2 = Resolved tt ∧
  accepted (trace r1) = [m] ∧ accepted (trace r2) = [m] ∧
  outbox (final r2) = outbox town ++ [m; m].
Proof.
  apply (second_invocation_notifies_again request ctx town); [done..|].
  by rewrite town_available.
Defined.

(** A village whose first driver record holds a token that is not a
    string. *)
Definition village : world :=
  {| db := {[ "drivers" := [driverE; driverA] ]};
     devices := ["A"];
     outbox := []; console_lines := [];
     firestore_up := true; messaging_up := true |}.

Lemma village_available : availableDrivers village = [driverE; driverA].
Proof. by vm_compute. Qed.

Lemma malformed_tokens_are_forwarded_witness :
  let r := exec (sendDriverNotification request ctx) village in
  ∃ m response,
    settled r = Resolved tt ∧
    trace r = [EvGet driversQuery (Ok (availableDrivers village));
               EvSend m (Ok response); EvLog (logLine response)] ∧
    outbox (final r) = outbox village ++ [m] ∧
    fcmToken driverE ∈ tokens m ∧
    successCount response < length (tokens m).
Proof.
  apply (malformed_tokens_are_forwarded request ctx village driverE);
    [done..| |done|by intros s].
  rewrite village_available. by left.
Defined.

(** In the village the function sends [true] and the token of A, and
    logs that one notification was delivered. *)
Example village_run :
  let r := exec (sendDriverNotification request ctx) village in
  outbox (final r) = [message [VBoolean true; VString "A"]] ∧
  console_lines (final r) = ["✅ Sent to 1 drivers."].
Proof.
  cbv zeta. rewrite exec_world. simpl. rewrite village_available. by cbn.
Qed.
