(* ===== verification/Limits.v ===== *)
(** * The limits of a multicast

    Line 33 of [index.js] hands the whole token list to [sendMulticast] in
    one call, whatever its length.  The specification asks for exactly
    that and states no bound; a push service has one, and it refuses an
    empty list as well.  [limited W] is the platform [W] with that check
    in front of its push service; the bound is a parameter of the
    platform, since neither the source nor the specification fixes it.

    The file shows what the early return of line 23 is for (the handler
    never hands over an empty list, so that half of the check never
    fires), that below the bound the handler runs as it does without the
    check, and what happens above it: the send is refused before it
    reaches the push service, the invocation rejects, nobody is notified,
    and running the handler again changes nothing. *)

From stdpp Require Import gmap.
From S2P Require Import Prelude JsValue Firestore Messaging Program Spec Trigger Handler World.

(** * The check *)

(** A platform whose push service takes at most [max_tokens] tokens in a
    multicast. *)
Record limited (W : Type) : Type := Limited {
  max_tokens : nat;
  behind : W
}.
Arguments Limited {W} _ _.
Arguments max_tokens {W} _.
Arguments behind {W} _.

(** The check of the [tokens] of a multicast: a non-empty array of at
    most [limit] elements. *)
Definition admits (limit : nat) (message : MulticastMessage) : bool :=
  negb (length (tokens message) =? 0) && (length (tokens message) <=? limit).

(** The error of a refused argument. *)
Definition INVALID_ARGUMENT : error := "messaging/invalid-argument".

Definition with_behind {W} (w : W) (l : limited W) : limited W :=
  {| max_tokens := max_tokens l; behind := w |}.

(** The query and the console are those of [W]; a multicast reaches the
    push service of [W] when the check admits it, and is refused without
    reaching it otherwise. *)
#[export] Instance limited_platform `{Platform W} : Platform (limited W) := {|
  firestoreGet q l :=
    let '(r, w) := firestoreGet q (behind l) in (r, with_behind w l);
  sendMulticast message l :=
    if admits (max_tokens l) message then
      let '(r, w) := sendMulticast message (behind l) in (r, with_behind w l)
    else (Err INVALID_ARGUMENT, l);
  consoleLog line l := with_behind (consoleLog line (behind l)) l
|}.

(** A run of a program on [l] as the run [r] on the platform behind it. *)
Definition lifted {W A} (l : limited W) (r : outcome A * W * list event)
  : outcome A * limited W * list event :=
  (r.1.1, with_behind r.1.2 l, r.2).

(** * Facts *)

Lemma admits_iff (limit : nat) (message : MulticastMessage) :
  admits limit message = true ↔
  tokens message ≠ [] ∧ length (tokens message) ≤ limit.
Proof.
  unfold admits. rewrite andb_true_iff, negb_true_iff, Nat.eqb_neq,
    Nat.leb_le, length_zero_iff_nil. done.
Qed.

Lemma longer_not_nil {A} (n : nat) (l : list A) : n < length l → l ≠ [].
Proof. intros Hlt ->. simpl in Hlt. lia. Qed.

Lemma admits_message (limit : nat) (toks : list value) :
  toks ≠ [] → admits limit (message toks) = (length toks <=? limit).
Proof. intros Hne. unfold admits. simpl. by destruct toks. Qed.

Section limited_facts.
Context `{Platform W}.
Implicit Types (l : limited W) (w : W).

Lemma with_behind_behind l : with_behind (behind l) l = l.
Proof. by destruct l. Qed.

Lemma perform_admitted {X} (c : call X) l :
  match c with
  | SendMulticast m => admits (max_tokens l) m
  | FirestoreGet _ => true
  end = true →
  perform c l = ((perform c (behind l)).1,
                 with_behind (perform c (behind l)).2 l).
Proof.
  destruct c as [q|m]; simpl.
  - intros _. by destruct (firestoreGet q (behind l)).
  - intros ->. by destruct (sendMulticast m (behind l)).
Qed.

(** The check is a layer on the platform behind it: a query always
    passes, a multicast passes when the check admits it. *)
#[export] Instance limited_layer : Layer (limited W) W := {|
  beneath := behind;
  rebase := with_behind;
  passes l X c :=
    match c with
    | SendMulticast m => admits (max_tokens l) m
    | FirestoreGet _ => true
    end;
  rebase_beneath := with_behind_behind;
  beneath_rebase w l := eq_refl;
  rebase_rebase w w' l := eq_refl;
  passes_rebase w l X c := eq_refl;
  perform_passes l X c := perform_admitted c l;
  consoleLog_rebase line l := eq_refl
|}.

Lemma passed_admitted l (t : list event) :
  Forall (λ m, admits (max_tokens l) m = true) (sent t) → passed l t.
Proof.
  unfold passed. induction t as [|[q r|m r|line] t IH]; csimpl;
    [constructor|..]; rewrite ?Forall_cons; naive_solver.
Qed.

(** A program whose multicasts pass the check runs as it does behind
    it. *)
Lemma exec_admitted {A} (pr : prog A) l :
  Forall (λ m, admits (max_tokens l) m = true) (sent (exec pr (behind l)).2) →
  exec pr l = lifted l (exec pr (behind l)).
Proof.
  intros Hsent%passed_admitted. exact (exec_layer (W:=W) pr l Hsent).
Qed.

(** The run of the handler in front of the check, call by call. *)
Lemma exec_limited snap context l :
  exec (sendDriverNotification snap context) l =
    if negb (ToBoolean (data snap)) then (Resolved tt, l, []) else
    match firestoreGet driversQuery (behind l) with
    | (Err e, w1) =>
        (Rejected e, with_behind w1 l, [EvGet driversQuery (Err e)])
    | (Ok drivers, w1) =>
        let get := EvGet driversQuery (Ok drivers) in
        if bool_decide (tokensOf drivers = [])
        then (Resolved tt, with_behind w1 l, [get])
        else
          let m := message (tokensOf drivers) in
          if length (tokensOf drivers) <=? max_tokens l then
            match sendMulticast m w1 with
            | (Err e, w2) =>
                (Rejected e, with_behind w2 l, [get; EvSend m (Err e)])
            | (Ok response, w2) =>
                (Resolved tt,
                 with_behind (consoleLog (logLine response) w2) l,
                 [get; EvSend m (Ok response); EvLog (logLine response)])
            end
          else (Rejected INVALID_ARGUMENT, with_behind w1 l,
                [get; EvSend m (Err INVALID_ARGUMENT)])
    end.
Proof.
  rewrite exec_sendDriverNotification. destruct (negb _); [done|]. simpl.
  destruct (firestoreGet driversQuery (behind l)) as [[drivers|e] w1]; [|done].
  case_bool_decide; [done|]. simpl. rewrite admits_message by done.
  destruct (_ <=? _); [|done].
  by destruct (sendMulticast _ w1) as [[response|e] w2].
Qed.

(** C20: below the bound the check is invisible: when the truthy tokens of
    the drivers the query returns are at most [max_tokens], the handler
    runs in front of the check as it does behind it.  The list may be
    empty: the early return of line 23 keeps an empty list from being
    sent, so the check for emptiness never fires. *)
Theorem within_the_limit_runs_unchecked snap context l :
  (∀ drivers w1, firestoreGet driversQuery (behind l) = (Ok drivers, w1) →
                 length (tokensOf drivers) ≤ max_tokens l) →
  exec (sendDriverNotification snap context) l
  = lifted l (exec (sendDriverNotification snap context) (behind l)).
Proof.
  intros Hle. apply exec_admitted. rewrite exec_sendDriverNotification.
  destruct (negb _); [constructor|].
  destruct (firestoreGet driversQuery (behind l)) as [[drivers|e] w1] eqn:E;
    [|constructor].
  case_bool_decide; [constructor|].
  assert (admits (max_tokens l) (message (tokensOf drivers)) = true).
  { apply admits_iff. split; [done|]. by eapply Hle. }
  cbv zeta.
  destruct (sendMulticast (message (tokensOf drivers)) w1) as [[response|e] w2];
    by repeat constructor.
Qed.

(** C19: above the bound nobody is notified: when the drivers the query
    returns hold more truthy tokens than [max_tokens], the multicast is
    refused before it reaches the push service, the invocation rejects
    with the error of the check, and nothing is logged. *)
Theorem oversized_multicast_rejected snap context l drivers w1 :
  is_Some (snap_fields snap) →
  firestoreGet driversQuery (behind l) = (Ok drivers, w1) →
  max_tokens l < length (tokensOf drivers) →
  exec (sendDriverNotification snap context) l
  = (Rejected INVALID_ARGUMENT, with_behind w1 l,
     [EvGet driversQuery (Ok drivers);
      EvSend (message (tokensOf drivers)) (Err INVALID_ARGUMENT)]).
Proof.
  intros Hdata%data_truthy_iff Hget Hlt. rewrite exec_limited, Hdata, Hget.
  simpl. rewrite bool_decide_eq_false_2 by (by eapply longer_not_nil).
  by rewrite leb_correct_conv.
Qed.

End limited_facts.

(** * In front of the database and the push service *)

(** The refusal leaves the platform as it was: when more drivers are
    available with a token than the push service takes, the invocation
    rejects and the database, the outbox and the console are untouched. *)
Lemma exec_oversized snap context (limit : nat) (w : world) :
  is_Some (snap_fields snap) → firestore_up w = true →
  limit < length (tokensOf (availableDrivers w)) →
  exec (sendDriverNotification snap context) (Limited limit w)
  = (Rejected INVALID_ARGUMENT, Limited limit w,
     [EvGet driversQuery (Ok (availableDrivers w));
      EvSend (message (tokensOf (availableDrivers w)))
             (Err INVALID_ARGUMENT)]).
Proof.
  intros Hdata%data_truthy_iff Hfs Hlt. rewrite exec_limited, Hdata. simpl.
  rewrite Hfs, runQuery_driversQuery.
  rewrite bool_decide_eq_false_2 by (by eapply longer_not_nil).
  by rewrite leb_correct_conv.
Qed.

(** Invoking the function again does not help: as long as the same
    drivers are available, every further invocation for the request is
    refused alike, however often the platform retries. *)
Corollary oversized_retries_are_refused snap context (limit n : nat)
    (w : world) :
  is_Some (snap_fields snap) → firestore_up w = true →
  limit < length (tokensOf (availableDrivers w)) →
  exec (sendDriverNotification snap context)
    (Nat.iter n (λ l, final (exec (sendDriverNotification snap context) l))
       (Limited limit w))
  = exec (sendDriverNotification snap context) (Limited limit w).
Proof.
  intros Hdata Hfs Hlt. f_equal. induction n as [|n IH]; [done|].
  rewrite Nat.iter_succ, IH. by rewrite exec_oversized.
Qed.

(** * Worked runs *)

(** The town of [World] behind a push service that takes two tokens, and
    behind one that takes a single token.  Two of its available drivers
    hold a token. *)
Lemma within_the_limit_runs_unchecked_witness :
  exec (sendDriverNotification request ctx) (Limited 2 town)
  = lifted (Limited 2 town) (exec (sendDriverNotification request ctx) town).
Proof.
  apply (within_the_limit_runs_unchecked request ctx (Limited 2 town)).
  intros drivers w1 [= <- <-]. vm_compute. lia.
Defined.

Lemma oversized_multicast_rejected_witness :
  exec (sendDriverNotification request ctx) (Limited 1 town)
  = (Rejected INVALID_ARGUMENT, Limited 1 town,
     [EvGet driversQuery (Ok [driverA; driverB; driverC]);
      EvSend (message (tokensOf [driverA; driverB; driverC]))
             (Err INVALID_ARGUMENT)]).
Proof.
  apply (oversized_multicast_rejected request ctx (Limited 1 town)
           [driverA; driverB; driverC] town).
  - done.
  - by vm_compute.
  - vm_compute. lia.
Defined.

(** In the town with a push service that takes one token per multicast,
    A and B are available and hold a token, and neither is notified: the
    outbox stays empty and nothing is logged. *)
Example town_over_the_limit :
  let r := exec (sendDriverNotification request ctx) (Limited 1 town) in
  settled r = Rejected INVALID_ARGUMENT ∧
  outbox (behind (final r)) = [] ∧ console_lines (behind (final r)) = [] ∧
  tokensOf (availableDrivers town) = [VString "A"; VString "B"].
Proof. by vm_compute. Qed.
