(* ===== verification/System.v ===== *)
(** * The deployed function: invocations interleaved with everything else

    Section 5 of the specification: every created request starts an
    invocation of its own; an invocation suspends at its two awaited calls
    and is resumed when the platform answers; between the suspension and
    the resumption anything can happen, other invocations and changes of
    the driver records included.  A [system] is the platform together with
    the invocations in flight; an [action] is one thing that happens; the
    theorems hold in every state the system can reach, that is, for every
    interleaving. *)

From Stdlib Require Import Ascii.
From stdpp Require Import gmap.
From S2P Require Import Prelude JsValue Firestore Messaging Program Spec Trigger Handler World.

(** * Changes of the database *)

(** Write a document into a collection: replace the document of that
    identifier, or append a new one. *)
Definition put (id : string) (fields : object) (docs : list document)
  : list document :=
  if bool_decide (id ∈ doc_id <$> docs)
  then (λ d, if decide (doc_id d = id) then Document id fields else d) <$> docs
  else docs ++ [Document id fields].

Definition remove (id : string) (docs : list document) : list document :=
  List.filter (λ d, negb (bool_decide (doc_id d = id))) docs.

(** The database after a change of a document that lies directly inside a
    collection; other paths are not modelled and leave it as it is. *)
Definition apply_change (c : change) (d : database) : database :=
  match segments (ch_path c), ch_kind c, ch_fields c with
  | [coll; id], (Created | Updated), Some fields =>
      <[coll := put id fields (d !!! coll)]> d
  | [coll; id], Deleted, _ => <[coll := remove id (d !!! coll)]> d
  | _, _, _ => d
  end.

(** A change is admissible when what it writes can be stored. *)
Definition admissible (c : change) : bool :=
  match ch_fields c with
  | Some fields => stored_object fields
  | None => true
  end.

(** * Systems and actions *)

(** An invocation: the snapshot it was started with, where it stands, what
    it has done so far, and how often it has been resumed. *)
Record invocation : Type := Invocation {
  inv_snap : DocumentSnapshot;
  inv_task : task unit;
  inv_trace : list event;
  inv_resumed : nat
}.

(** The platform and the invocations in creation order. *)
Record system : Type := System {
  world_of : world;
  invocations_of : list invocation
}.

Variant action : Type :=
| Commit (c : change)
| Devices (ds : registry)
| Switch (firestore messaging : bool)
| Resume (i : nat).

Definition with_db (d : database) (w : world) : world :=
  {| db := d; devices := devices w; outbox := outbox w;
     console_lines := console_lines w;
     firestore_up := firestore_up w; messaging_up := messaging_up w |}.

Definition with_devices (ds : registry) (w : world) : world :=
  {| db := db w; devices := ds; outbox := outbox w;
     console_lines := console_lines w;
     firestore_up := firestore_up w; messaging_up := messaging_up w |}.

Definition with_switches (fs fcm : bool) (w : world) : world :=
  {| db := db w; devices := devices w; outbox := outbox w;
     console_lines := console_lines w;
     firestore_up := fs; messaging_up := fcm |}.

(** Start the invocations a change causes: each runs up to its first
    suspension. *)
Fixpoint start_all (snap : DocumentSnapshot) (ps : list (prog unit))
    (w : world) : list invocation * world :=
  match ps with
  | [] => ([], w)
  | p :: ps' =>
      let '(t, w', ev) := advance p w in
      let '(invs, w'') := start_all snap ps' w' in
      ({| inv_snap := snap; inv_task := t; inv_trace := ev;
          inv_resumed := 0 |} :: invs, w'')
  end.

Definition resumed (inv : invocation) (t : task unit) (ev : list event)
  : invocation :=
  {| inv_snap := inv_snap inv; inv_task := t;
     inv_trace := inv_trace inv ++ ev;
     inv_resumed := S (inv_resumed inv) |}.

Definition is_settled {A} (t : task A) : bool :=
  match t with Settled _ => true | Suspended _ _ => false end.

(** One action.  [None] when the action is not possible in the state: a
    change that cannot be stored, the resumption of an invocation that
    does not exist or has settled. *)
Definition step (a : action) (s : system) : option system :=
  match a with
  | Commit c =>
      if admissible c then
        let w := with_db (apply_change c (db (world_of s))) (world_of s) in
        let snap := {| snap_path := ch_path c; snap_fields := ch_fields c |} in
        let '(invs, w') := start_all snap (invocations exports c) w in
        Some {| world_of := w';
                invocations_of := invocations_of s ++ invs |}
      else None
  | Devices ds =>
      Some {| world_of := with_devices ds (world_of s);
              invocations_of := invocations_of s |}
  | Switch fs fcm =>
      Some {| world_of := with_switches fs fcm (world_of s);
              invocations_of := invocations_of s |}
  | Resume i =>
      inv ← invocations_of s !! i;
      if is_settled (inv_task inv) then None
      else
        let '(t, w', ev) := resume (inv_task inv) (world_of s) in
        Some {| world_of := w';
                invocations_of := <[i := resumed inv t ev]> (invocations_of s) |}
  end.

(** The states a system can reach from [s0]. *)
Inductive reachable (s0 : system) : system → Prop :=
| reachable_start : reachable s0 s0
| reachable_step s a s' :
    reachable s0 s → step a s = Some s' → reachable s0 s'.

(** A system that has just been deployed: nothing sent, nothing logged, no
    invocation yet. *)
Definition deployed (w : world) : system :=
  {| world_of := with_db (db w) (with_devices (devices w)
                   {| db := ∅; devices := []; outbox := []; console_lines := [];
                      firestore_up := firestore_up w;
                      messaging_up := messaging_up w |});
     invocations_of := [] |}.

(** Run a list of actions; [None] as soon as one is not possible. *)
Fixpoint steps (acts : list action) (s : system) : option system :=
  match acts with
  | [] => Some s
  | a :: acts' => s' ← step a s; steps acts' s'
  end.

(** The invocations a change starts in a state, and the platform after
    their synchronous parts. *)
Definition started (c : change) (s : system) : list invocation * world :=
  start_all {| snap_path := ch_path c; snap_fields := ch_fields c |}
    (invocations exports c)
    (with_db (apply_change c (db (world_of s))) (world_of s)).

(** The state after the platform answered the call invocation [i], which
    is [inv], waits for. *)
Definition resume_at (i : nat) (inv : invocation) (s : system) : system :=
  let r := resume (inv_task inv) (world_of s) in
  {| world_of := r.1.2;
     invocations_of := <[i := resumed inv r.1.1 r.2]> (invocations_of s) |}.

(** ** What is observed of a system *)

(** Everything the invocations had accepted and logged, by invocation. *)
Definition all_accepted (s : system) : list MulticastMessage :=
  invocations_of s ≫= (λ inv, accepted (inv_trace inv)).

Definition all_logged (s : system) : list string :=
  invocations_of s ≫= (λ inv, logged (inv_trace inv)).

(** What an action does to the database, and the snapshots it invokes the
    function with. *)
Definition committed (d : database) (a : action) : database :=
  match a with Commit c => apply_change c d | _ => d end.

Definition triggers (a : action) : list DocumentSnapshot :=
  match a with
  | Commit c =>
      (λ _, {| snap_path := ch_path c; snap_fields := ch_fields c |})
        <$> invocations exports c
  | _ => []
  end.

(** ** Properties of one invocation *)

(** The invocation has so far done, and can only go on to do, what the
    contract allows. *)
Definition allowed (inv : invocation) : Prop :=
  always_task (inv_trace inv) (inv_task inv) (notifies (inv_snap inv)).

(** The invocation was resumed at most twice and awaits at most the calls
    that are left of the two. *)
Definition bounded (inv : invocation) : Prop :=
  inv_resumed inv ≤ 2 ∧ within_task (2 - inv_resumed inv) (inv_task inv).

(** The invocation was resumed once for every call it has had
    answered. *)
Definition counted (inv : invocation) : Prop :=
  inv_resumed inv = awaited (inv_trace inv).

(** In the run [acts] from [s0], the platform answers the query of
    invocation [i] in the state [s1]: a beginning of the run leads to
    [s1], where the invocation has not been resumed yet and is suspended
    at the query for the available drivers, and the next action of the
    run resumes it. *)
Definition query_answered (s0 : system) (acts : list action) (i : nat)
    (s1 : system) : Prop :=
  ∃ acts1 acts2 inv k,
    acts = acts1 ++ Resume i :: acts2 ∧ steps acts1 s0 = Some s1 ∧
    invocations_of s1 !! i = Some inv ∧ inv_resumed inv = 0 ∧
    inv_task inv = Suspended (FirestoreGet driversQuery) k.

(** * The actions, one by one *)

Lemma step_Commit (c : change) (s s' : system) :
  step (Commit c) s = Some s' ↔
  admissible c = true ∧
  s' = {| world_of := (started c s).2;
          invocations_of := invocations_of s ++ (started c s).1 |}.
Proof.
  unfold started. cbn [step]. destruct (admissible c).
  2: { split; [done|]. by intros [? _]. }
  destruct (start_all _ _ _) as [invs w']. simpl. split.
  - by intros [= <-].
  - by intros [_ ->].
Qed.

Lemma step_Resume (i : nat) (s s' : system) :
  step (Resume i) s = Some s' ↔
  ∃ inv, invocations_of s !! i = Some inv ∧
         is_settled (inv_task inv) = false ∧
         let r := resume (inv_task inv) (world_of s) in
         s' = {| world_of := r.1.2;
                 invocations_of :=
                   <[i := resumed inv r.1.1 r.2]> (invocations_of s) |}.
Proof.
  cbn [step]. destruct (invocations_of s !! i) as [inv|]; simpl.
  2: { split; [done|]. by intros (? & ? & _). }
  destruct (is_settled (inv_task inv)) eqn:Hs.
  { split; [done|]. intros (inv' & [= <-] & ? & _). congruence. }
  destruct (resume (inv_task inv) (world_of s)) as [[t w'] ev] eqn:Hr. split.
  - intros [= <-]. exists inv. by rewrite Hr.
  - intros (inv' & [= <-] & _ & ->). by rewrite Hr.
Qed.

Lemma step_Commit_eq (c : change) (s : system) :
  step (Commit c) s =
    if admissible c
    then Some {| world_of := (started c s).2;
                 invocations_of := invocations_of s ++ (started c s).1 |}
    else None.
Proof.
  unfold started. cbn [step]. destruct (admissible c); [|done].
  by destruct (start_all _ _ _).
Qed.

Lemma step_Resume_eq (i : nat) (s : system) :
  step (Resume i) s =
    inv ← invocations_of s !! i;
    if is_settled (inv_task inv) then None else Some (resume_at i inv s).
Proof.
  unfold resume_at. cbn [step]. destruct (invocations_of s !! i) as [inv|];
    simpl; [|done].
  destruct (is_settled _); [done|]. by destruct (resume _ _) as [[] ?].
Qed.

(** Resuming the youngest invocation. *)
Lemma step_Resume_last (invs : list invocation) (inv : invocation)
    (w : world) :
  is_settled (inv_task inv) = false →
  step (Resume (length invs))
    {| world_of := w; invocations_of := invs ++ [inv] |}
  = Some {| world_of := (resume (inv_task inv) w).1.2;
            invocations_of :=
              invs ++ [resumed inv (resume (inv_task inv) w).1.1
                                   (resume (inv_task inv) w).2] |}.
Proof.
  intros Hpending. rewrite step_Resume_eq. cbn [invocations_of].
  rewrite list_lookup_middle by done. cbn [mbind option_bind].
  rewrite Hpending. unfold resume_at. cbn [world_of invocations_of].
  do 2 f_equal.
  rewrite <-(Nat.add_0_r (length invs)) at 1. by rewrite insert_app_r.
Qed.

(** Resuming the only invocation. *)
Lemma step_Resume_only (inv : invocation) (w : world) :
  is_settled (inv_task inv) = false →
  step (Resume 0) {| world_of := w; invocations_of := [inv] |}
  = Some {| world_of := (resume (inv_task inv) w).1.2;
            invocations_of :=
              [resumed inv (resume (inv_task inv) w).1.1
                           (resume (inv_task inv) w).2] |}.
Proof. apply (step_Resume_last [] inv w). Qed.

(** What a change starts: nothing, or one invocation of the handler. *)
Lemma started_none (c : change) (s : system) :
  invocations exports c = [] →
  started c s = ([], with_db (apply_change c (db (world_of s))) (world_of s)).
Proof. intros Hinv. unfold started. by rewrite Hinv. Qed.

Lemma started_one (c : change) (h : prog unit) (s : system) :
  invocations exports c = [h] →
  let r := advance h (with_db (apply_change c (db (world_of s))) (world_of s)) in
  started c s
  = ([{| inv_snap := {| snap_path := ch_path c; snap_fields := ch_fields c |};
         inv_task := r.1.1; inv_trace := r.2; inv_resumed := 0 |}], r.1.2).
Proof.
  intros Hinv. unfold started. rewrite Hinv. cbn [start_all].
  by destruct (advance h _) as [[t w'] ev].
Qed.

(** * Induction over reachable states *)

Lemma reachable_ind_inv (s0 : system) (P : system → Prop) :
  P s0 →
  (∀ s a s', reachable s0 s → P s → step a s = Some s' → P s') →
  ∀ s, reachable s0 s → P s.
Proof. intros H0 Hstep s Hs. induction Hs; eauto. Qed.

Lemma reachable_trans (s0 s1 s2 : system) :
  reachable s0 s1 → reachable s1 s2 → reachable s0 s2.
Proof. intros H1 H2. induction H2; [done|]. by eapply reachable_step. Qed.

Lemma steps_reachable (acts : list action) (s s' : system) :
  steps acts s = Some s' → reachable s s'.
Proof.
  revert s. induction acts as [|a acts IH]; intros s; simpl.
  - intros [= ->]. constructor.
  - destruct (step a s) as [s1|] eqn:E; simpl; [|done]. intros Hs.
    eapply reachable_trans; [|by apply IH].
    eapply reachable_step; [constructor|done].
Qed.

(** An invariant of the invocations: a property of each invocation that
    holds when it starts and is kept by its resumptions holds of every
    invocation of every reachable state. *)
Section invocation_invariant.
Context (P : invocation → Prop).
Hypothesis P_start : ∀ snap context w,
  let '(t, _, ev) := advance (sendDriverNotification snap context) w in
  P {| inv_snap := snap; inv_task := t; inv_trace := ev; inv_resumed := 0 |}.
Hypothesis P_resume : ∀ inv w,
  P inv → is_settled (inv_task inv) = false →
  let '(t, _, ev) := resume (inv_task inv) w in P (resumed inv t ev).

Lemma start_all_invariant (c : change) (w : world) :
  Forall P (start_all {| snap_path := ch_path c; snap_fields := ch_fields c |}
              (invocations exports c) w).1.
Proof using P_start.
  destruct (invocations_exports c) as [->|[id ->]]; simpl; [done|].
  pose proof (P_start {| snap_path := ch_path c; snap_fields := ch_fields c |}
                {| params := [("requestId", id)] |} w) as HP.
  destruct (advance _ w) as [[t w'] ev]. simpl. by constructor.
Qed.

Lemma started_invariant (c : change) (s : system) :
  Forall P (started c s).1.
Proof using P_start. apply start_all_invariant. Qed.

Lemma step_invocation_invariant (a : action) (s s' : system) :
  Forall P (invocations_of s) → step a s = Some s' →
  Forall P (invocations_of s').
Proof using P_start P_resume.
  intros HP. destruct a as [c|ds|fs fcm|i].
  - intros [_ ->]%step_Commit. simpl.
    apply Forall_app. split; [done|apply started_invariant].
  - by intros [= <-].
  - by intros [= <-].
  - intros (inv & Hi & Hset & ->)%step_Resume. simpl.
    apply Forall_insert; [done|].
    pose proof (P_resume inv (world_of s)) as Hres.
    destruct (resume (inv_task inv) (world_of s)) as [[t w'] ev].
    apply Hres; [|done]. by eapply Forall_lookup_1.
Qed.

Lemma reachable_invocation_invariant (w : world) (s : system) :
  reachable (deployed w) s → Forall P (invocations_of s).
Proof using P_start P_resume.
  intros Hs. induction Hs as [|s a s' _ IH Hstep]; [by constructor|].
  by eapply step_invocation_invariant.
Qed.

End invocation_invariant.

(** * The invariants of an invocation *)

Lemma allowed_start snap context (w : world) :
  let '(t, _, ev) := advance (sendDriverNotification snap context) w in
  allowed {| inv_snap := snap; inv_task := t; inv_trace := ev;
             inv_resumed := 0 |}.
Proof.
  pose proof (always_advance (sendDriverNotification snap context)
                (notifies snap) [] w
                (sendDriverNotification_always snap context)) as Hadv.
  by destruct (advance _ w) as [[t w'] ev].
Qed.

Lemma allowed_resume (inv : invocation) (w : world) :
  allowed inv → is_settled (inv_task inv) = false →
  let '(t, _, ev) := resume (inv_task inv) w in allowed (resumed inv t ev).
Proof.
  intros Hinv _.
  pose proof (always_resume (inv_task inv) (notifies (inv_snap inv))
                (inv_trace inv) w Hinv) as Hres.
  by destruct (resume _ w) as [[t w'] ev].
Qed.

Lemma bounded_start snap context (w : world) :
  let '(t, _, ev) := advance (sendDriverNotification snap context) w in
  bounded {| inv_snap := snap; inv_task := t; inv_trace := ev;
             inv_resumed := 0 |}.
Proof.
  pose proof (within_advance 2 (sendDriverNotification snap context) w
                (sendDriverNotification_within snap context)) as Hadv.
  destruct (advance _ w) as [[t w'] ev]. split; [simpl; lia|done].
Qed.

Lemma bounded_resume (inv : invocation) (w : world) :
  bounded inv → is_settled (inv_task inv) = false →
  let '(t, _, ev) := resume (inv_task inv) w in bounded (resumed inv t ev).
Proof.
  intros [Hle Hin] Hpending.
  assert (inv_resumed inv < 2) as Hlt.
  { destruct (inv_task inv) as [X c k|o]; [|done].
    destruct (decide (inv_resumed inv = 2)) as [E|]; [|lia].
    by rewrite E in Hin. }
  replace (2 - inv_resumed inv) with (S (2 - S (inv_resumed inv))) in Hin by lia.
  pose proof (within_resume _ (inv_task inv) w Hin) as Hres.
  destruct (resume _ w) as [[t w'] ev]. split; [simpl; lia|done].
Qed.

Lemma reachable_allowed (w : world) (s : system) :
  reachable (deployed w) s → Forall allowed (invocations_of s).
Proof.
  apply reachable_invocation_invariant; [apply allowed_start|apply allowed_resume].
Qed.

Lemma reachable_bounded (w : world) (s : system) :
  reachable (deployed w) s → Forall bounded (invocations_of s).
Proof.
  apply reachable_invocation_invariant; [apply bounded_start|apply bounded_resume].
Qed.

(** C11: under every interleaving of changes of the database, changes of the
    services and resumptions of other invocations, an invocation that has
    settled made exactly the calls the contract allows for its snapshot and
    settled the way the contract says. *)
Theorem interleaved_invocation_keeps_contract (w : world) (s : system)
    (inv : invocation) (o : outcome unit) :
  reachable (deployed w) s → inv ∈ invocations_of s →
  inv_task inv = Settled o →
  notifies (inv_snap inv) (inv_trace inv) o.
Proof.
  intros Hs Hinv Ho. apply reachable_allowed in Hs.
  eapply Forall_forall in Hs; [|exact Hinv]. unfold allowed in Hs.
  by rewrite Ho in Hs.
Qed.

(** C24: an invocation is resumed at most twice, once per awaited call, and
    has settled when it was; an invocation that has not settled can be
    resumed.  Every invocation therefore settles once the platform has
    answered its calls, whatever else happens in between. *)
Theorem invocation_settles_after_two_answers (w : world) (s : system)
    (i : nat) (inv : invocation) :
  reachable (deployed w) s → invocations_of s !! i = Some inv →
  inv_resumed inv ≤ 2 ∧
  (inv_resumed inv = 2 → is_settled (inv_task inv) = true) ∧
  (is_settled (inv_task inv) = false → is_Some (step (Resume i) s)).
Proof.
  intros Hs Hi. apply reachable_bounded in Hs.
  eapply Forall_lookup_1 in Hs as [Hle Hin]; [|exact Hi].
  split; [done|split].
  - intros E. rewrite E in Hin. by apply within_0_Settled in Hin as [o ->].
  - intros Hpending. destruct (step (Resume i) s) as [s'|] eqn:E; [done|].
    exfalso. assert (is_Some (step (Resume i) s)) as [? ?]; [|congruence].
    eexists. apply step_Resume. by exists inv.
Qed.

(** * What the actions do to the platform *)

(** The invocations a change starts have made no call yet; their
    synchronous parts may only have logged. *)
Lemma start_all_spec snap (ps : list (prog unit)) (w : world) :
  (start_all snap ps w).2
  = extend [] ((start_all snap ps w).1 ≫= (λ inv, logged (inv_trace inv))) w ∧
  Forall (λ inv, inv_snap inv = snap ∧
                 Forall (λ e, is_log e = true) (inv_trace inv))
         (start_all snap ps w).1.
Proof.
  revert w. induction ps as [|p ps IH]; intros w; simpl.
  { by rewrite extend_nil. }
  pose proof (advance_extend p w) as Hw. pose proof (advance_logs p w) as Hl.
  destruct (advance p w) as [[t w1] ev]. simpl in *.
  destruct (IH w1) as [IHw IHl].
  destruct (start_all snap ps w1) as [invs w2]. simpl in *. split.
  - by rewrite IHw, Hw, extend_extend.
  - by constructor.
Qed.

Lemma start_all_indep snap (ps : list (prog unit)) (w1 w2 : world) :
  (start_all snap ps w1).1 = (start_all snap ps w2).1.
Proof.
  revert w1 w2. induction ps as [|p ps IH]; intros w1 w2; simpl; [done|].
  destruct (advance_indep p w1 w2) as [Ht Hev].
  destruct (advance p w1) as [[t1 w1'] ev1], (advance p w2) as [[t2 w2'] ev2].
  specialize (IH w1' w2').
  destruct (start_all snap ps w1'), (start_all snap ps w2').
  simpl in *. by subst.
Qed.

Lemma started_accepted (c : change) (s : system) :
  (started c s).1 ≫= (λ inv, accepted (inv_trace inv)) = [].
Proof.
  apply bind_all_nil. eapply Forall_impl; [apply start_all_spec|].
  intros inv [_ Hl]. by apply accepted_logs.
Qed.

Lemma started_snaps (c : change) (s : system) :
  inv_snap <$> (started c s).1 = triggers (Commit c).
Proof.
  unfold started, triggers. generalize (invocations exports c).
  intros ps. generalize (with_db (apply_change c (db (world_of s))) (world_of s)).
  induction ps as [|p ps IH]; intros w; [done|]. cbn [start_all].
  destruct (advance p w) as [[t w1] ev]. specialize (IH w1).
  destruct (start_all _ ps w1). cbn [fst] in *. rewrite !fmap_cons.
  f_equal. exact IH.
Qed.

(** The state of the platform after an action. *)
Lemma step_world (a : action) (s s' : system) :
  step a s = Some s' →
  ∃ ms ls, similar (world_of s')
             (extend ms ls
                (match a with
                 | Commit c => with_db (apply_change c (db (world_of s)))
                 | Devices ds => with_devices ds
                 | Switch fs fcm => with_switches fs fcm
                 | Resume _ => id
                 end (world_of s))) ∧
           all_accepted s' ≡ₚ all_accepted s ++ ms ∧
           all_logged s' ≡ₚ all_logged s ++ ls.
Proof.
  unfold all_accepted, all_logged. destruct a as [c|ds|fs fcm|i].
  - intros [_ ->]%step_Commit. simpl.
    exists [], ((started c s).1 ≫= (λ inv, logged (inv_trace inv))).
    rewrite !bind_app, started_accepted. split; [|done].
    unfold started. by rewrite (proj1 (start_all_spec _ _ _)).
  - intros [= <-]. exists [], []. by rewrite extend_nil, !app_nil_r.
  - intros [= <-]. exists [], []. by rewrite extend_nil, !app_nil_r.
  - intros (inv & Hi & _ & ->)%step_Resume. simpl.
    eexists _, _. split; [by rewrite resume_extend|].
    split; (eapply bind_insert_app; [exact Hi|]); simpl.
    + apply accepted_app.
    + apply logged_app.
Qed.

Lemma step_db (a : action) (s s' : system) :
  step a s = Some s' → db (world_of s') = committed (db (world_of s)) a.
Proof.
  intros (ms & ls & ((Hdb & _) & _) & _)%step_world.
  rewrite <-Hdb. by destruct a.
Qed.

Lemma step_snaps (a : action) (s s' : system) :
  step a s = Some s' →
  inv_snap <$> invocations_of s' = (inv_snap <$> invocations_of s) ++ triggers a.
Proof.
  destruct a as [c|ds|fs fcm|i].
  - intros [_ ->]%step_Commit. simpl. by rewrite fmap_app, started_snaps.
  - intros [= <-]. by rewrite app_nil_r.
  - intros [= <-]. by rewrite app_nil_r.
  - intros (inv & Hi & _ & ->)%step_Resume. simpl.
    rewrite app_nil_r, list_fmap_insert. simpl.
    apply list_insert_id. by rewrite list_lookup_fmap, Hi.
Qed.

(** Induction over a run of actions. *)
Lemma steps_app (acts1 acts2 : list action) (s : system) :
  steps (acts1 ++ acts2) s = steps acts1 s ≫= steps acts2.
Proof.
  revert s. induction acts1 as [|a acts1 IH]; intros s; [done|].
  cbn [app steps]. destruct (step a s) as [s1|]; [|done]. apply IH.
Qed.

Lemma steps_cons_inv (a : action) acts (s s' : system) :
  steps (a :: acts) s = Some s' →
  ∃ s1, step a s = Some s1 ∧ steps acts s1 = Some s'.
Proof. simpl. destruct (step a s) as [s1|]; [eauto|done]. Qed.

(** The platform offers a program no call that writes: after a run of
    actions the database is the initial one with the committed changes
    applied in order. *)
Lemma steps_db (acts : list action) (s s' : system) :
  steps acts s = Some s' →
  db (world_of s') = foldl committed (db (world_of s)) acts.
Proof.
  revert s. induction acts as [|a acts IH]; intros s.
  - by intros [= ->].
  - intros (s1 & Ha & Hacts)%steps_cons_inv. simpl.
    by rewrite (IH _ Hacts), (step_db _ _ _ Ha).
Qed.

(** The invocations of a run are those of its request creations, one
    each and in creation order, each with the snapshot of its request. *)
Theorem invocations_in_creation_order (acts : list action) (w : world)
    (s : system) :
  steps acts (deployed w) = Some s →
  inv_snap <$> invocations_of s = acts ≫= triggers.
Proof.
  change (acts ≫= triggers)
    with ((inv_snap <$> invocations_of (deployed w)) ++ acts ≫= triggers).
  generalize (deployed w). revert s. induction acts as [|a acts IH]; intros s s0.
  - intros [= ->]. by rewrite app_nil_r.
  - intros (s1 & Ha & Hacts)%steps_cons_inv.
    rewrite (IH _ _ Hacts), (step_snaps _ _ _ Ha). csimpl.
    by rewrite (assoc_L (++)).
Qed.

Lemma reachable_accounts (w : world) (s : system) :
  reachable (deployed w) s →
  outbox (world_of s) ≡ₚ all_accepted s ∧
  console_lines (world_of s) ≡ₚ all_logged s.
Proof.
  induction 1 as [|s a s' _ [IHo IHc] Hstep]; [done|].
  apply step_world in Hstep as (ms & ls & (_ & Ho & Hc) & Ha & Hl).
  rewrite Ho, Hc, Ha, Hl. simpl. split; f_equiv; by destruct a.
Qed.

(** C22: the push service has accepted exactly the messages the invocations
    sent successfully, and the console shows exactly the lines they logged:
    nothing is lost and nothing is sent or printed twice, in any
    interleaving.  In particular at most one message is accepted per
    created request. *)
Theorem outbox_accounts_for_invocations (w : world) (s : system) :
  reachable (deployed w) s →
  outbox (world_of s) ≡ₚ all_accepted s ∧
  console_lines (world_of s) ≡ₚ all_logged s ∧
  length (console_lines (world_of s)) ≤ length (outbox (world_of s)) ∧
  length (outbox (world_of s)) ≤ length (invocations_of s).
Proof.
  intros Hs. destruct (reachable_accounts w s Hs) as [Ho Hc].
  split; [done|split; [done|]]. rewrite Ho, Hc.
  apply reachable_allowed in Hs. unfold all_accepted, all_logged. split.
  - induction Hs as [|inv invs Hinv _ IH]; csimpl; [lia|].
    rewrite !length_app. apply always_task_extends in Hinv as (t' & o & Hrun).
    pose proof (notifies_logged_accepted _ _ _ _ Hrun). lia.
  - etrans; [apply (length_bind_le _ _ 1)|lia].
    eapply Forall_impl; [exact Hs|]. intros inv Hinv. simpl in Hinv.
    apply always_task_extends in Hinv as (t' & o & Hrun).
    apply notifies_prefix_at_most_once in Hrun as [Hsent _].
    etrans; [apply length_accepted_le|done].
Qed.

(** * Where the tokens of a message come from *)

Lemma counted_start snap context (w : world) :
  let '(t, _, ev) := advance (sendDriverNotification snap context) w in
  counted {| inv_snap := snap; inv_task := t; inv_trace := ev;
             inv_resumed := 0 |}.
Proof.
  pose proof (advance_logs (sendDriverNotification snap context) w)
    as Hl%awaited_logs.
  by destruct (advance _ w) as [[t w'] ev].
Qed.

Lemma counted_resume (inv : invocation) (w : world) :
  counted inv → is_settled (inv_task inv) = false →
  let '(t, _, ev) := resume (inv_task inv) w in counted (resumed inv t ev).
Proof.
  unfold counted. intros Hinv Hpending.
  destruct (inv_task inv) as [X c k|o]; [|done].
  pose proof (awaited_resume c k w) as Hres.
  destruct (resume _ w) as [[t w'] ev]. simpl in *.
  rewrite awaited_app, Hres. lia.
Qed.

(** An invocation suspended at a query has done nothing yet, and the
    query is the query for the available drivers. *)
Lemma allowed_query (inv : invocation) q k :
  allowed inv → inv_task inv = Suspended (FirestoreGet q) k →
  inv_trace inv = [] ∧ q = driversQuery.
Proof.
  unfold allowed. intros Hinv Ht. rewrite Ht in Hinv.
  destruct Hinv as [He _]. specialize (He EmptyString).
  destruct (inv_trace inv) as [|e0 [|e1 [|e2 [|e3 t0]]]]; simpl in He;
    by inv He.
Qed.

(** One action adds the answer of a query to the trace of an invocation
    only by resuming it at its query, for the first time, and the answer
    is then read from the database of that moment. *)
Lemma step_query (a : action) (s s' : system) (i : nat) (inv' : invocation)
    q drivers :
  Forall allowed (invocations_of s) → Forall counted (invocations_of s) →
  step a s = Some s' → invocations_of s' !! i = Some inv' →
  EvGet q (Ok drivers) ∈ inv_trace inv' →
  (∃ inv, invocations_of s !! i = Some inv ∧
          EvGet q (Ok drivers) ∈ inv_trace inv) ∨
  (a = Resume i ∧ drivers = availableDrivers (world_of s) ∧
   ∃ inv k, invocations_of s !! i = Some inv ∧ inv_resumed inv = 0 ∧
            inv_task inv = Suspended (FirestoreGet driversQuery) k).
Proof.
  intros Hall Hcnt. destruct a as [c|ds|fs fcm|j].
  - intros [_ ->]%step_Commit. simpl.
    intros [Hi|[_ Hi]]%lookup_app_Some Hq; [left; eauto|].
    destruct (start_all_spec {| snap_path := ch_path c;
                                snap_fields := ch_fields c |}
                (invocations exports c)
                (with_db (apply_change c (db (world_of s))) (world_of s)))
      as [_ Hlogs].
    eapply Forall_lookup_1 in Hlogs as [_ Hlogs]; [|exact Hi].
    by eapply Forall_forall in Hlogs; [|exact Hq].
  - intros [= <-]. left. eauto.
  - intros [= <-]. left. eauto.
  - intros (inv & Hj & _ & ->)%step_Resume. simpl.
    intros [(-> & <- & _)|[Hij Hi]]%list_lookup_insert_Some; [|left; eauto].
    simpl. intros [Hq|Hq]%elem_of_app; [left; eauto|]. right.
    destruct (resume_get _ _ _ _ Hq) as [k Hk].
    eapply Forall_lookup_1 in Hall, Hcnt; [|exact Hj..].
    destruct (allowed_query inv q k Hall Hk) as [Htr ->].
    split; [done|]. split.
    { rewrite <-runQuery_driversQuery. by eapply resume_reads. }
    exists inv, k. unfold counted in Hcnt. by rewrite Htr in Hcnt.
Qed.

Lemma query_answered_cons (a : action) acts (s0 s s1 : system) (i : nat) :
  step a s0 = Some s → query_answered s acts i s1 →
  query_answered s0 (a :: acts) i s1.
Proof.
  intros Ha (acts1 & acts2 & inv & k & -> & Hs1 & Hrest).
  exists (a :: acts1), acts2, inv, k. split; [done|]. split; [|done].
  cbn [steps]. by rewrite Ha.
Qed.

(** An invocation stays where it is in the list, and the number of its
    resumptions only grows; its own resumption adds one. *)
Lemma step_resumed (a : action) (s s' : system) (i : nat) (inv : invocation) :
  step a s = Some s' → invocations_of s !! i = Some inv →
  ∃ inv', invocations_of s' !! i = Some inv' ∧
          inv_resumed inv ≤ inv_resumed inv' ∧
          (a = Resume i → inv_resumed inv' = S (inv_resumed inv)).
Proof.
  destruct a as [c|ds|fs fcm|j].
  - intros [_ ->]%step_Commit Hi. exists inv.
    split; [by apply lookup_app_l_Some|done].
  - intros [= <-] Hi. by exists inv.
  - intros [= <-] Hi. by exists inv.
  - intros (inv0 & Hj & _ & ->)%step_Resume Hi. simpl.
    destruct (decide (j = i)) as [->|Hij].
    + simplify_eq. eexists. split.
      { apply list_lookup_insert_eq. by eapply lookup_lt_Some. }
      simpl. split; [lia|done].
    + exists inv. rewrite list_lookup_insert_ne by done.
      split; [done|]. split; [done|]. by intros [= ->].
Qed.

Lemma steps_resumed (acts : list action) (s s' : system) (i : nat)
    (inv : invocation) :
  steps acts s = Some s' → invocations_of s !! i = Some inv →
  ∃ inv', invocations_of s' !! i = Some inv' ∧
          inv_resumed inv ≤ inv_resumed inv'.
Proof.
  revert s inv. induction acts as [|a acts IH]; intros s inv.
  { intros [= <-] Hi. by exists inv. }
  intros (s1 & Ha & Hacts)%steps_cons_inv Hi.
  destruct (step_resumed a s s1 i inv Ha Hi) as (inv1 & Hi1 & Hle & _).
  destruct (IH s1 inv1 Hacts Hi1) as (inv' & Hi' & Hle').
  exists inv'. split; [done|lia].
Qed.

(** The query of an invocation is answered in one state of a run. *)
Lemma query_answered_later (s0 : system) (acts1 rest : list action)
    (i : nat) (s1 s2 : system) (inv1 inv2 : invocation) :
  steps acts1 s0 = Some s1 → invocations_of s1 !! i = Some inv1 →
  steps (acts1 ++ Resume i :: rest) s0 = Some s2 →
  invocations_of s2 !! i = Some inv2 → inv_resumed inv2 ≠ 0.
Proof.
  intros H1 Hi1. rewrite steps_app, H1. cbn [mbind option_bind].
  intros (s' & Ha & Hrest)%steps_cons_inv Hi2.
  destruct (step_resumed _ _ _ i inv1 Ha Hi1) as (inv' & Hi' & _ & Hs).
  destruct (steps_resumed _ _ _ i inv' Hrest Hi') as (inv'' & Hi'' & Hle).
  specialize (Hs eq_refl). simplify_eq. lia.
Qed.

Lemma query_answered_unique (s0 : system) (acts : list action) (i : nat)
    (s1 s2 : system) :
  query_answered s0 acts i s1 → query_answered s0 acts i s2 → s1 = s2.
Proof.
  intros (a1 & a2 & inv1 & k1 & -> & H1 & Hi1 & Hr1 & _)
         (b1 & b2 & inv2 & k2 & Heq & H2 & Hi2 & Hr2 & _).
  apply app_eq_app in Heq as [l [[-> Hl]|[-> Hl]]];
    destruct l as [|a l]; simplify_eq/=;
    rewrite ?app_nil_r in *; try congruence.
  - by destruct (query_answered_later s0 b1 l i s2 s1 inv2 inv1).
  - by destruct (query_answered_later s0 a1 l i s1 s2 inv1 inv2).
Qed.

(** Every answer of a query in the trace of an invocation was read from
    the database of the state in which the run answered its query. *)
Lemma steps_query (acts : list action) (s0 s : system) (i : nat)
    (inv : invocation) q drivers :
  Forall allowed (invocations_of s0) → Forall counted (invocations_of s0) →
  steps acts s0 = Some s → invocations_of s !! i = Some inv →
  EvGet q (Ok drivers) ∈ inv_trace inv →
  (∃ inv0, invocations_of s0 !! i = Some inv0 ∧
           EvGet q (Ok drivers) ∈ inv_trace inv0) ∨
  (∃ s1, query_answered s0 acts i s1 ∧
         drivers = availableDrivers (world_of s1)).
Proof.
  revert s0. induction acts as [|a acts IH]; intros s0 Hall Hcnt.
  { intros [= <-]. left. eauto. }
  intros (s' & Ha & Hacts)%steps_cons_inv Hi Hq.
  destruct (IH s') as [(inv' & Hi' & Hq')|(s1 & Hs1 & ->)]; try done.
  - by eapply (step_invocation_invariant allowed allowed_start allowed_resume).
  - by eapply (step_invocation_invariant counted counted_start counted_resume).
  - destruct (step_query a s0 s' i inv' q drivers Hall Hcnt Ha Hi' Hq')
      as [?|(-> & -> & inv0 & k & Hi0 & Hres & Hk)]; [by left|].
    right. exists s0. split; [|done]. by exists [], acts, inv0, k.
  - right. exists s1. split; [|done]. by eapply query_answered_cons.
Qed.

(** Where the message of an invocation comes from: the drivers available
    in the state in which the query of the invocation was answered. *)
Lemma sent_at_query (acts : list action) (w : world) (s : system)
    (i : nat) (inv : invocation) (m : MulticastMessage) :
  steps acts (deployed w) = Some s → invocations_of s !! i = Some inv →
  m ∈ sent (inv_trace inv) →
  ∃ s1, query_answered (deployed w) acts i s1 ∧
        m = message (tokensOf (availableDrivers (world_of s1))).
Proof.
  intros Hsteps Hi Hm.
  pose proof (reachable_allowed w s (steps_reachable _ _ _ Hsteps)) as Hall.
  eapply Forall_lookup_1 in Hall; [|exact Hi].
  apply always_task_extends in Hall as (t' & o & Hrun).
  destruct (notifies_prefix_sent _ _ _ _ _ Hrun Hm) as (drivers & Hq & -> & _).
  destruct (steps_query acts (deployed w) s i inv _ _
              (Forall_nil_2 _) (Forall_nil_2 _) Hsteps Hi Hq)
    as [(inv0 & Hi0 & _)|(s1 & Hs1 & ->)]; [done|].
  exists s1. split; [done|]. symmetry. apply message_eq.
Qed.

(** C23: a message addresses the truthy tokens of the drivers that were
    available in the database when the query of its own invocation was
    answered: in the state of the run in which that invocation, not
    resumed before, was suspended at its query and resumed.  Changes of
    the driver records committed later, before the message is sent, and
    the queries of other invocations do not affect it. *)
Theorem message_addresses_drivers_of_query_time (acts : list action)
    (w : world) (s : system) (i : nat) (inv : invocation)
    (m : MulticastMessage) :
  steps acts (deployed w) = Some s → invocations_of s !! i = Some inv →
  m ∈ sent (inv_trace inv) →
  ∃ s1, query_answered (deployed w) acts i s1 ∧
        m = message (tokensOf (availableDrivers (world_of s1))).
Proof. apply sent_at_query. Qed.

(** * The database stays well formed *)

Lemma wf_collection_total (d : database) (coll : string) :
  wf_database d → wf_collection (d !!! coll).
Proof.
  intros Hd. rewrite lookup_total_alt.
  destruct (d !! coll) as [docs|] eqn:E; simpl; [by eapply Hd|].
  split; constructor.
Qed.

(** Writing and removing a document keep what holds of every document. *)
Lemma put_Forall (P : document → Prop) id fields (docs : list document) :
  P (Document id fields) → Forall P docs → Forall P (put id fields docs).
Proof.
  intros Hnew Hdocs. unfold put. case_bool_decide.
  - apply Forall_fmap. eapply Forall_impl; [exact Hdocs|].
    intros d Hd. simpl. by case_decide.
  - apply Forall_app. split; [done|]. by constructor.
Qed.

Lemma remove_Forall (P : document → Prop) id (docs : list document) :
  Forall P docs → Forall P (remove id docs).
Proof.
  intros Hdocs. apply Forall_forall. intros d [Hd _]%list_elem_of_In%filter_In.
  by eapply Forall_forall in Hdocs; [|apply list_elem_of_In].
Qed.

Lemma put_wf (id : string) (fields : object) (docs : list document) :
  stored_object fields = true → wf_collection docs →
  wf_collection (put id fields docs).
Proof.
  intros Hf [Hnd Hst]. unfold put. case_bool_decide as Hid; split.
  - rewrite <-list_fmap_compose.
    erewrite list_fmap_ext; [exact Hnd|]. intros ? d ?. simpl. by case_decide.
  - apply Forall_fmap. eapply Forall_impl; [exact Hst|].
    intros d Hd. simpl. by case_decide.
  - rewrite fmap_app. apply NoDup_app. split; [done|]. split.
    + intros x Hx ->%list_elem_of_singleton. done.
    + apply NoDup_singleton.
  - apply Forall_app. split; [done|]. by constructor.
Qed.

Lemma remove_wf (id : string) (docs : list document) :
  wf_collection docs → wf_collection (remove id docs).
Proof.
  intros [Hnd Hst]. pose proof (filter_sublist
    (λ d, negb (bool_decide (doc_id d = id))) docs) as Hsub. split.
  - apply (sublist_NoDup _ (doc_id <$> docs)); [done|by apply fmap_sublist].
  - by eapply Forall_sublist.
Qed.

Lemma apply_change_wf (c : change) (d : database) :
  admissible c = true → wf_database d → wf_database (apply_change c d).
Proof.
  unfold admissible, apply_change. intros Hc Hd.
  destruct (segments (ch_path c)) as [|coll [|id [|? ?]]]; try done.
  pose proof (wf_collection_total d coll Hd) as Hcoll.
  destruct (ch_kind c), (ch_fields c) as [fields|]; try done;
    apply map_Forall_insert_2; auto using put_wf, remove_wf.
Qed.

Lemma step_wf (a : action) (s s' : system) :
  wf_database (db (world_of s)) → step a s = Some s' →
  wf_database (db (world_of s')).
Proof.
  intros Hwf Hstep. rewrite (step_db _ _ _ Hstep).
  destruct a as [c| | |]; try done. simpl.
  apply step_Commit in Hstep as [Hc _]. by apply apply_change_wf.
Qed.

(** Every reachable state has a well-formed database when the initial
    one is. *)
Lemma reachable_wf (w : world) (s : system) :
  wf_database (db w) → reachable (deployed w) s →
  wf_database (db (world_of s)).
Proof.
  intros Hw Hs. induction Hs as [|s a s' _ IH Hstep]; [done|].
  by eapply step_wf.
Qed.

(** C29: a message addresses each driver record at most once.  When the
    identifiers of the documents are unique at deployment, the tokens of
    every message an invocation sends are the [fcmToken] fields of
    documents of [drivers] with pairwise different identifiers, in the
    order of the collection, as the database held them when the query of
    the invocation was answered: the loop pushes one token per record. *)
Theorem message_addresses_each_driver_once (acts : list action) (w : world)
    (s : system) (i : nat) (inv : invocation) (m : MulticastMessage) :
  wf_database (db w) →
  steps acts (deployed w) = Some s → invocations_of s !! i = Some inv →
  m ∈ sent (inv_trace inv) →
  ∃ s1 docs, query_answered (deployed w) acts i s1 ∧
             sublist docs (db (world_of s1) !!! "drivers") ∧
             NoDup (doc_id <$> docs) ∧
             tokens m = fcmToken <$> docs.
Proof.
  intros Hw Hsteps Hi Hm.
  destruct (sent_at_query acts w s i inv m Hsteps Hi Hm) as (s1 & Hs1 & ->).
  assert (wf_database (db (world_of s1))) as Hwf.
  { destruct Hs1 as (acts1 & _ & _ & _ & _ & Hacts1 & _).
    eapply reachable_wf; [exact Hw|]. by eapply steps_reachable. }
  apply (wf_collection_total _ "drivers") in Hwf as [Hnd _].
  eexists s1, _. split; [done|]. simpl. rewrite tokensOf_fmap.
  assert (sublist (List.filter (λ d, ToBoolean (fcmToken d))
                     (availableDrivers (world_of s1)))
                  (db (world_of s1) !!! "drivers")) as Hsub
    by (etrans; apply filter_sublist).
  split; [exact Hsub|]. split; [|done].
  eapply sublist_NoDup; [exact Hnd|]. by apply fmap_sublist.
Qed.

(** * Changes between the query and the send *)

(** The creation of a request leaves the driver records as they are. *)
Lemma created_drivers (id : string) (fields : object) (d : database) :
  contains "/"%char id = false →
  apply_change (created id fields) d !!! "drivers" = d !!! "drivers".
Proof.
  intros Hid. unfold apply_change, created. cbn [ch_path ch_kind ch_fields].
  change ("requests/" +:+ id) with ("requests" +:+ String "/" id).
  rewrite segments_document by done. by rewrite lookup_total_insert_ne.
Qed.

(** Committing changes that invoke nothing changes the database and
    nothing else. *)
Lemma steps_commits (cs : list change) (s : system) :
  Forall (λ c, admissible c = true ∧ invocations exports c = []) cs →
  steps (Commit <$> cs) s
  = Some {| world_of :=
              with_db (foldl (flip apply_change) (db (world_of s)) cs)
                      (world_of s);
            invocations_of := invocations_of s |}.
Proof.
  intros Hcs. revert s.
  induction Hcs as [|c cs [Hadm Hinv] _ IH]; intros s.
  { destruct s as [[] ?]. done. }
  rewrite fmap_cons. cbn [steps].
  rewrite step_Commit_eq, Hadm, started_none by done.
  cbn [mbind option_bind fst snd]. rewrite IH. cbn. by rewrite app_nil_r.
Qed.

(** C39: the tokens are those of the query, whatever happens to the driver
    records before the send.  A request is created and its query
    answered; changes of the database are committed (a driver stops
    being available, is deleted, gets another token); then the send is
    answered.  The run is possible, and the push service has accepted
    the message to the drivers available before the changes, while the
    database holds the changes: a driver who retired in between is
    notified nevertheless. *)
Theorem retired_driver_still_notified (w : world) (id : string)
    (fields : object) (cs : list change) :
  id ≠ EmptyString → contains "/"%char id = false →
  stored_object fields = true →
  firestore_up w = true → messaging_up w = true →
  tokensOf (availableDrivers w) ≠ [] →
  Forall (λ c, admissible c = true ∧ invocations exports c = []) cs →
  ∃ s, steps (Commit (created id fields) :: Resume 0
              :: (Commit <$> cs) ++ [Resume 0]) (deployed w) = Some s ∧
       outbox (world_of s) = [message (tokensOf (availableDrivers w))] ∧
       db (world_of s)
       = foldl (flip apply_change) (apply_change (created id fields) (db w)) cs.
Proof.
  intros Hid Hsep Hfields Hfs Hfcm Htok Hcs.
  destruct (handler_suspensions
              {| snap_path := "requests/" +:+ id; snap_fields := Some fields |}
              {| params := [("requestId", id)] |}
              (with_db (apply_change (created id fields)
                          (db (world_of (deployed w))))
                       (world_of (deployed w))))
    as (k & Hadv & Hres); [by eexists|].
  destruct (Hres (with_db (apply_change (created id fields)
                             (db (world_of (deployed w))))
                          (world_of (deployed w))))
    as (k' & Hget & Hsend); clear Hres.
  { done. }
  { unfold availableDrivers. simpl. by rewrite created_drivers. }
  assert (admissible (created id fields) = true) as Hadm by done.
  eexists. split.
  { cbn [steps]. rewrite step_Commit_eq, Hadm.
    rewrite (started_one _ _ _ (invocations_created id fields Hid Hsep)).
    cbv zeta. rewrite Hadv.
    cbn [fst snd mbind option_bind deployed invocations_of app].
    rewrite step_Resume_only by done. cbn [inv_task]. rewrite Hget.
    cbn [fst snd mbind option_bind resumed inv_task].
    rewrite steps_app, steps_commits by done.
    cbn [mbind option_bind steps world_of invocations_of].
    rewrite step_Resume_only by done. cbn [inv_task].
    rewrite Hsend by done. reflexivity. }
  cbn [world_of fst snd]. unfold extend, availableDrivers.
  cbn [outbox db with_db deployed world_of with_devices app].
  by rewrite created_drivers.
Qed.

(** * Worked runs *)

(** The state a run of actions leads to from a fresh deployment. *)
Definition run_of (acts : list action) (w : world) : system :=
  default (deployed w) (steps acts (deployed w)).

Definition create_r1 : action :=
  Commit {| ch_kind := Created; ch_path := "requests/r1";
            ch_fields := snap_fields request |}.

Definition create_r2 : action :=
  Commit {| ch_kind := Created; ch_path := "requests/r2";
            ch_fields := Some [] |}.

(** Driver A stops being available. *)
Definition retire_A : action :=
  Commit {| ch_kind := Updated; ch_path := "drivers/a";
            ch_fields := Some [("isAvailable", VBoolean false);
                               ("fcmToken", VString "A")] |}.

(** A request is created; its query is answered; driver A retires; the
    message is sent. *)
Definition late_retirement : list action :=
  [create_r1; Resume 0; retire_A; Resume 0].

(** Two requests are created before either query is answered. *)
Definition two_requests : list action := [create_r1; create_r2].

(** The invocation of the first run, once settled. *)
Definition notified : invocation :=
  {| inv_snap := request;
     inv_task := Settled (Resolved tt);
     inv_trace :=
       [EvGet driversQuery (Ok [driverA; driverB; driverC]);
        EvSend (message [VString "A"; VString "B"]) (Ok (MkResponse 1));
        EvLog "✅ Sent to 1 drivers."];
     inv_resumed := 2 |}.

Lemma late_retirement_steps :
  steps late_retirement (deployed town) = Some (run_of late_retirement town).
Proof. by vm_compute. Qed.

Lemma two_requests_steps :
  steps two_requests (deployed town) = Some (run_of two_requests town).
Proof. by vm_compute. Qed.

Lemma late_retirement_invocations :
  invocations_of (run_of late_retirement town) = [notified].
Proof. by vm_compute. Qed.

Lemma late_retirement_reachable :
  reachable (deployed town) (run_of late_retirement town).
Proof. apply (steps_reachable late_retirement), late_retirement_steps. Qed.

Lemma notified_elem_of : notified ∈ invocations_of (run_of late_retirement town).
Proof. rewrite late_retirement_invocations. by left. Qed.

Lemma town_wf : wf_database (db town).
Proof.
  apply map_Forall_singleton. split; [|by repeat constructor].
  by apply (bool_decide_unpack _); vm_compute.
Qed.

(** In the run [late_retirement] the message addresses A although A is
    not among the available drivers of the database at the time of the
    send, nor afterwards. *)
Example late_retirement_run :
  let s := run_of late_retirement town in
  outbox (world_of s) = [message [VString "A"; VString "B"]] ∧
  tokensOf (availableDrivers (world_of s)) = [VString "B"] ∧
  console_lines (world_of s) = ["✅ Sent to 1 drivers."].
Proof. by vm_compute. Qed.

(** The query of that run is answered in the state after the creation of
    the request, before A retires. *)
Example late_retirement_query :
  query_answered (deployed town) late_retirement 0 (run_of [create_r1] town).
Proof. by eexists [create_r1], [retire_A; Resume 0], _, _. Qed.

Lemma retired_driver_still_notified_witness :
  ∃ s, steps (Commit (created "r1" [("patient", VString "unit 4")])
              :: Resume 0
              :: (Commit <$> [ {| ch_kind := Updated; ch_path := "drivers/a";
                                  ch_fields :=
                                    Some [("isAvailable", VBoolean false);
                                          ("fcmToken", VString "A")] |} ])
                 ++ [Resume 0])
         (deployed town) = Some s ∧
       outbox (world_of s) = [message (tokensOf (availableDrivers town))] ∧
       db (world_of s)
       = foldl (flip apply_change)
           (apply_change (created "r1" [("patient", VString "unit 4")])
              (db town))
           [ {| ch_kind := Updated; ch_path := "drivers/a";
                ch_fields := Some [("isAvailable", VBoolean false);
                                   ("fcmToken", VString "A")] |} ].
Proof.
  apply (retired_driver_still_notified town "r1"); [done..| |].
  - by rewrite town_available.
  - by repeat constructor.
Defined.

Lemma interleaved_invocation_keeps_contract_witness :
  notifies (inv_snap notified) (inv_trace notified) (Resolved tt).
Proof.
  apply (interleaved_invocation_keeps_contract town
           (run_of late_retirement town) notified (Resolved tt)).
  - apply late_retirement_reachable.
  - apply notified_elem_of.
  - reflexivity.
Defined.

Lemma invocation_settles_after_two_answers_witness :
  inv_resumed notified ≤ 2 ∧
  (inv_resumed notified = 2 → is_settled (inv_task notified) = true) ∧
  (is_settled (inv_task notified) = false →
   is_Some (step (Resume 0) (run_of late_retirement town))).
Proof.
  apply (invocation_settles_after_two_answers town).
  - apply late_retirement_reachable.
  - by rewrite late_retirement_invocations.
Defined.

Lemma invocations_in_creation_order_witness :
  inv_snap <$> invocations_of (run_of two_requests town)
  = two_requests ≫= triggers.
Proof.
  apply (invocations_in_creation_order two_requests town), two_requests_steps.
Defined.

Lemma outbox_accounts_for_invocations_witness :
  let s := run_of late_retirement town in
  outbox (world_of s) ≡ₚ all_accepted s ∧
  console_lines (world_of s) ≡ₚ all_logged s ∧
  length (console_lines (world_of s)) ≤ length (outbox (world_of s)) ∧
  length (outbox (world_of s)) ≤ length (invocations_of s).
Proof.
  apply (outbox_accounts_for_invocations town), late_retirement_reachable.
Defined.

Lemma message_addresses_drivers_of_query_time_witness :
  ∃ s1, query_answered (deployed town) late_retirement 0 s1 ∧
        message [VString "A"; VString "B"]
        = message (tokensOf (availableDrivers (world_of s1))).
Proof.
  apply (message_addresses_drivers_of_query_time late_retirement town
           (run_of late_retirement town) 0 notified).
  - apply late_retirement_steps.
  - by rewrite late_retirement_invocations.
  - cbn. left.
Defined.

Lemma message_addresses_each_driver_once_witness :
  ∃ s1 docs, query_answered (deployed town) late_retirement 0 s1 ∧
             sublist docs (db (world_of s1) !!! "drivers") ∧
             NoDup (doc_id <$> docs) ∧
             tokens (message [VString "A"; VString "B"]) = fcmToken <$> docs.
Proof.
  apply (message_addresses_each_driver_once late_retirement town
           (run_of late_retirement town) 0 notified).
  - apply town_wf.
  - apply late_retirement_steps.
  - by rewrite late_retirement_invocations.
  - cbn. left.
Defined.
