(* ===== verification/Schema.v ===== *)
(** * The driver records, typed

    Section 3 of the specification describes a driver as a record with a
    boolean [isAvailable] and an optional string [fcmToken], owned by the
    driver-management flows; section 9 asks that the fields the function
    reads dynamically ([data.fcmToken], line 20, and the [isAvailable] of
    the filter, line 13) be given an explicit schema.  This file is that
    schema: the typed record [Driver], the decoder of a document and the
    document of a driver, the notification stated on typed records
    ([recipients]), and the changes of the database that follow the
    schema.

    It shows that the function, which knows nothing of the schema,
    implements the typed statement on every database that follows it,
    and that, as long as the changes committed follow the schema, every
    token ever sent is a non-empty string, under every interleaving.
    Tokens that are not strings can only come from records that break
    the schema. *)

From Stdlib Require Import Ascii.
From stdpp Require Import gmap.
From S2P Require Import Prelude JsValue Firestore Messaging Program Spec Trigger Handler World System.

(** * Fields *)

(** A type of field values: how a value of the type is stored, and how a
    stored value is read back. *)
Class Field (A : Type) : Type := {
  to_value : A → value;
  of_value : value → option A;
  of_to_value x : of_value (to_value x) = Some x
}.

#[export] Instance bool_field : Field bool := {|
  to_value := VBoolean;
  of_value v := match v with VBoolean b => Some b | _ => None end;
  of_to_value b := eq_refl
|}.

#[export] Instance string_field : Field string := {|
  to_value := VString;
  of_value v := match v with VString s => Some s | _ => None end;
  of_to_value s := eq_refl
|}.

(** A field that must be there, and one that may be absent or null. *)
Definition required `{Field A} (o : object) (k : string) : option A :=
  of_value (getProp o k).

Definition optional `{Field A} (o : object) (k : string) : option (option A) :=
  match getProp o k with
  | VUndefined | VNull => Some None
  | v => Some <$> of_value v
  end.

(** * Drivers *)

(** A driver, as section 3 of the specification has it. *)
Record Driver : Type := MkDriver {
  driver_id : string;
  is_available : bool;
  fcm_token : option string
}.

#[export] Instance Driver_eq_dec : EqDecision Driver.
Proof. solve_decision. Defined.

(** The document of a driver.  A driver without token has no [fcmToken]
    field. *)
Definition encode (d : Driver) : document :=
  Document (driver_id d)
    (("isAvailable", to_value (is_available d))
     :: match fcm_token d with
        | Some s => [("fcmToken", to_value s)]
        | None => []
        end).

(** The driver of a document, when the document follows the schema. *)
Definition decode (doc : document) : option Driver :=
  a ← required (doc_fields doc) "isAvailable";
  t ← optional (doc_fields doc) "fcmToken";
  Some {| driver_id := doc_id doc; is_available := a; fcm_token := t |}.

(** The drivers of a database: the documents of [drivers] that follow the
    schema. *)
Definition drivers_of (d : database) : list Driver :=
  omap decode (d !!! "drivers").

Definition typed_db (d : database) : Prop :=
  Forall (λ doc, is_Some (decode doc)) (d !!! "drivers").

#[export] Instance typed_db_dec (d : database) : Decision (typed_db d).
Proof. unfold typed_db. apply _. Defined.

(** * The notification, on typed records *)

(** The token a driver is to be notified at: the driver is available and
    has a token that is not empty. *)
Definition recipient (d : Driver) : option string :=
  if is_available d then
    match fcm_token d with
    | Some s => if decide (s = EmptyString) then None else Some s
    | None => None
    end
  else None.

(** Section 4.1 on typed records: the tokens of the available drivers
    that have one, in the order of the records. *)
Definition recipients (ds : list Driver) : list string := omap recipient ds.

(** How many of the tokens name a registered device. *)
Definition reached (devices : registry) (toks : list string) : nat :=
  length (List.filter (λ s, bool_decide (s ∈ devices)) toks).

(** What a created request is to add to the outbox of the push service
    and to the console: nothing when there is nobody to notify, one
    message with the texts of the specification to the recipients and the
    line with the count otherwise.  The specification does not give the
    text of the line; it is the one of line 34. *)
Definition notification (ds : list Driver) (devices : registry)
  : list MulticastMessage * list string :=
  match recipients ds with
  | [] => ([], [])
  | toks => ([spec_message (VString <$> toks)],
             [logLine {| successCount := reached devices toks |}])
  end.

(** * Changes of the driver records *)

(** A change follows the schema when what it writes into [drivers] is the
    document of a driver. *)
Definition typed_change (c : change) : bool :=
  match segments (ch_path c), ch_kind c, ch_fields c with
  | [coll; id], (Created | Updated), Some fields =>
      if decide (coll = "drivers")
      then bool_decide (is_Some (decode (Document id fields)))
      else true
  | _, _, _ => true
  end.

Definition typed_action (a : action) : bool :=
  match a with Commit c => typed_change c | _ => true end.

(** The database of the system follows the schema. *)
Definition typed_state (s : system) : Prop := typed_db (db (world_of s)).

(** * The encoding *)

Lemma decode_encode (d : Driver) : decode (encode d) = Some d.
Proof. by destruct d as [id a [s|]]. Qed.

(** A document that follows the schema carries the identifier of its
    driver. *)
Lemma decode_id (doc : document) (d : Driver) :
  decode doc = Some d → driver_id d = doc_id doc.
Proof. unfold decode. intros. by simplify_option_eq. Qed.

(** What the function makes of a document that follows the schema: the
    filter of line 13 selects it when the driver is available, and the
    test of line 20 keeps its token when it has one that is not empty. *)
Lemma decode_isAvailable (doc : document) (d : Driver) :
  decode doc = Some d → isAvailable doc = is_available d.
Proof.
  unfold decode, required, isAvailable. intros Hd.
  destruct (getProp (doc_fields doc) "isAvailable") as [| |[]| | | |];
    by simplify_option_eq.
Qed.

Lemma decode_fcmToken (doc : document) (d : Driver) :
  decode doc = Some d →
  tokensOf [doc]
  = match fcm_token d with
    | Some s => if decide (s = EmptyString) then [] else [VString s]
    | None => []
    end.
Proof.
  unfold decode, optional, tokensOf, fcmToken, doc_data. intros Hd. simpl.
  destruct (getProp (doc_fields doc) "fcmToken") as [| |b|x|s|l|o];
    by simplify_option_eq.
Qed.

Lemma recipients_cons (d : Driver) (ds : list Driver) :
  recipients (d :: ds)
  = match recipient d with
    | Some s => s :: recipients ds
    | None => recipients ds
    end.
Proof. done. Qed.

(** On documents that follow the schema, the token list the function
    collects from the documents the query selects is the typed one. *)
Lemma typed_tokens (docs : list document) :
  Forall (λ doc, is_Some (decode doc)) docs →
  tokensOf (List.filter isAvailable docs)
  = VString <$> recipients (omap decode docs).
Proof.
  induction 1 as [|doc docs [d Hd] _ IH]; [done|]. csimpl.
  rewrite Hd, (decode_isAvailable doc d Hd), recipients_cons.
  unfold recipient. destruct (is_available d); [|exact IH].
  change (doc :: List.filter isAvailable docs)
    with ([doc] ++ List.filter isAvailable docs).
  rewrite tokensOf_app, IH, (decode_fcmToken doc d Hd).
  destruct (fcm_token d) as [s|]; [|done]. by case_decide.
Qed.

Lemma typed_available (w : world) :
  typed_db (db w) →
  tokensOf (availableDrivers w) = VString <$> recipients (drivers_of (db w)).
Proof. apply typed_tokens. Qed.

(** * The function on a typed database *)

Lemma deliver_typed (devices : registry) (toks : list string) :
  deliver devices (message (VString <$> toks))
  = {| successCount := reached devices toks |}.
Proof.
  unfold deliver, reached. simpl. f_equal.
  induction toks as [|s toks IH]; [done|]. csimpl.
  destruct (bool_decide (s ∈ devices)); simpl; by rewrite IH.
Qed.

(** C12: the function implements the typed statement of section 4.1.  On a
    database whose driver records follow the schema, when both services
    answer, an invocation for a request with data resolves and leaves the
    platform as it was but for the notification of the typed records: no
    message when no available driver has a token, else one message to the
    tokens of the available drivers and the line with the number of
    devices reached. *)
Theorem typed_database_notifies_recipients snap context (w : world) :
  typed_db (db w) → is_Some (snap_fields snap) →
  firestore_up w = true → messaging_up w = true →
  let r := exec (sendDriverNotification snap context) w in
  let n := notification (drivers_of (db w)) (devices w) in
  settled r = Resolved tt ∧ final r = extend n.1 n.2 w.
Proof.
  intros Hdb%typed_available Hdata Hfs Hfcm. cbv zeta. unfold notification.
  destruct (recipients (drivers_of (db w))) as [|tok toks] eqn:E.
  - rewrite exec_world, (proj2 (data_truthy_iff snap) Hdata), Hfs.
    cbn [negb]. cbv zeta. rewrite Hdb. cbn. by rewrite extend_nil.
  - rewrite exec_world_sent by (by rewrite ?Hdb).
    by rewrite Hdb, deliver_typed.
Qed.

(** * Changes that follow the schema *)

(** A change that follows the schema keeps the database typed. *)
Lemma apply_change_typed (c : change) (d : database) :
  typed_change c = true → typed_db d → typed_db (apply_change c d).
Proof.
  unfold typed_change, apply_change, typed_db. intros Hc Hd.
  destruct (segments (ch_path c)) as [|coll [|id [|? ?]]]; try done.
  destruct (decide (coll = "drivers")) as [->|Hcoll].
  2: { destruct (ch_kind c), (ch_fields c); try done;
         by rewrite lookup_total_insert_ne. }
  destruct (ch_kind c), (ch_fields c) as [fields|]; try done;
    rewrite lookup_total_insert_eq;
    first [ apply put_Forall; [by apply bool_decide_eq_true in Hc|done]
          | by apply remove_Forall ].
Qed.

(** * Typed runs of the system *)

Lemma step_typed (a : action) (s s' : system) :
  typed_action a = true → typed_state s → step a s = Some s' →
  typed_state s'.
Proof.
  unfold typed_state. intros Ha Hdb Hstep.
  rewrite (step_db a s s' Hstep). destruct a as [c| | |]; simpl; [|done..].
  by apply apply_change_typed.
Qed.

Lemma steps_typed (acts : list action) (s s' : system) :
  Forall (λ a, typed_action a = true) acts → typed_state s →
  steps acts s = Some s' → typed_state s'.
Proof.
  intros Hacts. revert s. induction Hacts as [|a acts Ha _ IH]; intros s Hs.
  - by intros [= <-].
  - intros (s1 & Hstep & Hsteps)%steps_cons_inv.
    eapply IH; [|exact Hsteps]. by eapply step_typed.
Qed.

(** Every message the push service has accepted was sent by an
    invocation. *)
Lemma outbox_sent (w : world) (s : system) (m : MulticastMessage) :
  reachable (deployed w) s → m ∈ outbox (world_of s) →
  ∃ inv, inv ∈ invocations_of s ∧ m ∈ sent (inv_trace inv).
Proof.
  intros [Hout _]%reachable_accounts Hm. rewrite Hout in Hm.
  apply list_elem_of_bind in Hm as (inv & Hm & Hinv).
  exists inv. split; [done|]. by apply accepted_sent.
Qed.

(** The tokens of the message to the typed recipients are theirs. *)
Lemma recipients_tokens (ds : list Driver) :
  Forall (λ tok, ∃ str, tok = VString str ∧ str ≠ EmptyString ∧
            ∃ d, d ∈ ds ∧ is_available d = true ∧ fcm_token d = Some str)
         (VString <$> recipients ds).
Proof.
  apply Forall_fmap, Forall_forall. intros str (d & Hd & Hr)%list_elem_of_omap.
  exists str. split; [done|]. unfold recipient in Hr.
  repeat case_match; simplify_eq. eauto.
Qed.

(** C21: tokens are strings as long as the driver records follow the
    schema.  When the database follows the schema at deployment and every
    change committed to it does, then under every interleaving every
    message the push service has accepted was sent by an invocation, and
    it is the message to the typed recipients of the database in which
    the query of that invocation was answered: each of its tokens is a
    non-empty string, the token of a driver who was available then. *)
Theorem typed_run_sends_strings (acts : list action) (w : world) (s : system)
    (m : MulticastMessage) :
  typed_db (db w) → Forall (λ a, typed_action a = true) acts →
  steps acts (deployed w) = Some s → m ∈ outbox (world_of s) →
  ∃ i s1, query_answered (deployed w) acts i s1 ∧
          typed_db (db (world_of s1)) ∧
          m = message (VString <$> recipients (drivers_of (db (world_of s1)))) ∧
          Forall (λ tok, ∃ str, tok = VString str ∧ str ≠ EmptyString ∧
                    ∃ d, d ∈ drivers_of (db (world_of s1)) ∧
                         is_available d = true ∧ fcm_token d = Some str)
                 (tokens m).
Proof.
  intros Hw Hacts Hsteps Hm.
  destruct (outbox_sent w s m (steps_reachable _ _ _ Hsteps) Hm)
    as (inv & [i Hi]%list_elem_of_lookup_1 & Hsent).
  destruct (sent_at_query acts w s i inv m Hsteps Hi Hsent) as (s1 & Hs1 & ->).
  assert (typed_db (db (world_of s1))) as Hdb.
  { destruct Hs1 as (acts1 & acts2 & _ & _ & -> & Hacts1 & _).
    apply Forall_app in Hacts as [Hacts _].
    by apply (steps_typed acts1 (deployed w) s1). }
  exists i, s1. rewrite (typed_available _ Hdb).
  repeat split; [done..|]. apply recipients_tokens.
Qed.

(** * Worked runs *)

(** The drivers of the town of [World], typed. *)
Definition town_drivers : list Driver :=
  [ {| driver_id := "a"; is_available := true; fcm_token := Some "A" |};
    {| driver_id := "b"; is_available := true; fcm_token := Some "B" |};
    {| driver_id := "c"; is_available := true; fcm_token := None |};
    {| driver_id := "d"; is_available := false; fcm_token := Some "D" |} ].

Lemma town_encoded : db town !!! "drivers" = encode <$> town_drivers.
Proof. by vm_compute. Qed.

Lemma town_typed : typed_db (db town).
Proof.
  unfold typed_db. rewrite town_encoded. apply Forall_fmap, Forall_forall.
  intros d _. simpl. by rewrite decode_encode.
Qed.

Lemma typed_database_notifies_recipients_witness :
  let r := exec (sendDriverNotification request ctx) town in
  let n := notification (drivers_of (db town)) (devices town) in
  settled r = Resolved tt ∧ final r = extend n.1 n.2 town.
Proof.
  by apply (typed_database_notifies_recipients request ctx town town_typed).
Defined.

(** The typed statement for the town: A and B are the recipients and one
    device is reached. *)
Example town_notification :
  notification town_drivers (devices town)
  = ([message [VString "A"; VString "B"]], ["✅ Sent to 1 drivers."]).
Proof. by vm_compute. Qed.

Lemma typed_run_sends_strings_witness :
  let m := message [VString "A"; VString "B"] in
  ∃ i s1, query_answered (deployed town) late_retirement i s1 ∧
          typed_db (db (world_of s1)) ∧
          m = message (VString <$> recipients (drivers_of (db (world_of s1)))) ∧
          Forall (λ tok, ∃ str, tok = VString str ∧ str ≠ EmptyString ∧
                    ∃ d, d ∈ drivers_of (db (world_of s1)) ∧
                         is_available d = true ∧ fcm_token d = Some str)
                 (tokens m).
Proof.
  apply (typed_run_sends_strings late_retirement town
           (run_of late_retirement town)).
  - apply town_typed.
  - by repeat constructor.
  - apply late_retirement_steps.
  - cbn. left.
Defined.
