(* ===== verification/Schedule.v ===== *)
(** * Schedules: independence and termination

    Section 5 of the specification: invocations are "independent,
    uncoordinated instances" and both calls of an invocation "must complete
    (or fail) before the invocation ends".  This file states both of the
    system of [System]: the order in which the platform answers the calls
    of different invocations does not matter, up to the order of what the
    push service and the console have received ([equivalent]); and the
    platform can always settle every invocation, with at most two answers
    each ([drain]). *)

From stdpp Require Import gmap.
From S2P Require Import Prelude JsValue Firestore Messaging Program Spec Trigger Handler World System.

(** * Definitions *)

(** Two systems with the same invocations on platforms that cannot be told
    apart. *)
Definition equivalent (s1 s2 : system) : Prop :=
  invocations_of s1 = invocations_of s2 ∧ similar (world_of s1) (world_of s2).

(** ** Draining the system *)

(** The calls an invocation may still await. *)
Definition remaining (inv : invocation) : nat :=
  if is_settled (inv_task inv) then 0 else 2 - inv_resumed inv.

Definition backlog (s : system) : nat :=
  sum_list (remaining <$> invocations_of s).

(** The first invocation that has not settled. *)
Definition first_pending (invs : list invocation) : option nat :=
  fst <$> list_find (λ inv, is_settled (inv_task inv) = false) invs.

(** A schedule that answers the pending calls, oldest invocation first,
    for at most [n] answers: the answers given and the state reached. *)
Fixpoint drain (n : nat) (s : system) : list action * system :=
  match n with
  | 0 => ([], s)
  | S n' =>
      match first_pending (invocations_of s) with
      | None => ([], s)
      | Some i =>
          match step (Resume i) s with
          | Some s' => let '(acts, s'') := drain n' s' in (Resume i :: acts, s'')
          | None => ([], s)
          end
      end
  end.

Definition is_resume (a : action) : bool :=
  match a with Resume _ => true | _ => false end.

(** * Invocations do not interfere *)

#[export] Instance equivalent_equiv : Equivalence equivalent.
Proof.
  split.
  - by intros s.
  - intros s s' [? ?]. split; by symmetry.
  - intros s1 s2 s3 [? ?] [? ?]. split; by etrans.
Qed.

Lemma with_db_similar (d : database) (w w' : world) :
  similar w w' → similar (with_db d w) (with_db d w').
Proof. intros ((? & ? & ? & ?) & ? & ?). by repeat split. Qed.

Lemma with_devices_similar (ds : registry) (w w' : world) :
  similar w w' → similar (with_devices ds w) (with_devices ds w').
Proof. intros ((? & ? & ? & ?) & ? & ?). by repeat split. Qed.

Lemma with_switches_similar (fs fcm : bool) (w w' : world) :
  similar w w' → similar (with_switches fs fcm w) (with_switches fs fcm w').
Proof. intros ((? & ? & ? & ?) & ? & ?). by repeat split. Qed.

Lemma started_similar (c : change) (s1 s2 : system) :
  equivalent s1 s2 →
  (started c s1).1 = (started c s2).1 ∧
  similar (started c s1).2 (started c s2).2.
Proof.
  intros [Hinv Hw]. unfold started.
  pose proof (start_all_indep
    {| snap_path := ch_path c; snap_fields := ch_fields c |}
    (invocations exports c)
    (with_db (apply_change c (db (world_of s1))) (world_of s1))
    (with_db (apply_change c (db (world_of s2))) (world_of s2))) as Hsame.
  split; [done|].
  rewrite !(proj1 (start_all_spec _ _ _)), Hsame. f_equiv.
  destruct Hw as [Hdata Hrest]. destruct Hdata as [Hdb ?].
  rewrite Hdb. by apply with_db_similar.
Qed.

Lemma resume_at_similar (i : nat) (inv : invocation) (s1 s2 : system) :
  equivalent s1 s2 → equivalent (resume_at i inv s1) (resume_at i inv s2).
Proof.
  intros [Hinv Hw]. unfold resume_at. cbv zeta.
  destruct (resume_same_data (inv_task inv) (world_of s1) (world_of s2)
              (similar_same_data _ _ Hw)) as [Ht Hev].
  split; simpl.
  - by rewrite Hinv, Ht, Hev.
  - rewrite !resume_extend, Hev. by f_equiv.
Qed.

(** Equivalent systems stay equivalent under every action. *)
#[export] Instance step_proper (a : action) :
  Proper (equivalent ==> option_Forall2 equivalent) (step a).
Proof.
  intros s1 s2 Hs. destruct a as [c|ds|fs fcm|i].
  - rewrite !step_Commit_eq. destruct (admissible c); constructor.
    destruct (started_similar c s1 s2 Hs) as [Hinvs Hw].
    destruct Hs as [Hinv _]. split; simpl; [|done]. by rewrite Hinv, Hinvs.
  - constructor. destruct Hs. split; [done|]. by apply with_devices_similar.
  - constructor. destruct Hs. split; [done|]. by apply with_switches_similar.
  - rewrite !step_Resume_eq. destruct Hs as [Hinv Hw]. rewrite Hinv.
    destruct (invocations_of s2 !! i) as [inv|]; simpl; [|constructor].
    destruct (is_settled _); constructor. by apply resume_at_similar.
Qed.

Lemma resume_at_world (i : nat) (inv : invocation) (s : system) :
  same_data (world_of s) (world_of (resume_at i inv s)).
Proof. unfold resume_at. simpl. by rewrite resume_extend. Qed.

Lemma resume_at_commute (i j : nat) (a b : invocation) (s : system) :
  i ≠ j →
  equivalent (resume_at j b (resume_at i a s)) (resume_at i a (resume_at j b s)).
Proof.
  intros Hij.
  destruct (resume_same_data (inv_task b) _ _ (resume_at_world i a s))
    as [Htb Hevb].
  destruct (resume_same_data (inv_task a) _ _ (resume_at_world j b s))
    as [Hta Heva].
  unfold resume_at in *. simpl in *. split; simpl.
  - rewrite <-Htb, <-Hevb, Hta, Heva. by apply list_insert_insert_ne.
  - rewrite (resume_extend (inv_task b) (resume (inv_task a) (world_of s)).1.2),
      (resume_extend (inv_task a) (resume (inv_task b) (world_of s)).1.2).
    rewrite <-Hevb, <-Heva, !resume_extend, !extend_extend.
    f_equiv; apply (comm (++)).
Qed.

Lemma step_Resume_after (i j : nat) (a : invocation) (s : system) :
  i ≠ j →
  step (Resume j) (resume_at i a s) =
    b ← invocations_of s !! j;
    if is_settled (inv_task b) then None
    else Some (resume_at j b (resume_at i a s)).
Proof.
  intros Hij. rewrite step_Resume_eq.
  assert (invocations_of (resume_at i a s) !! j = invocations_of s !! j)
    as -> by (by apply list_lookup_insert_ne). done.
Qed.

(** Invocations do not interfere.  Answering the calls of two different
    invocations in one order or the other leads to equivalent systems:
    the same invocations with the same traces, the same data, the same
    messages accepted and lines printed; and when one order is not
    possible, nor is the other.  This is a fact of the platform, whose
    calls only read the data of the services: it holds of the
    invocations of any program. *)
Lemma resumptions_commute (i j : nat) (s : system) :
  i ≠ j →
  option_Forall2 equivalent
    (step (Resume i) s ≫= step (Resume j))
    (step (Resume j) s ≫= step (Resume i)).
Proof.
  intros Hij. assert (j ≠ i) as Hji by congruence.
  rewrite !(step_Resume_eq _ s).
  destruct (invocations_of s !! i) as [a|] eqn:Ei,
           (invocations_of s !! j) as [b|] eqn:Ej; cbn [mbind option_bind];
    try destruct (is_settled (inv_task a)) eqn:Ha;
    try destruct (is_settled (inv_task b)) eqn:Hb; cbn [mbind option_bind];
    rewrite ?(step_Resume_after i j) by done;
    rewrite ?(step_Resume_after j i) by done;
    rewrite ?Ei, ?Ej; cbn [mbind option_bind];
    rewrite ?Ha, ?Hb; try constructor.
  by apply resume_at_commute.
Qed.

(** * Every invocation settles *)

Lemma first_pending_None (invs : list invocation) :
  first_pending invs = None →
  Forall (λ inv, is_settled (inv_task inv) = true) invs.
Proof.
  unfold first_pending. intros Hnone%fmap_None%list_find_None.
  eapply Forall_impl; [exact Hnone|]. intros inv Hinv. simpl in Hinv.
  by destruct (is_settled _).
Qed.

Lemma first_pending_Some (invs : list invocation) (i : nat) :
  first_pending invs = Some i →
  ∃ inv, invs !! i = Some inv ∧ is_settled (inv_task inv) = false.
Proof.
  unfold first_pending. intros ([j inv] & Hfind & ?)%fmap_Some.
  apply list_find_Some in Hfind as (Hi & Hpending & _). simplify_eq/=. eauto.
Qed.

(** Answering a pending call shortens the backlog. *)
Lemma step_Resume_backlog (i : nat) (inv : invocation) (s : system) :
  Forall bounded (invocations_of s) →
  invocations_of s !! i = Some inv → is_settled (inv_task inv) = false →
  step (Resume i) s = Some (resume_at i inv s) ∧
  backlog (resume_at i inv s) < backlog s.
Proof.
  intros Hb Hi Hpending. rewrite step_Resume_eq, Hi. simpl. rewrite Hpending.
  split; [done|]. unfold backlog, resume_at. simpl.
  eapply sum_list_fmap_insert_lt; [exact Hi|].
  eapply Forall_lookup_1 in Hb; [|exact Hi].
  pose proof (bounded_resume inv (world_of s) Hb Hpending) as Hres.
  destruct (resume _ _) as [[t w'] ev]. destruct Hres as [Hle _].
  unfold remaining. simpl in *. rewrite Hpending. destruct (is_settled t); lia.
Qed.

Lemma drain_spec (n : nat) (s : system) :
  Forall bounded (invocations_of s) → backlog s < n →
  steps (drain n s).1 s = Some (drain n s).2 ∧
  length (drain n s).1 ≤ backlog s ∧
  Forall (λ a, is_resume a = true) (drain n s).1 ∧
  Forall (λ inv, is_settled (inv_task inv) = true)
         (invocations_of (drain n s).2).
Proof.
  revert s. induction n as [|n IH]; intros s Hb Hlt; [lia|]. cbn [drain].
  destruct (first_pending (invocations_of s)) as [i|] eqn:Ei.
  2: { cbn. repeat split; [lia|constructor|by apply first_pending_None]. }
  apply first_pending_Some in Ei as (inv & Hi & Hpending).
  destruct (step_Resume_backlog i inv s Hb Hi Hpending) as [Hstep Hless].
  rewrite Hstep. destruct (IH (resume_at i inv s)) as (Hs & Hlen & Hres & Hall).
  { eapply step_invocation_invariant;
      [apply bounded_start|apply bounded_resume|exact Hb|exact Hstep]. }
  { lia. }
  destruct (drain n (resume_at i inv s)) as [acts s'']. cbn [fst snd steps] in *.
  rewrite Hstep. cbn [mbind option_bind length].
  repeat split; [done|lia|by constructor|done].
Qed.

Lemma backlog_le (s : system) : backlog s ≤ 2 * length (invocations_of s).
Proof.
  apply sum_list_fmap_le. intros inv. unfold remaining.
  destruct (is_settled _); lia.
Qed.

(** ** One invocation at a time *)

Lemma first_pending_settled (invs : list invocation) :
  Forall (λ inv, is_settled (inv_task inv) = true) invs →
  first_pending invs = None.
Proof.
  intros Hall. unfold first_pending. apply fmap_None, list_find_None.
  eapply Forall_impl; [exact Hall|]. by intros inv ->.
Qed.

Lemma first_pending_last (invs : list invocation) (inv : invocation) :
  Forall (λ inv, is_settled (inv_task inv) = true) invs →
  is_settled (inv_task inv) = false →
  first_pending (invs ++ [inv]) = Some (length invs).
Proof.
  intros Hall%first_pending_settled%fmap_None Hpending. unfold first_pending.
  rewrite list_find_app_r by done. simpl. by rewrite decide_True by done.
Qed.

(** One answer of the schedule. *)
Lemma drain_S (n : nat) (s : system) :
  drain (S n) s =
    match first_pending (invocations_of s)
          ≫= (λ i, step (Resume i) s ≫= λ s', Some (i, s')) with
    | Some (i, s') => (Resume i :: (drain n s').1, (drain n s').2)
    | None => ([], s)
    end.
Proof.
  cbn [drain]. destruct (first_pending _) as [i|]; [|done].
  cbn [mbind option_bind].
  destruct (step (Resume i) s) as [s'|]; [|done]. cbn [mbind option_bind].
  by destruct (drain n s').
Qed.

(** Nothing is left to answer when every invocation has settled. *)
Lemma drain_settled (n : nat) (s : system) :
  Forall (λ inv, is_settled (inv_task inv) = true) (invocations_of s) →
  drain n s = ([], s).
Proof.
  intros Hall%first_pending_settled. destruct n as [|n]; [done|].
  cbn [drain]. by rewrite Hall.
Qed.

(** When all invocations but the youngest have settled, draining the
    system resumes the youngest until it settles: the platform and the
    invocation end where [n] resumptions in a row lead, for every [n] that
    bounds the calls the invocation may still await. *)
Lemma drain_last (n : nat) (invs : list invocation) (inv : invocation)
    (w : world) :
  Forall (λ inv, is_settled (inv_task inv) = true) invs →
  within_task n (inv_task inv) →
  let s := {| world_of := w; invocations_of := invs ++ [inv] |} in
  let r := resumes n (inv_task inv) w in
  ∃ k,
    steps (drain (S n) s).1 s = Some (drain (S n) s).2 ∧
    (drain (S n) s).2
    = {| world_of := r.1.2;
         invocations_of :=
           invs ++ [{| inv_snap := inv_snap inv; inv_task := r.1.1;
                       inv_trace := inv_trace inv ++ r.2;
                       inv_resumed := k |}] |}.
Proof.
  intros Hall. cbv zeta. revert inv w.
  induction n as [|n IH]; intros inv w Hin;
    destruct (is_settled (inv_task inv)) eqn:Hs.
  1,3: assert (Forall (λ inv, is_settled (inv_task inv) = true)
                 (invs ++ [inv])) as Hall'
         by (apply Forall_app; split; [done|by repeat constructor]);
    destruct (inv_task inv) as [|o] eqn:Et; [done|];
    rewrite drain_settled, ?resumes_Settled by done;
    exists (inv_resumed inv); split; [done|]; simpl;
    rewrite app_nil_r, <-Et; by destruct inv.
  - apply within_0_Settled in Hin as [o Ho]. by rewrite Ho in Hs.
  - rewrite drain_S. cbn [invocations_of].
    rewrite (first_pending_last invs inv Hall Hs). cbn [mbind option_bind].
    rewrite step_Resume_last by done. cbn [mbind option_bind fst snd steps].
    rewrite step_Resume_last by done. cbn [mbind option_bind resumes].
    pose proof (within_resume n (inv_task inv) w Hin) as Hin'.
    destruct (resume (inv_task inv) w) as [[t1 w1] ev1].
    destruct (IH (resumed inv t1 ev1) w1 Hin') as (k & Hst & Hd).
    cbn [fst snd inv_task inv_trace inv_snap resumed] in *.
    destruct (resumes n t1 w1) as [[t2 w2] ev2]. cbn [fst snd] in *.
    exists k. split; [done|]. rewrite Hd. by rewrite (assoc_L (++)).
Qed.

(** C25: from every reachable state the platform can settle every
    invocation by answering the pending calls, with at most two answers
    per invocation: no invocation waits for another, and none can be
    resumed forever. *)
Theorem every_invocation_can_settle (w : world) (s : system) :
  reachable (deployed w) s →
  let r := drain (S (backlog s)) s in
  steps r.1 s = Some r.2 ∧
  length r.1 ≤ 2 * length (invocations_of s) ∧
  Forall (λ a, is_resume a = true) r.1 ∧
  Forall (λ inv, is_settled (inv_task inv) = true) (invocations_of r.2).
Proof.
  intros Hs%reachable_bounded. cbv zeta.
  destruct (drain_spec (S (backlog s)) s Hs) as (H1 & H2 & H3 & H4); [lia|].
  pose proof (backlog_le s). repeat split; [done|lia|done|done].
Qed.

(** * Worked runs *)

Lemma every_invocation_can_settle_witness :
  let s := run_of two_requests town in
  let r := drain (S (backlog s)) s in
  steps r.1 s = Some r.2 ∧
  length r.1 ≤ 2 * length (invocations_of s) ∧
  Forall (λ a, is_resume a = true) r.1 ∧
  Forall (λ inv, is_settled (inv_task inv) = true) (invocations_of r.2).
Proof.
  apply (every_invocation_can_settle town).
  apply (steps_reachable two_requests), two_requests_steps.
Defined.

(** Two requests created together: answering the pending calls oldest
    first settles both invocations in four answers, and two messages are
    accepted, one per request. *)
Example two_requests_drained :
  let s := run_of two_requests town in
  let r := drain (S (backlog s)) s in
  r.1 = [Resume 0; Resume 0; Resume 1; Resume 1] ∧
  outbox (world_of r.2)
  = [message [VString "A"; VString "B"]; message [VString "A"; VString "B"]].
Proof. by vm_compute. Qed.
