(* ===== verification/Deployment.v ===== *)
(** * The deployment: trigger, process and services together

    The files before this one treat the parts one by one: which changes
    invoke the function ([Trigger], [Handler.exports]), the process with
    the SDK handle ([Sdk]), the database and the push service ([World]),
    the bound on a multicast ([Limits]) and the interleaved invocations
    ([System], [Schedule]).  This file puts them on top of each other.

    The [stack] is a process whose services are the database and the push
    service behind the check of [Limits].  The first theorem follows the
    creation of a request through all of it.  The second relates the two
    models of the runtime: a process that serves the changes of the
    database one at a time, each invocation run to its end ([serve]), does
    what the system of [System] does on the schedule that answers the
    calls of each invocation before the next change is committed
    ([in_turn]); what holds in every reachable state of the system holds
    of such a process. *)

From Stdlib Require Import Ascii.
From stdpp Require Import gmap.
From S2P Require Import Prelude JsValue Firestore Messaging Program Spec Trigger Handler Sdk World Limits System Schedule.

(** * Definitions *)

(** The process on top of the checked push service on top of the database
    and the push service. *)
Definition stack : Type := process (limited world).

Definition boot (limit : nat) (w : world) : stack := start (Limited limit w).

(** The stack is a layer on the database and the push service: a call
    passes when the default app exists and the check admits it. *)
#[export] Instance stack_layer : Layer stack world :=
  stacked (process_layer (W:=limited world)) limited_layer.

Definition world_under (p : stack) : world := behind (services p).

(** ** Serving one change at a time *)

(** A change is written to the database and handled in the process, the
    invocation it causes run to its end. *)
Definition serve (c : change) (p : process world)
  : result error (process world * list (outcome unit * list event)) :=
  handle c
    (with_services (with_db (apply_change c (db (services p))) (services p)) p).

Fixpoint serve_all (cs : list change) (p : process world)
  : result error (process world * list (outcome unit * list event)) :=
  match cs with
  | [] => Ok (p, [])
  | c :: cs' =>
      '(p1, rs) ← serve c p;
      '(p2, rs') ← serve_all cs' p1;
      Ok (p2, rs ++ rs')
  end.

(** The same in the system: the change is committed and the calls of the
    invocation it starts are answered until it settles, before anything
    else happens.  Three answers are more than an invocation awaits. *)
Definition in_turn (c : change) (s : system) : option (list action * system) :=
  s1 ← step (Commit c) s;
  Some (Commit c :: (drain 3 s1).1, (drain 3 s1).2).

Fixpoint in_turns (cs : list change) (s : system)
  : option (list action * system) :=
  match cs with
  | [] => Some ([], s)
  | c :: cs' =>
      '(acts, s1) ← in_turn c s;
      '(acts', s2) ← in_turns cs' s1;
      Some (acts ++ acts', s2)
  end.

(** What the system keeps of an invocation and what the process returns
    of it: where it stands and what it did. *)
Definition record (inv : invocation) : task unit * list event :=
  (inv_task inv, inv_trace inv).

Definition result_of (r : outcome unit * list event) : task unit * list event :=
  (Settled r.1, r.2).

(** Every invocation has settled. *)
Definition quiet (s : system) : Prop :=
  Forall (λ inv, is_settled (inv_task inv) = true) (invocations_of s).

(** The process [p], having returned the results [rs], stands where the
    system [s] stands: the module is loaded or can be, the services are
    the platform of the system, and the invocations of the system are
    those the process ran, each settled with its outcome and its calls. *)
Definition simulates (s : system) (p : process world)
    (rs : list (outcome unit * list event)) : Prop :=
  (fresh p ∨ ready p) ∧ services p = world_of s ∧
  record <$> invocations_of s = result_of <$> rs.

(** * The creation of a request, end to end *)

(** Once the module is loaded, and when the truthy tokens of the
    available drivers are no more than the push service takes, the
    handler runs on the stack as it does on the database and the push
    service; what [World] shows of its runs holds on the stack. *)
Lemma exec_stack snap context (p : stack) :
  ready p →
  length (tokensOf (availableDrivers (world_under p)))
  ≤ max_tokens (services p) →
  let r := exec (sendDriverNotification snap context) (world_under p) in
  exec (sendDriverNotification snap context) p
  = (r.1.1,
     with_services (with_behind r.1.2 (services p)) p, r.2).
Proof.
  intros Hp%ready_app Hle. refine (exec_layer (W:=world) _ p _).
  apply Forall_forall.
  intros [q r|m r|line] He; cbn; rewrite ?Hp; [done| |done].
  assert (m ∈ sent (exec (sendDriverNotification snap context)
                      (world_under p)).2) as [-> Htok]%sent_exec_world.
  { apply list_elem_of_omap. by exists (EvSend m r). }
  by apply admits_iff.
Qed.

(** C13: the creation of a request, through the whole stack.  In every
    state the process can be in, when both services answer and the truthy
    tokens of the available drivers are at least one and at most the bound
    of the push service, handling the creation of a request loads the
    module if need be and runs one invocation, which resolves after the
    query, one multicast to exactly those tokens and the log line with
    the count of the devices reached; the push service has accepted that
    message, the console shows that line, and the database is as it was. *)
Theorem created_request_notifies_available_drivers
    (id : string) (fields : object) (limit : nat) (w0 w : world) (p : stack) :
  alive (Limited limit w0) p → services p = Limited limit w →
  id ≠ EmptyString → contains "/"%char id = false →
  firestore_up w = true → messaging_up w = true →
  tokensOf (availableDrivers w) ≠ [] →
  length (tokensOf (availableDrivers w)) ≤ limit →
  let m := message (tokensOf (availableDrivers w)) in
  let response := deliver (devices w) m in
  ∃ p', handle (created id fields) p
        = Ok (p', [(Resolved tt,
                    [EvGet driversQuery (Ok (availableDrivers w));
                     EvSend m (Ok response); EvLog (logLine response)])]) ∧
        ready p' ∧
        services p'
        = Limited limit (extend [m] [logLine response] w).
Proof.
  intros Hp%alive_state Hw Hid Hsep Hfs Hfcm Htok Hle. cbv zeta.
  destruct (handle_one (created id fields) _ p Hp
              (invocations_created id fields Hid Hsep))
    as (p1 & Hp1 & Hw1 & ->).
  assert (world_under p1 = w) as Hu by (unfold world_under; by rewrite Hw1, Hw).
  rewrite exec_stack; [|done|by rewrite Hu, Hw1, Hw].
  rewrite Hu, (exec_world_sent _ _ w) by done.
  eexists. split; [done|]. split; [done|]. cbn. by rewrite Hw1, Hw.
Qed.

(** * One change at a time: the process and the system *)

Lemma record_settled (inv : invocation) r :
  record inv = result_of r → is_settled (inv_task inv) = true.
Proof. unfold record, result_of. by intros [= -> _]. Qed.

Lemma simulates_quiet (s : system) p rs : simulates s p rs → quiet s.
Proof.
  intros (_ & _ & Hrec). unfold quiet. revert rs Hrec.
  induction (invocations_of s) as [|inv invs IH]; intros [|r rs] Hrec;
    simplify_eq/=; constructor; eauto using record_settled.
Qed.

(** A change that invokes nothing: the process loads the module, the
    system commits the change, and nothing is left to answer. *)
Lemma serve_in_turn_none (c : change) (s : system) p rs :
  simulates s p rs → admissible c = true → invocations exports c = [] →
  ∃ p' s', serve c p = Ok (p', []) ∧ in_turn c s = Some ([Commit c], s') ∧
           steps [Commit c] s = Some s' ∧ simulates s' p' rs.
Proof.
  intros Hsim Hadm Hinv. pose proof (simulates_quiet s p rs Hsim) as Hq.
  destruct Hsim as (Hp & Hw & Hrec).
  destruct (handle_none c (with_services
              (with_db (apply_change c (db (services p))) (services p)) p))
    as (p1 & Hp1 & Hw1 & Hh); [done..|].
  exists p1. eexists. unfold in_turn. cbn [steps].
  rewrite step_Commit_eq, Hadm, started_none by done.
  cbn [mbind option_bind fst snd]. rewrite drain_settled.
  2: { cbn [invocations_of]. by rewrite app_nil_r. }
  split; [done|]. split; [done|]. split; [done|].
  split; [by right|]. cbn [world_of invocations_of]. rewrite app_nil_r.
  split; [|done]. by rewrite Hw1, <-Hw.
Qed.

(** A change that invokes the handler: the process runs it to its end,
    the system starts it and answers its calls, and both end with the
    same platform and the same account of the invocation. *)
Lemma serve_in_turn_one (c : change) snap context (s : system) p rs :
  simulates s p rs → admissible c = true →
  invocations exports c = [sendDriverNotification snap context] →
  ∃ p' r acts s', serve c p = Ok (p', [r]) ∧ in_turn c s = Some (acts, s') ∧
                  steps acts s = Some s' ∧ simulates s' p' (rs ++ [r]).
Proof.
  intros Hsim Hadm Hinv. pose proof (simulates_quiet s p rs Hsim) as Hq.
  destruct Hsim as (Hp & Hw & Hrec).
  set (w1 := with_db (apply_change c (db (world_of s))) (world_of s)).
  set (h := sendDriverNotification snap context) in *.
  destruct (handle_one c h (with_services w1 p)) as (p1 & Hp1 & Hw1 & Hh);
    [done..|].
  rewrite (exec_ready h p1 Hp1), Hw1 in Hh. cbn [fst snd services] in Hh.
  pose proof (run_within 2 h w1 (sendDriverNotification_within _ _)) as Hrun.
  rewrite run_parts in Hrun. cbv zeta in Hrun.
  destruct (drain_last 2 (invocations_of s)
              {| inv_snap := {| snap_path := ch_path c;
                                snap_fields := ch_fields c |};
                 inv_task := (advance h w1).1.1; inv_trace := (advance h w1).2;
                 inv_resumed := 0 |}
              (advance h w1).1.2 Hq)
    as (k & Hst & Hd);
    [by apply within_advance, sendDriverNotification_within|].
  cbn [inv_task inv_trace inv_snap] in *.
  do 4 eexists. unfold serve, in_turn. rewrite Hw. fold w1. rewrite Hh.
  rewrite step_Commit_eq, Hadm, (started_one c h) by done.
  cbn [mbind option_bind fst snd]. fold w1. split; [done|]. split; [done|].
  split.
  { cbn [steps]. rewrite step_Commit_eq, Hadm, (started_one c h) by done.
    exact Hst. }
  injection Hrun as Ht Hwf Hev. rewrite Hd. split; [by right|].
  cbn [services with_services world_of invocations_of]. split; [done|].
  rewrite !fmap_app, Hrec. f_equal. unfold record, result_of. cbn.
  by rewrite Ht, Hev.
Qed.

Lemma serve_in_turn (c : change) (s : system) p rs :
  simulates s p rs → admissible c = true →
  ∃ p' rs' acts s', serve c p = Ok (p', rs') ∧
                    in_turn c s = Some (acts, s') ∧
                    steps acts s = Some s' ∧ simulates s' p' (rs ++ rs').
Proof.
  intros Hsim Hadm. destruct (invocations_exports c) as [Hinv|[id Hinv]].
  - destruct (serve_in_turn_none c s p rs Hsim Hadm Hinv)
      as (p' & s' & ? & ? & ? & ?).
    exists p', [], [Commit c], s'. by rewrite app_nil_r.
  - destruct (serve_in_turn_one c _ _ s p rs Hsim Hadm Hinv)
      as (p' & r & acts & s' & ? & ? & ? & ?).
    by exists p', [r], acts, s'.
Qed.

Lemma serve_all_in_turns (cs : list change) (s : system) p rs :
  simulates s p rs → Forall (λ c, admissible c = true) cs →
  ∃ p' rs' acts s', serve_all cs p = Ok (p', rs') ∧
                    in_turns cs s = Some (acts, s') ∧
                    steps acts s = Some s' ∧ simulates s' p' (rs ++ rs').
Proof.
  intros Hsim Hcs. revert s p rs Hsim.
  induction Hcs as [|c cs Hc _ IH]; intros s p rs Hsim.
  { exists p, [], [], s. by rewrite app_nil_r. }
  destruct (serve_in_turn c s p rs Hsim Hc)
    as (p1 & rs1 & acts1 & s1 & Hserve & Hturn & Hsteps & Hsim1).
  destruct (IH s1 p1 (rs ++ rs1) Hsim1)
    as (p2 & rs2 & acts2 & s2 & Hserve2 & Hturn2 & Hsteps2 & Hsim2).
  exists p2, (rs1 ++ rs2), (acts1 ++ acts2), s2.
  cbn [serve_all in_turns]. rewrite Hserve, Hturn. simpl.
  rewrite Hserve2, Hturn2, steps_app, Hsteps. simpl.
  by rewrite (assoc_L (++)).
Qed.

(** C18: a process that serves the changes of the database one at a time
    is one schedule of the system.  From deployment, serving any list of
    admissible changes never fails, and the system reaches, by the
    schedule that commits each change and answers the calls of its
    invocation before the next, a state with the same platform in which
    every invocation has settled with the outcome and the calls the
    process returned for it.  What holds in every reachable state of the
    system therefore holds of the process. *)
Theorem sequential_runtime_is_a_schedule (w : world) (cs : list change) :
  Forall (λ c, admissible c = true) cs →
  ∃ p rs acts s,
    serve_all cs (start (world_of (deployed w))) = Ok (p, rs) ∧
    in_turns cs (deployed w) = Some (acts, s) ∧
    steps acts (deployed w) = Some s ∧
    services p = world_of s ∧
    record <$> invocations_of s = result_of <$> rs.
Proof.
  intros Hcs.
  destruct (serve_all_in_turns cs (deployed w) (start (world_of (deployed w)))
              [] ) as (p & rs & acts & s & ? & ? & ? & _ & ? & ?); [|done|].
  { split; [by left|done]. }
  by exists p, rs, acts, s.
Qed.

(** * Worked runs *)

(** The town of [World] behind a push service that takes two tokens per
    multicast, in a process that has just started. *)
Lemma created_request_notifies_available_drivers_witness :
  let m := message (tokensOf (availableDrivers town)) in
  let response := deliver (devices town) m in
  ∃ p', handle (created "r1" [("patient", VString "unit 4")]) (boot 2 town)
        = Ok (p', [(Resolved tt,
                    [EvGet driversQuery (Ok (availableDrivers town));
                     EvSend m (Ok response); EvLog (logLine response)])]) ∧
        ready p' ∧
        services p' = Limited 2 (extend [m] [logLine response] town).
Proof.
  apply (created_request_notifies_available_drivers
           "r1" [("patient", VString "unit 4")] 2 town town (boot 2 town));
    [constructor|done..| |].
  - by rewrite town_available.
  - rewrite town_available. vm_compute. lia.
Defined.

(** A request, the retirement of driver A, and a second request. *)
Definition a_day : list change :=
  [created "r1" [("patient", VString "unit 4")];
   {| ch_kind := Updated; ch_path := "drivers/a";
      ch_fields := Some [("isAvailable", VBoolean false);
                         ("fcmToken", VString "A")] |};
   created "r2" []].

Lemma sequential_runtime_is_a_schedule_witness :
  ∃ p rs acts s,
    serve_all a_day (start (world_of (deployed town))) = Ok (p, rs) ∧
    in_turns a_day (deployed town) = Some (acts, s) ∧
    steps acts (deployed town) = Some s ∧
    services p = world_of s ∧
    record <$> invocations_of s = result_of <$> rs.
Proof.
  apply (sequential_runtime_is_a_schedule town a_day).
  by repeat constructor.
Defined.

(** Served one at a time, the first request notifies A and B and the
    second, created after A retired, notifies B; the schedule of the
    system is a commit followed by the two answers for each request. *)
Example a_day_served :
  match serve_all a_day (start (world_of (deployed town))) with
  | Ok (p, rs) =>
      outbox (services p)
      = [message [VString "A"; VString "B"]; message [VString "B"]] ∧
      fst <$> rs = [Resolved tt; Resolved tt]
  | Err _ => False
  end ∧
  match in_turns a_day (deployed town) with
  | Some (acts, _) =>
      is_resume <$> acts = [false; true; true; false; false; true; true]
  | None => False
  end.
Proof. by vm_compute. Qed.
