(* ===== verification/Retry.v ===== *)
(** * Retries of rejected invocations

    Section 4.1 of the specification, failure semantics: an error of the
    query or of the send is not caught; it "propagates to the invoking
    platform's own failure-handling/retry policy".  This file models the
    least such a policy can do: invoke the function again for the event of
    an invocation that rejected, at most once per rejected invocation, at
    any later moment.  When and how often a platform retries, its backoff
    and its alerting are not modelled.

    A [supervised] system is a [System.system] together with the record
    of which invocations have been retried.  The theorems show that
    retries are safe for this function (a request never gets a second
    message through a retry, because an invocation that rejects has had no
    message accepted) and that they are useful (a retry notifies the
    drivers once the services answer again). *)

From stdpp Require Import gmap.
From S2P Require Import Prelude JsValue Firestore Messaging Program Spec Trigger Handler World System.

(** * Supervised systems *)

(** The event an invocation was started for: the creation of the document
    of its snapshot. *)
Definition event_of (snap : DocumentSnapshot) : change :=
  {| ch_kind := Created; ch_path := snap_path snap;
     ch_fields := snap_fields snap |}.

Definition is_rejected (t : task unit) : bool :=
  match t with Settled (Rejected _) => true | _ => false end.

(** The system, and for each invocation whether it has been retried. *)
Record supervised : Type := Supervised {
  base : system;
  was_retried : list bool
}.

Variant supervision : Type :=
| Plain (a : action)
| Retry (i : nat).

(** The invocations the runtime starts when it delivers the event of
    [snap] again. *)
Definition restart (snap : DocumentSnapshot) (w : world)
  : list invocation * world :=
  start_all {| snap_path := ch_path (event_of snap);
               snap_fields := ch_fields (event_of snap) |}
    (invocations exports (event_of snap)) w.

Definition supervise (s : system) : supervised :=
  {| base := s; was_retried := replicate (length (invocations_of s)) false |}.

(** One step.  A retry is possible for an invocation that has rejected and
    has not been retried yet. *)
Definition sstep (a : supervision) (s : supervised) : option supervised :=
  match a with
  | Plain a =>
      s' ← step a (base s);
      Some {| base := s';
              was_retried :=
                was_retried s ++
                replicate (length (invocations_of s')
                           - length (invocations_of (base s))) false |}
  | Retry i =>
      inv ← invocations_of (base s) !! i;
      flag ← was_retried s !! i;
      if is_rejected (inv_task inv) && negb flag then
        let r := restart (inv_snap inv) (world_of (base s)) in
        Some {| base := {| world_of := r.2;
                           invocations_of := invocations_of (base s) ++ r.1 |};
                was_retried :=
                  <[i := true]> (was_retried s) ++
                  replicate (length r.1) false |}
      else None
  end.

Fixpoint ssteps (acts : list supervision) (s : supervised)
  : option supervised :=
  match acts with
  | [] => Some s
  | a :: acts' => s' ← sstep a s; ssteps acts' s'
  end.

Inductive sreachable (s0 : supervised) : supervised → Prop :=
| sreachable_start : sreachable s0 s0
| sreachable_step s a s' :
    sreachable s0 s → sstep a s = Some s' → sreachable s0 s'.

(** The invocations that stand for a request: those not retried. *)
Definition requests (s : supervised) : nat :=
  length (List.filter negb (was_retried s)).

(** The snapshots a supervision step invokes the function with for a new
    request: those of a commit; a retry adds none. *)
Definition striggers (a : supervision) : list DocumentSnapshot :=
  match a with Plain a => triggers a | Retry _ => [] end.

(** What the record of retries says of the invocations: a retried
    invocation has rejected. *)
Definition retried_rejected (inv : invocation) (flag : bool) : Prop :=
  flag = true → is_rejected (inv_task inv) = true.

(** * The steps *)

Lemma sstep_Plain (a : action) (s s' : supervised) :
  sstep (Plain a) s = Some s' ↔
  step a (base s) = Some (base s') ∧
  was_retried s' =
    was_retried s ++
    replicate (length (invocations_of (base s'))
               - length (invocations_of (base s))) false.
Proof.
  cbn [sstep]. destruct (step a (base s)) as [s1|]; simpl.
  - split; [by intros [= <-]|]. intros [[= ->] Hf]. destruct s'. simpl in *.
    by rewrite Hf.
  - split; [done|]. by intros [? _].
Qed.

Lemma sstep_Retry (i : nat) (s s' : supervised) :
  sstep (Retry i) s = Some s' ↔
  ∃ inv, invocations_of (base s) !! i = Some inv ∧
         was_retried s !! i = Some false ∧
         is_rejected (inv_task inv) = true ∧
         let r := restart (inv_snap inv) (world_of (base s)) in
         s' = {| base := {| world_of := r.2;
                            invocations_of := invocations_of (base s) ++ r.1 |};
                 was_retried := <[i := true]> (was_retried s) ++
                                replicate (length r.1) false |}.
Proof.
  cbn [sstep]. destruct (invocations_of (base s) !! i) as [inv|]; simpl.
  2: { split; [done|]. by intros (? & ? & _). }
  destruct (was_retried s !! i) as [flag|]; simpl.
  2: { split; [done|]. by intros (? & _ & ? & _). }
  destruct (is_rejected (inv_task inv)) eqn:Hrej, flag; simpl;
    try (split; [done|]; intros (inv' & [= <-] & ? & ? & _); congruence).
  split.
  - intros [= <-]. by exists inv.
  - by intros (inv' & [= <-] & _ & _ & ->).
Qed.

Lemma sreachable_trans (s0 s1 s2 : supervised) :
  sreachable s0 s1 → sreachable s1 s2 → sreachable s0 s2.
Proof. intros H1 H2. induction H2; [done|]. by eapply sreachable_step. Qed.

Lemma ssteps_cons_inv (a : supervision) acts (s s' : supervised) :
  ssteps (a :: acts) s = Some s' →
  ∃ s1, sstep a s = Some s1 ∧ ssteps acts s1 = Some s'.
Proof. simpl. destruct (sstep a s) as [s1|]; [eauto|done]. Qed.

Lemma ssteps_sreachable (acts : list supervision) (s s' : supervised) :
  ssteps acts s = Some s' → sreachable s s'.
Proof.
  revert s. induction acts as [|a acts IH]; intros s.
  - intros [= ->]. constructor.
  - intros (s1 & Ha & Hacts)%ssteps_cons_inv.
    eapply sreachable_trans; [|by apply IH].
    eapply sreachable_step; [constructor|done].
Qed.

(** * Invariants *)

Lemma snapshot_eta (snap : DocumentSnapshot) :
  {| snap_path := snap_path snap; snap_fields := snap_fields snap |} = snap.
Proof. by destruct snap. Qed.

(** A retry starts at most one invocation, which has made no call yet and
    carries the snapshot of the invocation it retries. *)
Lemma restart_spec (snap : DocumentSnapshot) (w : world) :
  (restart snap w).2
  = extend [] ((restart snap w).1 ≫= (λ inv, logged (inv_trace inv))) w ∧
  Forall (λ inv, inv_snap inv = snap ∧
                 Forall (λ e, is_log e = true) (inv_trace inv))
         (restart snap w).1 ∧
  length (restart snap w).1 ≤ 1.
Proof.
  unfold restart. destruct (start_all_spec
    {| snap_path := ch_path (event_of snap);
       snap_fields := ch_fields (event_of snap) |}
    (invocations exports (event_of snap)) w) as [Hw Hall].
  split; [done|]. split.
  - eapply Forall_impl; [exact Hall|]. intros inv [-> ?]. split; [|done].
    apply snapshot_eta.
  - destruct (invocations_exports (event_of snap)) as [->|[id ->]]; simpl;
      [lia|]. destruct (advance _ w) as [[? ?] ?]. simpl. lia.
Qed.

Lemma restart_accepted (snap : DocumentSnapshot) (w : world) :
  (restart snap w).1 ≫= (λ inv, accepted (inv_trace inv)) = [].
Proof.
  apply bind_all_nil. eapply Forall_impl; [apply restart_spec|].
  intros inv [_ Hl]. by apply accepted_logs.
Qed.

(** An invariant of the invocations holds under supervision as well: an
    invocation started by a retry starts like any other. *)
Section supervised_invariant.
Context (P : invocation → Prop).
Hypothesis P_start : ∀ snap context w,
  let '(t, _, ev) := advance (sendDriverNotification snap context) w in
  P {| inv_snap := snap; inv_task := t; inv_trace := ev; inv_resumed := 0 |}.
Hypothesis P_resume : ∀ inv w,
  P inv → is_settled (inv_task inv) = false →
  let '(t, _, ev) := resume (inv_task inv) w in P (resumed inv t ev).

Lemma sstep_invocation_invariant (a : supervision) (s s' : supervised) :
  Forall P (invocations_of (base s)) → sstep a s = Some s' →
  Forall P (invocations_of (base s')).
Proof using P_start P_resume.
  intros HP. destruct a as [a|i].
  - intros [Hstep _]%sstep_Plain.
    by eapply (step_invocation_invariant P P_start P_resume).
  - intros (inv & _ & _ & _ & ->)%sstep_Retry. simpl.
    apply Forall_app. split; [done|].
    apply (start_all_invariant P P_start).
Qed.

Lemma sreachable_invocation_invariant (w : world) (s : supervised) :
  sreachable (supervise (deployed w)) s →
  Forall P (invocations_of (base s)).
Proof using P_start P_resume.
  induction 1 as [|s a s' _ IH Hstep]; [by constructor|].
  by eapply sstep_invocation_invariant.
Qed.

End supervised_invariant.

Lemma sreachable_allowed (w : world) (s : supervised) :
  sreachable (supervise (deployed w)) s →
  Forall allowed (invocations_of (base s)).
Proof.
  apply sreachable_invocation_invariant;
    [apply allowed_start|apply allowed_resume].
Qed.

(** ** The record of retries *)

Lemma retried_rejected_new (invs : list invocation) :
  Forall2 retried_rejected invs (replicate (length invs) false).
Proof. induction invs; simpl; constructor; [by intros ?|done]. Qed.

Lemma step_length (a : action) (s s' : system) :
  step a s = Some s' →
  length (invocations_of s')
  = length (invocations_of s) + length (triggers a).
Proof.
  intros Hstep%step_snaps. apply (f_equal length) in Hstep.
  by rewrite length_app, !length_fmap in Hstep.
Qed.

Lemma sstep_retried_rejected (a : supervision) (s s' : supervised) :
  Forall2 retried_rejected (invocations_of (base s)) (was_retried s) →
  sstep a s = Some s' →
  Forall2 retried_rejected (invocations_of (base s')) (was_retried s').
Proof.
  intros Hs. destruct a as [[c|ds|fs fcm|j]|i].
  - intros [[_ Hb]%step_Commit ->]%sstep_Plain. rewrite Hb. simpl.
    rewrite length_app, Nat.add_sub'. apply Forall2_app; [done|].
    apply retried_rejected_new.
  - intros [[= <-] ->]%sstep_Plain. simpl.
    by rewrite Nat.sub_diag, app_nil_r.
  - intros [[= <-] ->]%sstep_Plain. simpl.
    by rewrite Nat.sub_diag, app_nil_r.
  - intros [(inv & Hj & Hpending & Hb)%step_Resume ->]%sstep_Plain.
    rewrite Hb. simpl. rewrite length_insert, Nat.sub_diag, app_nil_r.
    destruct (Forall2_lookup_l _ _ _ _ _ Hs Hj) as (flag & Hflag & Hrej).
    rewrite <-(list_insert_id (was_retried s) j flag Hflag).
    apply Forall2_insert; [done|]. intros ->. specialize (Hrej eq_refl).
    by destruct (inv_task inv) as [|[]].
  - intros (inv & Hi & Hflag & Hrej & ->)%sstep_Retry. simpl.
    apply Forall2_app; [|apply retried_rejected_new].
    rewrite <-(list_insert_id (invocations_of (base s)) i inv Hi).
    apply Forall2_insert; [done|by intros _].
Qed.

(** ** Messages and requests *)

Lemma sstep_accounts (a : supervision) (s s' : supervised) :
  outbox (world_of (base s)) ≡ₚ all_accepted (base s) →
  sstep a s = Some s' →
  outbox (world_of (base s')) ≡ₚ all_accepted (base s').
Proof.
  intros Hs. destruct a as [a|i].
  - intros [(ms & ls & (_ & Ho & _) & Ha & _)%step_world _]%sstep_Plain.
    rewrite Ho, Ha. simpl. f_equiv. by destruct a.
  - intros (inv & _ & _ & _ & ->)%sstep_Retry. unfold all_accepted. simpl.
    rewrite bind_app, restart_accepted, app_nil_r.
    rewrite (proj1 (restart_spec _ _)). simpl. by rewrite app_nil_r.
Qed.

Lemma sstep_requests (a : supervision) (s s' : supervised) :
  sstep a s = Some s' → requests s' ≤ requests s + length (striggers a).
Proof.
  unfold requests. destruct a as [a|i].
  - intros [Hstep ->]%sstep_Plain. rewrite (step_length _ _ _ Hstep).
    rewrite Nat.add_sub', List.filter_app, filter_negb_replicate.
    by rewrite length_app, length_replicate.
  - intros (inv & _ & Hflag & _ & ->)%sstep_Retry. simpl.
    rewrite List.filter_app, filter_negb_replicate, length_app,
      length_replicate.
    pose proof (filter_negb_insert_true _ _ Hflag).
    destruct (restart_spec (inv_snap inv) (world_of (base s))) as (_ & _ & ?).
    lia.
Qed.

(** Each invocation that has not been retried accounts for at most one
    accepted message, and a retried one for none. *)
Lemma accepted_le_requests (invs : list invocation) (flags : list bool) :
  Forall allowed invs → Forall2 retried_rejected invs flags →
  length (invs ≫= (λ inv, accepted (inv_trace inv)))
  ≤ length (List.filter negb flags).
Proof.
  intros Hall Hflags. induction Hflags as [|inv flag invs flags Hrej _ IH];
    [done|].
  apply Forall_cons in Hall as [Hinv Hall]. specialize (IH Hall).
  csimpl. rewrite length_app. destruct flag; simpl.
  - specialize (Hrej eq_refl). unfold allowed in Hinv.
    destruct (inv_task inv) as [|[|e]]; try done. simpl in Hinv.
    apply notifies_rejected_accepted in Hinv as [-> _]. simpl. lia.
  - apply always_task_extends in Hinv as (t' & o & Hrun).
    apply notifies_prefix_at_most_once in Hrun as [Hsent _].
    pose proof (length_accepted_le (inv_trace inv)). lia.
Qed.

(** The invariants of a supervised system, together. *)
Definition sound (s : supervised) : Prop :=
  Forall allowed (invocations_of (base s)) ∧
  Forall2 retried_rejected (invocations_of (base s)) (was_retried s) ∧
  outbox (world_of (base s)) ≡ₚ all_accepted (base s).

Lemma sound_start (w : world) : sound (supervise (deployed w)).
Proof. by repeat split; constructor. Qed.

Lemma sound_step (a : supervision) (s s' : supervised) :
  sound s → sstep a s = Some s' → sound s'.
Proof.
  intros (Hall & Hflags & Hout) Hstep. repeat split.
  - by eapply (sstep_invocation_invariant allowed allowed_start allowed_resume).
  - by eapply sstep_retried_rejected.
  - by eapply sstep_accounts.
Qed.

Lemma sound_sreachable (w : world) (s : supervised) :
  sreachable (supervise (deployed w)) s → sound s.
Proof.
  induction 1 as [|s a s' _ IH Hstep]; [apply sound_start|].
  by eapply sound_step.
Qed.

Lemma sound_outbox (s : supervised) :
  sound s → length (outbox (world_of (base s))) ≤ requests s.
Proof.
  intros (Hall & Hflags & ->). by apply accepted_le_requests.
Qed.

Lemma ssteps_requests (acts : list supervision) (s s' : supervised) :
  ssteps acts s = Some s' →
  requests s' ≤ requests s + length (acts ≫= striggers).
Proof.
  revert s. induction acts as [|a acts IH]; intros s.
  - intros [= ->]. simpl. lia.
  - intros (s1 & Ha%sstep_requests & Hacts%IH)%ssteps_cons_inv.
    csimpl. rewrite length_app. lia.
Qed.

(** * A retry, step by step *)

(** The handler on the database and push service, from suspension to
    suspension, when both services answer and there is somebody to
    notify: it suspends at the query without having done anything,
    suspends at the send after the query, and settles after the send. *)
Lemma handler_steps snap context (w : world) :
  is_Some (snap_fields snap) →
  firestore_up w = true → messaging_up w = true →
  tokensOf (availableDrivers w) ≠ [] →
  let r0 := advance (sendDriverNotification snap context) w in
  let r1 := resume r0.1.1 r0.1.2 in
  let r2 := resume r1.1.1 r1.1.2 in
  r0.1.2 = w ∧ r0.2 = [] ∧
  is_settled r0.1.1 = false ∧ is_settled r1.1.1 = false ∧
  r2.1.1 = Settled (Resolved tt) ∧
  outbox r2.1.2 = outbox w ++ [message (tokensOf (availableDrivers w))].
Proof.
  intros Hdata%data_truthy_iff Hfs Hfcm Htok. cbv zeta.
  unfold sendDriverNotification. rewrite Hdata. simpl. rewrite Hfs. simpl.
  rewrite runQuery_driversQuery. unfold driverTokens.
  rewrite forEach_collect, app_nil_l, length_zero_nil.
  rewrite bool_decide_eq_false_2 by done. simpl. rewrite Hfcm. by simpl.
Qed.

(** Resuming the youngest invocation. *)
Lemma sstep_Resume_last (invs : list invocation) (inv : invocation)
    (w : world) (F : list bool) :
  is_settled (inv_task inv) = false →
  ∃ F',
    sstep (Plain (Resume (length invs)))
      {| base := {| world_of := w; invocations_of := invs ++ [inv] |};
         was_retried := F |}
    = Some {| base := {| world_of := (resume (inv_task inv) w).1.2;
                         invocations_of :=
                           invs ++ [resumed inv (resume (inv_task inv) w).1.1
                                                (resume (inv_task inv) w).2] |};
              was_retried := F' |}.
Proof.
  intros Hpending. eexists. apply sstep_Plain. cbn [base was_retried].
  split; [by apply step_Resume_last|done].
Qed.

(** ** Every invocation can be retried *)

(** Delivering the event of a snapshot again invokes the handler, with
    that snapshot. *)
Definition redelivers (snap : DocumentSnapshot) : Prop :=
  ∃ id, invocations exports (event_of snap)
        = [sendDriverNotification
             {| snap_path := snap_path snap; snap_fields := snap_fields snap |}
             {| params := [("requestId", id)] |}].

Lemma invocations_exports_Created (c : change) :
  invocations exports c ≠ [] → event_of
    {| snap_path := ch_path c; snap_fields := ch_fields c |} = c.
Proof.
  unfold invocations. rewrite exports_registered. csimpl.
  destruct (dispatch registered c) as [p|] eqn:E; [|done]. intros _.
  apply dispatch_kind in E. destruct c. unfold event_of. simpl in *.
  by rewrite E.
Qed.

Lemma start_all_redelivers (c : change) (w : world) :
  Forall (λ inv, redelivers (inv_snap inv))
    (start_all {| snap_path := ch_path c; snap_fields := ch_fields c |}
       (invocations exports c) w).1.
Proof.
  pose proof (invocations_exports_Created c) as Hc.
  destruct (start_all_spec
    {| snap_path := ch_path c; snap_fields := ch_fields c |}
    (invocations exports c) w) as [_ Hall].
  destruct (invocations_exports c) as [E|[id E]].
  { rewrite E. by constructor. }
  eapply Forall_impl; [exact Hall|]. intros inv [-> _].
  exists id. rewrite Hc by (by rewrite E). by rewrite E.
Qed.

Lemma sstep_redelivers (a : supervision) (s s' : supervised) :
  Forall (λ inv, redelivers (inv_snap inv)) (invocations_of (base s)) →
  sstep a s = Some s' →
  Forall (λ inv, redelivers (inv_snap inv)) (invocations_of (base s')).
Proof.
  intros Hs. destruct a as [[c|ds|fs fcm|j]|i].
  - intros [[_ Hb]%step_Commit _]%sstep_Plain. rewrite Hb. simpl.
    apply Forall_app. split; [done|]. apply start_all_redelivers.
  - by intros [[= <-] _]%sstep_Plain.
  - by intros [[= <-] _]%sstep_Plain.
  - intros [(inv & Hj & _ & Hb)%step_Resume _]%sstep_Plain.
    rewrite Hb. simpl. apply Forall_insert; [done|].
    by eapply (Forall_lookup_1 _ _ _ _ Hs) in Hj.
  - intros (inv & Hi & _ & _ & ->)%sstep_Retry. simpl.
    apply Forall_app. split; [done|].
    eapply Forall_impl; [apply restart_spec|]. intros inv' [-> _].
    by eapply (Forall_lookup_1 _ _ _ _ Hs) in Hi.
Qed.

Lemma sreachable_redelivers (w : world) (s : supervised) :
  sreachable (supervise (deployed w)) s →
  Forall (λ inv, redelivers (inv_snap inv)) (invocations_of (base s)).
Proof.
  induction 1 as [|s a s' _ IH Hstep]; [by constructor|].
  by eapply sstep_redelivers.
Qed.

(** The schedule that retries invocation [i] and answers the two calls of
    the new invocation. *)
Definition recover (i : nat) (s : supervised) : option supervised :=
  let n := length (invocations_of (base s)) in
  ssteps [Retry i; Plain (Resume n); Plain (Resume n)] s.

Lemma restart_redelivers (snap : DocumentSnapshot) (id : string) (w : world) :
  invocations exports (event_of snap)
  = [sendDriverNotification
       {| snap_path := snap_path snap; snap_fields := snap_fields snap |}
       {| params := [("requestId", id)] |}] →
  restart snap w
  = let r := advance (sendDriverNotification
                        {| snap_path := snap_path snap;
                           snap_fields := snap_fields snap |}
                        {| params := [("requestId", id)] |}) w in
    ([ {| inv_snap := {| snap_path := snap_path snap;
                         snap_fields := snap_fields snap |};
          inv_task := r.1.1; inv_trace := r.2; inv_resumed := 0 |} ], r.1.2).
Proof.
  intros E. unfold restart. rewrite E. cbn [start_all event_of ch_path ch_fields].
  by destruct (advance _ w) as [[t w'] ev].
Qed.

Lemma sstep_Retry_Some (i : nat) (s : supervised) (inv : invocation) :
  invocations_of (base s) !! i = Some inv →
  was_retried s !! i = Some false →
  is_rejected (inv_task inv) = true →
  sstep (Retry i) s
  = Some {| base :=
              {| world_of := (restart (inv_snap inv) (world_of (base s))).2;
                 invocations_of :=
                   invocations_of (base s)
                   ++ (restart (inv_snap inv) (world_of (base s))).1 |};
            was_retried :=
              <[i := true]> (was_retried s) ++
              replicate
                (length (restart (inv_snap inv) (world_of (base s))).1)
                false |}.
Proof. intros Hi Hflag Hrej. apply sstep_Retry. by exists inv. Qed.

(** * What retries guarantee *)

(** Under supervision, with rejected invocations retried at any
    moment, every settled invocation, retried or started by a retry, has
    made exactly the calls the contract allows for its snapshot. *)
Theorem retried_invocation_keeps_contract (w : world) (s : supervised)
    (inv : invocation) (o : outcome unit) :
  sreachable (supervise (deployed w)) s →
  inv ∈ invocations_of (base s) → inv_task inv = Settled o →
  notifies (inv_snap inv) (inv_trace inv) o.
Proof.
  intros Hs Hinv Ho. apply sreachable_allowed in Hs.
  eapply Forall_forall in Hs; [|exact Hinv]. unfold allowed in Hs.
  by rewrite Ho in Hs.
Qed.

(** C17: retries never notify twice.  After any run of commits, service
    changes, resumptions and retries, the push service has accepted at
    most one message per created request: an invocation that rejects has
    had no message accepted, so retrying it cannot repeat one. *)
Theorem retries_never_duplicate (acts : list supervision) (w : world)
    (s : supervised) :
  ssteps acts (supervise (deployed w)) = Some s →
  length (outbox (world_of (base s))) ≤ length (acts ≫= striggers).
Proof.
  intros Hacts. pose proof (ssteps_requests _ _ _ Hacts) as Hreq.
  apply ssteps_sreachable, sound_sreachable, sound_outbox in Hacts.
  etrans; [exact Hacts|exact Hreq].
Qed.

(** C26: a retry recovers the notification.  When an invocation has
    rejected and both services answer again, retrying it and answering the
    two calls of the new invocation makes the push service accept one
    message, addressed to the drivers available now; the new invocation
    carries the snapshot of the one it retries and resolves. *)
Theorem retry_notifies_when_services_answer (w0 : world) (s : supervised)
    (i : nat) (inv : invocation) :
  sreachable (supervise (deployed w0)) s →
  invocations_of (base s) !! i = Some inv →
  is_rejected (inv_task inv) = true →
  was_retried s !! i = Some false →
  firestore_up (world_of (base s)) = true →
  messaging_up (world_of (base s)) = true →
  tokensOf (availableDrivers (world_of (base s))) ≠ [] →
  ∃ s' inv',
    recover i s = Some s' ∧
    outbox (world_of (base s'))
    = outbox (world_of (base s))
      ++ [message (tokensOf (availableDrivers (world_of (base s))))] ∧
    last (invocations_of (base s')) = Some inv' ∧
    inv_snap inv' = inv_snap inv ∧ inv_task inv' = Settled (Resolved tt).
Proof.
  intros Hs Hi Hrej Hflag Hfs Hfcm Htok.
  destruct (sound_sreachable w0 s Hs) as (Hall & _ & _).
  eapply Forall_lookup_1 in Hall; [|exact Hi]. unfold allowed in Hall.
  pose proof Hrej as Hrej'.
  destruct (inv_task inv) as [|[|e]] eqn:Htask; try done. simpl in Hall.
  apply notifies_rejected_accepted in Hall as [_ Hdata].
  pose proof (sreachable_redelivers w0 s Hs) as Hre.
  eapply Forall_lookup_1 in Hre as [id Hid]; [|exact Hi].
  rewrite <-Htask in Hrej'. unfold recover. cbn [ssteps].
  rewrite (sstep_Retry_Some i s inv Hi Hflag Hrej').
  rewrite (restart_redelivers _ id _ Hid). cbv zeta.
  pose proof (handler_steps
    {| snap_path := snap_path (inv_snap inv);
       snap_fields := snap_fields (inv_snap inv) |}
    {| params := [("requestId", id)] |} (world_of (base s))
    Hdata Hfs Hfcm Htok) as Hsteps. cbv zeta in Hsteps.
  destruct (advance _ (world_of (base s))) as [[t0 w'] ev0].
  destruct Hsteps as (-> & -> & Hp0 & Hp1 & Hdone & Hout).
  cbn [fst snd mbind option_bind] in *.
  match goal with |- context [sstep _ {| base := {| invocations_of := _ ++ [?x] |};
                                        was_retried := ?F |}] =>
    destruct (sstep_Resume_last (invocations_of (base s)) x
                (world_of (base s)) F Hp0)
      as [F1 ->] end.
  cbn [mbind option_bind inv_task].
  destruct (resume t0 (world_of (base s))) as [[t1 w1] ev1].
  cbn [fst snd] in *.
  match goal with |- context [sstep _ {| base := {| invocations_of := _ ++ [?x] |};
                                        was_retried := ?F |}] =>
    destruct (sstep_Resume_last (invocations_of (base s)) x w1 F Hp1)
      as [F2 ->] end.
  cbn [mbind option_bind inv_task resumed].
  destruct (resume t1 w1) as [[t2 w2] ev2]. cbn [fst snd] in *. subst t2.
  eexists _, _. split; [done|]. cbn [base world_of invocations_of].
  split; [done|]. rewrite last_snoc. split; [done|]. split; [|done].
  apply snapshot_eta.
Qed.

(** * Worked runs *)

Definition srun_of (acts : list supervision) (w : world) : supervised :=
  default (supervise (deployed w)) (ssteps acts (supervise (deployed w))).

(** The push service is down when a request is created and its invocation
    runs; it comes back afterwards. *)
Definition outage : list supervision :=
  [Plain (Switch true false); Plain create_r1;
   Plain (Resume 0); Plain (Resume 0); Plain (Switch true true)].

(** The same, followed by the retry and the answers to its two calls. *)
Definition outage_and_retry : list supervision :=
  outage ++ [Retry 0; Plain (Resume 1); Plain (Resume 1)].

(** The invocation of the outage, once rejected. *)
Definition unsent : invocation :=
  {| inv_snap := request;
     inv_task := Settled (Rejected "messaging/server-unavailable");
     inv_trace :=
       [EvGet driversQuery (Ok [driverA; driverB; driverC]);
        EvSend (message [VString "A"; VString "B"])
               (Err "messaging/server-unavailable")];
     inv_resumed := 2 |}.

Lemma outage_steps :
  ssteps outage (supervise (deployed town)) = Some (srun_of outage town).
Proof. by vm_compute. Qed.

Lemma outage_and_retry_steps :
  ssteps outage_and_retry (supervise (deployed town))
  = Some (srun_of outage_and_retry town).
Proof. by vm_compute. Qed.

Lemma outage_invocations :
  invocations_of (base (srun_of outage town)) = [unsent].
Proof. by vm_compute. Qed.

Lemma outage_sreachable :
  sreachable (supervise (deployed town)) (srun_of outage town).
Proof. apply (ssteps_sreachable outage), outage_steps. Qed.

(** The run of the outage and the retry: the first invocation is marked
    as retried, the second resolved, and one message was accepted. *)
Example outage_and_retry_run :
  let s := srun_of outage_and_retry town in
  was_retried s = [true; false] ∧
  inv_task <$> invocations_of (base s)
  = [Settled (Rejected "messaging/server-unavailable");
     Settled (Resolved tt)] ∧
  outbox (world_of (base s)) = [message [VString "A"; VString "B"]].
Proof. by vm_compute. Qed.

Lemma retried_invocation_keeps_contract_witness :
  notifies (inv_snap unsent) (inv_trace unsent)
    (Rejected "messaging/server-unavailable").
Proof.
  apply (retried_invocation_keeps_contract town (srun_of outage town) unsent).
  - apply outage_sreachable.
  - rewrite outage_invocations. by left.
  - reflexivity.
Defined.

Lemma retries_never_duplicate_witness :
  length (outbox (world_of (base (srun_of outage_and_retry town))))
  ≤ length (outage_and_retry ≫= striggers).
Proof.
  apply (retries_never_duplicate outage_and_retry town),
    outage_and_retry_steps.
Defined.

Lemma retry_notifies_when_services_answer_witness :
  ∃ s' inv',
    recover 0 (srun_of outage town) = Some s' ∧
    outbox (world_of (base s'))
    = outbox (world_of (base (srun_of outage town)))
      ++ [message (tokensOf (availableDrivers
                               (world_of (base (srun_of outage town)))))] ∧
    last (invocations_of (base s')) = Some inv' ∧
    inv_snap inv' = inv_snap unsent ∧ inv_task inv' = Settled (Resolved tt).
Proof.
  apply (retry_notifies_when_services_answer town (srun_of outage town)
           0 unsent).
  - apply outage_sreachable.
  - by rewrite outage_invocations.
  - reflexivity.
  - by vm_compute.
  - by vm_compute.
  - by vm_compute.
  - by vm_compute.
Defined.
